(** * pluck: XPath-subset parser, evaluator and Selector result abstraction

    A shallow embedding of the TypeScript sources (xpath.ts, selector.ts,
    pseudo.ts, regex.ts) and the properties proved about them.

    Conventions of the embedding:
    - a JavaScript string is the list of its UTF-16 code units ([str]);
    - a number that the code only uses as an integer (indices, counts,
      the result of [parseInt] on a run of digits) is a [Z]; this is exact
      below 2^53;
    - a DOM node is the path of child indices that leads to it from the
      Document node; node identity ([===], [indexOf], [Set.has]) is path
      equality.  The tree is never mutated here ([remove()] is not modelled),
      so every node is attached;
    - code that can throw ([querySelectorAll] of the tree provider) and
      loops that need a measure live in the monad [res]. *)

From Stdlib Require Import String Ascii NArith ZArith Bool Arith Lia List.
Import ListNotations.

Set Implicit Arguments.

(** ** Outcomes: a value, a thrown exception, or an exhausted loop budget *)

Inductive res (A : Type) : Type :=
| Ret (a : A)
| Throw
| Timeout.

Arguments Ret {A} a.
Arguments Throw {A}.
Arguments Timeout {A}.

Definition bind {A B} (m : res A) (k : A -> res B) : res B :=
  match m with
  | Ret a => k a
  | Throw => Throw
  | Timeout => Timeout
  end.

Notation "x <- m ;; k" := (bind m (fun x => k))
  (at level 61, m at next level, right associativity).
Notation "' p <- m ;; k" := (bind m (fun p => k))
  (at level 61, p pattern, m at next level, right associativity).

Definition returns {A} (m : res A) : Prop := exists a, m = Ret a.

(** ** Strings as lists of UTF-16 code units *)

Definition char := N.
Definition str := list char.

Definition js (s : string) : str :=
  map N_of_ascii (list_ascii_of_string s).

Fixpoint str_eqb (a b : str) : bool :=
  match a, b with
  | [], [] => true
  | x :: a', y :: b' => N.eqb x y && str_eqb a' b'
  | _, _ => false
  end.

(** Character classes of the regular expressions and of [trim]. *)

Definition in_range (lo hi c : N) : bool := (lo <=? c)%N && (c <=? hi)%N.

(** [\d] *)
Definition is_digit (c : char) : bool := in_range 48 57 c.

(** [\w] is [A-Za-z0-9_] *)
Definition is_word (c : char) : bool :=
  in_range 65 90 c || in_range 97 122 c || is_digit c || N.eqb c 95.

(** [[\w-]] *)
Definition is_name_char (c : char) : bool := is_word c || N.eqb c 45.

(** ECMAScript LineTerminator: LF, CR, U+2028, U+2029. *)
Definition is_line_terminator (c : char) : bool :=
  N.eqb c 10 || N.eqb c 13 || N.eqb c 8232 || N.eqb c 8233.

(** [\s], and the characters [trim] strips: WhiteSpace and LineTerminator. *)
Definition is_space (c : char) : bool :=
  in_range 9 13 c || N.eqb c 32 || N.eqb c 160 || N.eqb c 5760
  || in_range 8192 8202 c || N.eqb c 8232 || N.eqb c 8233
  || N.eqb c 8239 || N.eqb c 8287 || N.eqb c 12288 || N.eqb c 65279.

(** [.] without the s flag: anything but a line terminator. *)
Definition is_dot (c : char) : bool := negb (is_line_terminator c).

Definition is_quote (c : char) : bool := N.eqb c 39 || N.eqb c 34.

(** ** String primitives *)

Fixpoint trimStart (s : str) : str :=
  match s with
  | c :: s' => if is_space c then trimStart s' else s
  | [] => []
  end.

Definition trimEnd (s : str) : str := rev (trimStart (rev s)).

Definition trim (s : str) : str := trimEnd (trimStart s).

Fixpoint startsWith (p s : str) : bool :=
  match p, s with
  | [], _ => true
  | x :: p', y :: s' => N.eqb x y && startsWith p' s'
  | _ :: _, [] => false
  end.

Definition endsWith (p s : str) : bool := startsWith (rev p) (rev s).

(** [s.indexOf(p)], [None] for -1. *)
Fixpoint indexOf_from (p s : str) (i : nat) : option nat :=
  if startsWith p s then Some i
  else match s with
       | [] => None
       | _ :: s' => indexOf_from p s' (S i)
       end.

Definition str_indexOf (p s : str) : option nat := indexOf_from p s 0.

Definition includes (p s : str) : bool :=
  match str_indexOf p s with Some _ => true | None => false end.

(** [s.slice(a)] and [s.slice(a, b)], with JavaScript's treatment of
    negative and out-of-range bounds. *)
Definition clamp_index (len : nat) (a : Z) : nat :=
  if (a <? 0)%Z then Z.to_nat (Z.max (Z.of_nat len + a) 0)
  else Nat.min (Z.to_nat a) len.

Definition slice (s : str) (a : Z) (b : option Z) : str :=
  let len := length s in
  let from := clamp_index len a in
  let to := match b with Some b => clamp_index len b | None => len end in
  firstn (to - from) (skipn from s).

(** [parseInt(d, 10)] on a run of decimal digits: the number the digits
    spell.  The source gets a double, which is this number below 2^53 and
    the nearest double, or Infinity, above. *)
Definition digit_val (c : char) : Z := Z.of_N (c - 48).

Definition parseInt (d : str) : Z :=
  fold_left (fun acc c => (10 * acc + digit_val c)%Z) d 0%Z.

(** ASCII case folding.  Tag names built by the HTML tree builder and the
    names the parser accepts ([[\w-]+]) are ASCII; other code units are left
    unchanged. *)
Definition lower_char (c : char) : char :=
  if in_range 65 90 c then (c + 32)%N else c.

Definition toLowerCase (s : str) : str := map lower_char s.

Fixpoint concat_str (l : list str) : str :=
  match l with
  | [] => []
  | s :: l' => s ++ concat_str l'
  end.

(** [l.join(sep)] *)
Fixpoint join (sep : str) (l : list str) : str :=
  match l with
  | [] => []
  | [s] => s
  | s :: l' => s ++ sep ++ join sep l'
  end.


(** ** Regular expressions

    The literal patterns of the sources are written as terms of [re] and run
    by a backtracking matcher that lists every way to match, in the order in
    which a backtracking engine tries them; the first one is the match that
    [String.prototype.match] reports.  All patterns of the sources are
    anchored with [^], so matching starts at the first code unit. *)

Inductive re : Type :=
| Eps
| Chr (p : char -> bool)
| Seq (a b : re)
| Alt (a b : re)
| Star (greedy : bool) (a : re)
| Grp (i : nat) (a : re)
| Eoi.

(** Captures, most recent binding first. *)
Definition caps := list (nat * str).

Fixpoint group (i : nat) (c : caps) : option str :=
  match c with
  | [] => None
  | (j, v) :: c' => if Nat.eqb i j then Some v else group i c'
  end.

(** Iterations of a starred pattern; an iteration that consumes nothing is
    not considered, as in ECMAScript. *)
Fixpoint star_runs (greedy : bool) (step : str -> caps -> list (str * caps))
    (fuel : nat) (s : str) (c : caps) : list (str * caps) :=
  match fuel with
  | 0 => [(s, c)]
  | S n =>
      let more :=
        flat_map (fun '(s', c') =>
                    if length s' <? length s
                    then star_runs greedy step n s' c' else [])
                 (step s c) in
      if greedy then more ++ [(s, c)] else (s, c) :: more
  end.

Fixpoint run (r : re) (s : str) (c : caps) : list (str * caps) :=
  match r with
  | Eps => [(s, c)]
  | Chr p =>
      match s with
      | x :: s' => if p x then [(s', c)] else []
      | [] => []
      end
  | Seq a b => flat_map (fun '(s', c') => run b s' c') (run a s c)
  | Alt a b => run a s c ++ run b s c
  | Star g a => star_runs g (run a) (length s) s c
  | Grp i a =>
      map (fun '(s', c') => (s', (i, firstn (length s - length s') s) :: c'))
          (run a s c)
  | Eoi => match s with [] => [(s, c)] | _ :: _ => [] end
  end.

(** [s.match(/^.../)]: the length of [match[0]] and the captures. *)
Definition re_match (r : re) (s : str) : option (nat * caps) :=
  match run r s [] with
  | [] => None
  | (rest, c) :: _ => Some (length s - length rest, c)
  end.

(** [match[i]] for a group that took part in the match ([[]] otherwise; the
    sources only read groups that did, except where [opt_group] is used). *)
Definition grp (i : nat) (c : caps) : str :=
  match group i c with Some v => v | None => [] end.

Definition lit (s : string) : re :=
  fold_right (fun a r => Seq (Chr (N.eqb (N_of_ascii a))) r) Eps
             (list_ascii_of_string s).

Definition cat (l : list re) : re := fold_right Seq Eps l.

Definition plus (greedy : bool) (a : re) : re := Seq a (Star greedy a).

Definition opt (a : re) : re := Alt a Eps.

(** [\s*] *)
Definition ws : re := Star true (Chr is_space).
(** [[\w-]+] *)
Definition name_re : re := plus true (Chr is_name_char).
(** [\d+] *)
Definition digits : re := plus true (Chr is_digit).
(** a quote character, single or double *)
Definition quote : re := Chr is_quote.
(** a run of characters other than quotes *)
Definition unquoted : re := Star true (Chr (fun c => negb (is_quote c))).
(** [(?:text\(\)|\.)] *)
Definition text_or_dot : re := Alt (lit "text()") (lit ".").
(** [(<|>|<=|>=)] and [(<|>|<=|>=|=)], as group [i] *)
Definition cmp4 (i : nat) : re :=
  Grp i (Alt (lit "<") (Alt (lit ">") (Alt (lit "<=") (lit ">=")))).
Definition cmp5 (i : nat) : re :=
  Grp i (Alt (lit "<") (Alt (lit ">") (Alt (lit "<=")
        (Alt (lit ">=") (lit "="))))).
(** a quoted literal whose content is captured as group [i] *)
Definition quoted (i : nat) : re := cat [quote; Grp i unquoted; quote].

(** ** Steps, node tests and predicates (xpath.ts) *)

Inductive Axis : Type :=
| ax_child | ax_descendant | ax_self | ax_attribute | ax_parent
| ax_ancestor | ax_following_sibling | ax_preceding_sibling
| ax_following | ax_preceding.

Inductive NodeTest : Type :=
| NT_name (name : str)
| NT_any
| NT_text
| NT_node.

Inductive CmpOp : Type := op_lt | op_gt | op_le | op_ge | op_eq.

Inductive Predicate : Type :=
| P_position (index : Z)
| P_attr_exists (name : str)
| P_attr_equals (name value : str)
| P_text_equals (value : str)
| P_text_contains (value : str)
| P_attr_contains (name value : str)
| P_attr_starts_with (name value : str)
| P_attr_ends_with (name value : str)
| P_text_starts_with (value : str)
| P_text_ends_with (value : str)
| P_has_child (tagName : str)
| P_not (inner : Predicate)
| P_and (left right : Predicate)
| P_or (left right : Predicate)
| P_attr_not_equals (name value : str)
| P_text_not_equals (value : str)
| P_normalize_space_equals (value : str)
| P_last
| P_position_compare (operator : CmpOp) (value : Z)
| P_count_compare (tagName : str) (operator : CmpOp) (value : Z)
| P_string_length_compare (operator : CmpOp) (value : Z)
| P_substring_equals (start : Z) (len : option Z) (value : str)
| P_substring_before_equals (delimiter value : str)
| P_substring_after_equals (delimiter value : str)
| P_translate_equals (from to value : str).

Record Step : Type := mkStep {
  axis : Axis;
  nodeTest : NodeTest;
  predicates : list Predicate
}.

(** Diagnostics handed to the logger. *)
Inductive LogLevel : Type := lvl_debug | lvl_info | lvl_warn | lvl_error.

Record LogEntry : Type := mkLog {
  level : LogLevel;
  message : string;
  context : list (string * str)
}.

(** ** Splitting at depth 0 outside quotes *)

(** State of the scanning loops of [splitUnion] and [splitByOperator]:
    the parts pushed so far, the part being built, the bracket depth and the
    quote that is open, if any. *)
Record SplitState : Type := mkSplit {
  parts : list str;
  current : str;
  depth : Z;
  inString : option char
}.

Definition is_open (c : char) : bool := N.eqb c 40 || N.eqb c 91.
Definition is_close (c : char) : bool := N.eqb c 41 || N.eqb c 93.

(** One iteration of the loop body for the character at the head of [s];
    [skip] counts the characters of an operator still to be stepped over
    (the source's [i += operator.length - 1]). *)
Fixpoint split_loop (operator : str) (skip : nat) (s : str) (st : SplitState)
    : SplitState :=
  match s with
  | [] => st
  | char :: s' =>
      match skip with
      | S k => split_loop operator k s' st
      | 0 =>
          match inString st with
          | Some q =>
              split_loop operator 0 s'
                (mkSplit (parts st) (current st ++ [char]) (depth st)
                         (if N.eqb char q then None else Some q))
          | None =>
              if is_quote char then
                split_loop operator 0 s'
                  (mkSplit (parts st) (current st ++ [char]) (depth st)
                           (Some char))
              else if is_open char then
                split_loop operator 0 s'
                  (mkSplit (parts st) (current st ++ [char]) (depth st + 1)
                           None)
              else if is_close char then
                split_loop operator 0 s'
                  (mkSplit (parts st) (current st ++ [char]) (depth st - 1)
                           None)
              else if (depth st =? 0)%Z && startsWith operator s then
                split_loop operator (length operator - 1) s'
                  (mkSplit (parts st ++ [trim (current st)]) [] (depth st)
                           None)
              else
                split_loop operator 0 s'
                  (mkSplit (parts st) (current st ++ [char]) (depth st) None)
          end
      end
  end.

Definition split_finish (st : SplitState) : list str :=
  match trim (current st) with
  | [] => parts st
  | _ :: _ => parts st ++ [trim (current st)]
  end.

Definition splitByOperator (content operator : str) : list str :=
  split_finish (split_loop operator 0 content (mkSplit [] [] 0 None)).

Definition splitUnion (expr : str) : list str :=
  split_finish (split_loop (js "|") 0 expr (mkSplit [] [] 0 None)).

(** ** Bracket matching *)

Fixpoint findMatchingBracket_loop (s : str) (i : nat) (depth : Z)
    (inString : option char) : option nat :=
  match s with
  | [] => None
  | char :: s' =>
      match inString with
      | Some q =>
          findMatchingBracket_loop s' (S i) depth
            (if N.eqb char q then None else Some q)
      | None =>
          if is_quote char then
            findMatchingBracket_loop s' (S i) depth (Some char)
          else if N.eqb char 91 then
            findMatchingBracket_loop s' (S i) (depth + 1) None
          else if N.eqb char 93 then
            if (depth - 1 =? 0)%Z then Some i
            else findMatchingBracket_loop s' (S i) (depth - 1) None
          else findMatchingBracket_loop s' (S i) depth None
      end
  end.

(** [None] is the source's -1. *)
Definition findMatchingBracket (expr : str) : option nat :=
  findMatchingBracket_loop expr 0 0 None.

(** ** The predicate grammar (parsePredicateContent)

    Each pattern below is the regular expression literal of the source with
    the same name, in the order in which the source tries them. *)

Definition posMatch : re := cat [Grp 1 digits; Eoi].

Definition notMatch : re :=
  cat [lit "not"; ws; lit "("; ws; Grp 1 (plus true (Chr is_dot)); ws;
       lit ")"; Eoi].

Definition attrExistsMatch : re := cat [lit "@"; Grp 1 name_re; Eoi].

Definition attrEqualsMatch : re :=
  cat [lit "@"; Grp 1 name_re; ws; lit "="; ws; quoted 2].

Definition attrNotEqualsMatch : re :=
  cat [lit "@"; Grp 1 name_re; ws; lit "!="; ws; quoted 2].

Definition textEqualsMatch : re :=
  cat [lit "text()"; ws; lit "="; ws; quoted 1].

Definition textNotEqualsMatch : re :=
  cat [lit "text()"; ws; lit "!="; ws; quoted 1].

Definition normalizeSpaceMatch : re :=
  cat [lit "normalize-space"; ws; lit "("; opt (lit "."); lit ")"; ws;
       lit "="; ws; quoted 1].

Definition positionCompareMatch : re :=
  cat [lit "position()"; ws; cmp4 1; ws; Grp 2 digits].

Definition countCompareMatch : re :=
  cat [lit "count"; ws; lit "("; ws; Grp 1 name_re; ws; lit ")"; ws;
       cmp5 2; ws; Grp 3 digits].

Definition stringLengthMatch : re :=
  cat [lit "string-length"; ws; lit "("; ws;
       Alt (lit "text()") (Alt (lit ".") ws); ws; lit ")"; ws;
       cmp5 1; ws; Grp 2 digits].

Definition substringMatch : re :=
  cat [lit "substring"; ws; lit "("; ws; text_or_dot; ws; lit ","; ws;
       Grp 1 digits; opt (cat [ws; lit ","; ws; Grp 2 digits]); ws;
       lit ")"; ws; lit "="; ws; quoted 3].

Definition substringBeforeMatch : re :=
  cat [lit "substring-before"; ws; lit "("; ws; text_or_dot; ws; lit ",";
       ws; quoted 1; ws; lit ")"; ws; lit "="; ws; quoted 2].

Definition substringAfterMatch : re :=
  cat [lit "substring-after"; ws; lit "("; ws; text_or_dot; ws; lit ",";
       ws; quoted 1; ws; lit ")"; ws; lit "="; ws; quoted 2].

Definition translateMatch : re :=
  cat [lit "translate"; ws; lit "("; ws; text_or_dot; ws; lit ","; ws;
       quoted 1; ws; lit ","; ws; quoted 2; ws; lit ")"; ws; lit "="; ws;
       quoted 3].

Definition fn_attr_arg (fn : string) : re :=
  cat [lit fn; ws; lit "("; ws; lit "@"; Grp 1 name_re; ws; lit ","; ws;
       quoted 2; ws; lit ")"].

Definition fn_text_arg (fn : string) : re :=
  cat [lit fn; ws; lit "("; ws; text_or_dot; ws; lit ","; ws; quoted 1;
       ws; lit ")"].

Definition containsAttrMatch : re := fn_attr_arg "contains".
Definition containsTextMatch : re := fn_text_arg "contains".
Definition startsWithAttrMatch : re := fn_attr_arg "starts-with".
Definition startsWithTextMatch : re := fn_text_arg "starts-with".
Definition endsWithAttrMatch : re := fn_attr_arg "ends-with".
Definition endsWithTextMatch : re := fn_text_arg "ends-with".

Definition childMatch : re := cat [Grp 1 name_re; Eoi].

(** The operator a comparison group captured. *)
Definition cmp_of (s : str) : CmpOp :=
  if str_eqb s (js "<") then op_lt
  else if str_eqb s (js ">") then op_gt
  else if str_eqb s (js "<=") then op_le
  else if str_eqb s (js ">=") then op_ge
  else op_eq.

Definition on_match {A} (r : re) (s : str) (k : caps -> A) (otherwise : A)
    : A :=
  match re_match r s with
  | Some (_, c) => k c
  | None => otherwise
  end.

(** The forms tried after [or], [and] and [not(...)]: none of them recurses. *)
Definition parseSimplePredicate (content : str) : option Predicate :=
  on_match attrExistsMatch content
    (fun c => Some (P_attr_exists (grp 1 c))) (
  on_match attrEqualsMatch content
    (fun c => Some (P_attr_equals (grp 1 c) (grp 2 c))) (
  on_match attrNotEqualsMatch content
    (fun c => Some (P_attr_not_equals (grp 1 c) (grp 2 c))) (
  on_match textEqualsMatch content
    (fun c => Some (P_text_equals (grp 1 c))) (
  on_match textNotEqualsMatch content
    (fun c => Some (P_text_not_equals (grp 1 c))) (
  on_match normalizeSpaceMatch content
    (fun c => Some (P_normalize_space_equals (grp 1 c))) (
  if str_eqb content (js "last()") then Some P_last else
  on_match positionCompareMatch content
    (fun c => Some (P_position_compare (cmp_of (grp 1 c))
                                       (parseInt (grp 2 c)))) (
  on_match countCompareMatch content
    (fun c => Some (P_count_compare (grp 1 c) (cmp_of (grp 2 c))
                                    (parseInt (grp 3 c)))) (
  on_match stringLengthMatch content
    (fun c => Some (P_string_length_compare (cmp_of (grp 1 c))
                                            (parseInt (grp 2 c)))) (
  on_match substringMatch content
    (fun c => Some (P_substring_equals (parseInt (grp 1 c))
                      (option_map parseInt (group 2 c)) (grp 3 c))) (
  on_match substringBeforeMatch content
    (fun c => Some (P_substring_before_equals (grp 1 c) (grp 2 c))) (
  on_match substringAfterMatch content
    (fun c => Some (P_substring_after_equals (grp 1 c) (grp 2 c))) (
  on_match translateMatch content
    (fun c => Some (P_translate_equals (grp 1 c) (grp 2 c) (grp 3 c))) (
  on_match containsAttrMatch content
    (fun c => Some (P_attr_contains (grp 1 c) (grp 2 c))) (
  on_match containsTextMatch content
    (fun c => Some (P_text_contains (grp 1 c))) (
  on_match startsWithAttrMatch content
    (fun c => Some (P_attr_starts_with (grp 1 c) (grp 2 c))) (
  on_match startsWithTextMatch content
    (fun c => Some (P_text_starts_with (grp 1 c))) (
  on_match endsWithAttrMatch content
    (fun c => Some (P_attr_ends_with (grp 1 c) (grp 2 c))) (
  on_match endsWithTextMatch content
    (fun c => Some (P_text_ends_with (grp 1 c))) (
  on_match childMatch content
    (fun c => Some (P_has_child (grp 1 c)))
  None))))))))))))))))))).

(** [if (result && right) result = { type, left: result, right }] *)
Definition combine (mk : Predicate -> Predicate -> Predicate)
    (result right : option Predicate) : option Predicate :=
  match result, right with
  | Some l, Some r => Some (mk l r)
  | _, _ => result
  end.

(** [parsePredicateContent]; [fuel] bounds the depth of the recursion into
    the operands of [or] and [and] and the argument of [not]. *)
Fixpoint parsePredicateContent_fuel (fuel : nat) (content : str)
    : res (option Predicate) :=
  match fuel with
  | 0 => Timeout
  | S n =>
      let content := trim content in
      let operands (mk : Predicate -> Predicate -> Predicate)
                   (ps : list str) : res (option Predicate) :=
        fold_left
          (fun acc part =>
             result <- acc ;;
             right <- parsePredicateContent_fuel n part ;;
             Ret (combine mk result right))
          (tl ps)
          (parsePredicateContent_fuel n (hd [] ps)) in
      match re_match posMatch content with
      | Some (_, c) => Ret (Some (P_position (parseInt (grp 1 c))))
      | None =>
          let orParts := splitByOperator content (js " or ") in
          if 1 <? length orParts then operands P_or orParts
          else
            let andParts := splitByOperator content (js " and ") in
            if 1 <? length andParts then operands P_and andParts
            else
              match re_match notMatch content with
              | Some (_, c) =>
                  inner <- parsePredicateContent_fuel n (grp 1 c) ;;
                  match inner with
                  | Some i => Ret (Some (P_not i))
                  | None => Ret (parseSimplePredicate content)
                  end
              | None => Ret (parseSimplePredicate content)
              end
      end
  end.

Definition parsePredicateContent (content : str) : res (option Predicate) :=
  parsePredicateContent_fuel (S (length content)) content.

Definition parseSinglePredicate (expr : str)
    : res (option Predicate * str) :=
  if negb (startsWith (js "[") expr) then Ret (None, expr)
  else
    match findMatchingBracket expr with
    | None => Ret (None, expr)
    | Some closeIdx =>
        let content := trim (slice expr 1 (Some (Z.of_nat closeIdx))) in
        let rest := skipn (closeIdx + 1) expr in
        predicate <- parsePredicateContent content ;;
        Ret (predicate, rest)
    end.

Definition push {A} (l : list A) (x : option A) : list A :=
  match x with Some a => l ++ [a] | None => l end.

(** The [while (remaining.startsWith("["))] loop of [parsePredicates]. *)
Fixpoint parsePredicates_loop (fuel : nat) (preds : list Predicate)
    (remaining : str) : res (list Predicate * str) :=
  if negb (startsWith (js "[") remaining) then Ret (preds, remaining)
  else
    match fuel with
    | 0 => Timeout
    | S n =>
        '(predicate, rest) <- parseSinglePredicate remaining ;;
        if str_eqb rest remaining then Ret (push preds predicate, remaining)
        else parsePredicates_loop n (push preds predicate) rest
    end.

Definition parsePredicates (expr : str) : res (list Predicate * str) :=
  parsePredicates_loop (length expr) [] expr.

(** ** Steps (parseStep, parseXPath) *)

Definition axisMatch : re :=
  cat [Grp 1 (Alt (lit "following-sibling") (Alt (lit "preceding-sibling")
         (Alt (lit "following") (Alt (lit "preceding") (Alt (lit "ancestor")
         (Alt (lit "parent") (lit "self")))))));
       lit "::"].

Definition axis_of (s : str) : Axis :=
  if str_eqb s (js "following-sibling") then ax_following_sibling
  else if str_eqb s (js "preceding-sibling") then ax_preceding_sibling
  else if str_eqb s (js "following") then ax_following
  else if str_eqb s (js "preceding") then ax_preceding
  else if str_eqb s (js "ancestor") then ax_ancestor
  else if str_eqb s (js "parent") then ax_parent
  else ax_self.

Definition attrMatch : re := cat [lit "@"; Grp 1 name_re].
Definition nameMatch : re := cat [Grp 1 name_re].

(** The part of [parseStep] after the leading path marker has been read. *)
Definition parseStep_test (axis0 : Axis) (remaining0 : str)
    : res (option Step * str) :=
  let '(axis, remaining) :=
    match re_match axisMatch remaining0 with
    | Some (n, c) => (axis_of (grp 1 c), skipn n remaining0)
    | None => (axis0, remaining0)
    end in
  let with_predicates (test : NodeTest) (after : str) :=
    '(preds, rest) <- parsePredicates after ;;
    Ret (Some (mkStep axis test preds), rest) in
  match (if startsWith (js "@") remaining
         then re_match attrMatch remaining else None) with
  | Some (n, c) =>
      Ret (Some (mkStep ax_attribute (NT_name (grp 1 c)) []),
           skipn n remaining)
  | None =>
      if startsWith (js "text()") remaining then
        with_predicates NT_text (skipn 6 remaining)
      else if startsWith (js "node()") remaining then
        with_predicates NT_node (skipn 6 remaining)
      else if startsWith (js "*") remaining then
        with_predicates NT_any (skipn 1 remaining)
      else
        match re_match nameMatch remaining with
        | Some (n, c) => with_predicates (NT_name (grp 1 c)) (skipn n remaining)
        | None => Ret (None, remaining)
        end
  end.

Definition parseStep (expr : str) : res (option Step * str) :=
  if startsWith (js "//") expr then
    parseStep_test ax_descendant (skipn 2 expr)
  else if startsWith (js "/") expr then
    parseStep_test ax_child (skipn 1 expr)
  else if startsWith (js ".//") expr then
    parseStep_test ax_descendant (skipn 3 expr)
  else if startsWith (js "./") expr then
    parseStep_test ax_child (skipn 2 expr)
  else if startsWith (js "..") expr then
    Ret (Some (mkStep ax_parent NT_node []), skipn 2 expr)
  else if startsWith (js ".") expr then
    Ret (Some (mkStep ax_self NT_node []), skipn 1 expr)
  else parseStep_test ax_child expr.

Definition warn_unparseable (remaining expr : str) : LogEntry :=
  mkLog lvl_warn "unparseable xpath segment"
        [("segment"%string, slice remaining 0 (Some 50%Z));
         ("expression"%string, expr)].

(** The [while (remaining.length > 0)] loop of [parseXPath]; the result is
    the steps and what was handed to the logger. *)
Fixpoint parseXPath_loop (fuel : nat) (expr : str) (steps : list Step)
    (remaining : str) : res (list Step * list LogEntry) :=
  if negb (0 <? length remaining) then Ret (steps, [])
  else
    match fuel with
    | 0 => Timeout
    | S n =>
        '(step, rest) <- parseStep remaining ;;
        if str_eqb rest remaining then
          Ret (push steps step,
               if 0 <? length remaining
               then [warn_unparseable remaining expr] else [])
        else parseXPath_loop n expr (push steps step) rest
    end.

Definition parseXPath (expr : str) : res (list Step * list LogEntry) :=
  parseXPath_loop (length expr) expr [] (trim expr).

(** ** The document tree

    The tree provider is external; what the sources read from it is modelled
    on a tree of elements, text and comment nodes under a Document node.
    Native selector matching and markup serialization stay parameters. *)

#[local] Set Warnings "-register-all".

Inductive tree : Type :=
| Element (tagName : str) (attributes : list (str * str))
          (children : list tree)
| Text (data : str)
| Comment (data : str).

(** A node is the path of child indices from the Document node, which is
    the empty path. *)
Definition Node := list nat.

Definition node_eqb (a b : Node) : bool :=
  if list_eq_dec Nat.eq_dec a b then true else false.

Definition children_of (t : tree) : list tree :=
  match t with
  | Element _ _ cs => cs
  | Text _ | Comment _ => []
  end.

Fixpoint lookup_from (cs : list tree) (p : Node) : option tree :=
  match p with
  | [] => None
  | i :: q =>
      match nth_error cs i with
      | None => None
      | Some t =>
          match q with
          | [] => Some t
          | _ :: _ => lookup_from (children_of t) q
          end
      end
  end.

(** Pre-order list of the strict descendants of the node at path [n] whose
    subtree is [t]: [getDescendants] with its recursive [walker]. *)
Fixpoint descendants_tree (n : Node) (t : tree) : list Node :=
  match t with
  | Element _ _ cs =>
      (fix walker (i : nat) (cs : list tree) : list Node :=
         match cs with
         | [] => []
         | c :: cs' =>
             (n ++ [i]) :: descendants_tree (n ++ [i]) c ++ walker (S i) cs'
         end) 0 cs
  | Text _ | Comment _ => []
  end.

(** The same for a node at [n] given by its children [cs], numbered from
    [i]. *)
Fixpoint descendants_list (n : Node) (i : nat) (cs : list tree)
    : list Node :=
  match cs with
  | [] => []
  | c :: cs' =>
      (n ++ [i]) :: descendants_tree (n ++ [i]) c
        ++ descendants_list n (S i) cs'
  end.

(** Concatenated data of the Text descendants. *)
Fixpoint descendant_text (t : tree) : str :=
  match t with
  | Element _ _ cs => concat_str (map descendant_text cs)
  | Text d => d
  | Comment _ => []
  end.

Fixpoint assoc (name : str) (l : list (str * str)) : option str :=
  match l with
  | [] => None
  | (k, v) :: l' => if str_eqb k name then Some v else assoc name l'
  end.

Fixpoint is_prefix (a b : Node) : bool :=
  match a, b with
  | [], _ => true
  | x :: a', y :: b' => Nat.eqb x y && is_prefix a' b'
  | _ :: _, [] => false
  end.

(** [allNodes.indexOf(node)], -1 when absent. *)
Fixpoint indexOf_node (node : Node) (l : list Node) (i : Z) : Z :=
  match l with
  | [] => (-1)%Z
  | x :: l' => if node_eqb x node then i else indexOf_node node l' (i + 1)%Z
  end.

Inductive XPathResult : Type :=
| R_node (n : Node)
| R_string (s : str).

Definition compareNumbers (left : Z) (operator : CmpOp) (right : Z) : bool :=
  match operator with
  | op_lt => (left <? right)%Z
  | op_gt => (left >? right)%Z
  | op_le => (left <=? right)%Z
  | op_ge => (left >=? right)%Z
  | op_eq => (left =? right)%Z
  end.

(** [text.replace(/\s+/g, " ")]: every maximal run of white space becomes
    one space. *)
Fixpoint collapse_spaces (in_run : bool) (s : str) : str :=
  match s with
  | [] => []
  | c :: s' =>
      if is_space c
      then if in_run then collapse_spaces true s'
           else 32%N :: collapse_spaces true s'
      else c :: collapse_spaces false s'
  end.

Definition normalizeSpace (text : str) : str :=
  trim (collapse_spaces false text).

(** [result.split(x).join(y)] for a single code unit [x]. *)
Definition replace_char (x : char) (y : str) (s : str) : str :=
  flat_map (fun c => if N.eqb c x then y else [c]) s.

(** The loop of the translate predicate over the indices of [from]. *)
Fixpoint translate_loop (from to : str) (result : str) : str :=
  match from with
  | [] => result
  | f :: from' =>
      let replacement := match to with t :: _ => [t] | [] => [] end in
      translate_loop from' (tl to) (replace_char f replacement result)
  end.

(** [l.filter(p)] for a predicate that may throw. *)
Fixpoint filterM {A} (p : A -> res bool) (l : list A) : res (list A) :=
  match l with
  | [] => Ret []
  | x :: l' =>
      b <- p x ;;
      rest <- filterM p l' ;;
      Ret (if b then x :: rest else rest)
  end.

(** The attribute interface of the elements of the tree provider: what
    [el.getAttribute(name)] and [el.hasAttribute(name)] answer for the node
    at a path of a document.  The answers are the provider's own: nothing
    is assumed about what [getAttribute] returns for an attribute that is
    not set ([null] in the DOM standard, which a provider need not follow
    for every name), nor about how the two answers relate. *)
Class Attributes : Type := {
  getAttribute_of : list tree -> Node -> str -> option str;
  hasAttribute_of : list tree -> Node -> str -> bool
}.

Section Pluck.

(** The children of the Document node. *)
Variable doc : list tree.

Context {provider : Attributes}.

(** The provider's [querySelectorAll] on a node; [None] when it rejects
    the selector with an exception. *)
Variable querySelectorAll : Node -> str -> option (list Node).

(** The provider's serialization of a node. *)
Variable outerHTML : Node -> str.
Variable innerHTML : Node -> str.

Definition node_tree (n : Node) : option tree := lookup_from doc n.

(** 9 for the Document, 1, 3 and 8 for elements, text and comments; 0 for
    a path that leads to no node. *)
Definition nodeType (n : Node) : N :=
  match n with
  | [] => 9
  | _ :: _ =>
      match node_tree n with
      | Some (Element _ _ _) => 1
      | Some (Text _) => 3
      | Some (Comment _) => 8
      | None => 0
      end
  end.

Definition child_trees (n : Node) : list tree :=
  match n with
  | [] => doc
  | _ :: _ =>
      match node_tree n with
      | Some t => children_of t
      | None => []
      end
  end.

Definition childNodes (n : Node) : list Node :=
  map (fun i => n ++ [i]) (seq 0 (length (child_trees n))).

Definition parentNode (n : Node) : option Node :=
  match n with
  | [] => None
  | _ :: _ => Some (removelast n)
  end.

Definition getDescendants (n : Node) : list Node :=
  descendants_list n 0 (child_trees n).

(** [null] for the Document. *)
Definition textContent (n : Node) : option str :=
  match node_tree n with
  | Some (Element _ _ cs) => Some (concat_str (map descendant_text cs))
  | Some (Text d) => Some d
  | Some (Comment d) => Some d
  | None => None
  end.

Definition tagName_of (n : Node) : str :=
  match node_tree n with
  | Some (Element tg _ _) => tg
  | _ => []
  end.

(** [(node as Element).getAttribute(name)], [None] for [null], and
    [(node as Element).hasAttribute(name)]. *)
Definition getAttribute (n : Node) (name : str) : option str :=
  getAttribute_of doc n name.

Definition hasAttribute (n : Node) (name : str) : bool :=
  hasAttribute_of doc n name.

Definition querySelector (n : Node) (q : str) : res (option Node) :=
  match querySelectorAll n q with
  | Some l => Ret (hd_error l)
  | None => Throw
  end.

(** [node.textContent?.trim() ?? ""] *)
Definition getNodeText (n : Node) : str :=
  match textContent n with
  | Some t => trim t
  | None => []
  end.

(** *** Axes (getCandidates) *)

(** The parent chain read from the reversed path. *)
Fixpoint ancestors_rev (r : list nat) : list Node :=
  match r with
  | [] => []
  | _ :: q => rev q :: ancestors_rev q
  end.

Definition following_siblings (n : Node) : list Node :=
  match rev n with
  | [] => []
  | i :: q =>
      let p := rev q in
      map (fun j => p ++ [j]) (seq (S i) (length (child_trees p) - S i))
  end.

Definition preceding_siblings (n : Node) : list Node :=
  match rev n with
  | [] => []
  | i :: q =>
      let p := rev q in
      if i <? length (child_trees p)
      then map (fun j => p ++ [j]) (rev (seq 0 i))
      else []
  end.

(** [walk(node)] of the following axis, for [node] with subtree [t]; the
    state is [foundContext] and [results]. *)
Fixpoint walk_following (context node : Node) (t : tree)
    (st : bool * list Node) : bool * list Node :=
  match t with
  | Element _ _ cs =>
      (fix loop (i : nat) (cs : list tree) (st : bool * list Node) :=
         match cs with
         | [] => st
         | c :: cs' =>
             let child := node ++ [i] in
             let '(foundContext, results) := st in
             loop (S i) cs'
               (if foundContext
                then (true, results ++ child :: descendants_tree child c)
                else if node_eqb child context then (true, results)
                else if is_prefix child context
                     then walk_following context child c st
                     else st)
         end) 0 cs st
  | Text _ | Comment _ => st
  end.

(** [walk(node)] of the preceding axis; the boolean is its return value. *)
Fixpoint walk_preceding (context node : Node) (t : tree)
    (results : list Node) : bool * list Node :=
  match t with
  | Element _ _ cs =>
      (fix loop (i : nat) (cs : list tree) (results : list Node) :=
         match cs with
         | [] => (false, results)
         | c :: cs' =>
             let child := node ++ [i] in
             if node_eqb child context then (true, results)
             else if is_prefix child context
                  then
                    let '(found, results') :=
                      walk_preceding context child c results in
                    if found then (true, results')
                    else loop (S i) cs' results'
                  else
                    loop (S i) cs'
                      (results ++ child :: descendants_tree child c)
         end) 0 cs results
  | Text _ | Comment _ => (false, results)
  end.

(** The Document node seen as the container of its children, for the two
    walks that start at [context.ownerDocument || context]. *)
Definition root_tree : tree := Element [] [] doc.

Definition getCandidates (a : Axis) (context : Node) : list Node :=
  match a with
  | ax_child => childNodes context
  | ax_descendant =>
      if N.eqb (nodeType context) 9
      then flat_map (fun child => child :: getDescendants child)
                    (childNodes context)
      else getDescendants context
  | ax_self => [context]
  | ax_parent =>
      match parentNode context with Some p => [p] | None => [] end
  | ax_attribute => if N.eqb (nodeType context) 1 then [context] else []
  | ax_ancestor => ancestors_rev (rev context)
  | ax_following_sibling => following_siblings context
  | ax_preceding_sibling => preceding_siblings context
  | ax_following => snd (walk_following context [] root_tree (false, []))
  | ax_preceding => snd (walk_preceding context [] root_tree [])
  end.

Definition filterByNodeTest (nodes : list Node) (test : NodeTest)
    : list Node :=
  match test with
  | NT_any => filter (fun n => N.eqb (nodeType n) 1) nodes
  | NT_name name =>
      filter (fun n => N.eqb (nodeType n) 1
                       && str_eqb (toLowerCase (tagName_of n))
                                  (toLowerCase name)) nodes
  | NT_text => filter (fun n => N.eqb (nodeType n) 3) nodes
  | NT_node => nodes
  end.

(** *** Predicates (evaluatePredicate, applyPredicates) *)

Definition attr_is (node : Node) (name value : str) : bool :=
  match getAttribute node name with
  | Some v => str_eqb v value
  | None => false
  end.

(** [getAttribute(name) ?? ""] *)
Definition attr_or_empty (node : Node) (name : str) : str :=
  match getAttribute node name with
  | Some v => v
  | None => []
  end.

Fixpoint evaluatePredicate (node : Node) (pred : Predicate)
    (allNodes : list Node) : res bool :=
  match pred with
  | P_position index =>
      Ret (indexOf_node node allNodes 0 =? index - 1)%Z
  | P_attr_exists name =>
      Ret (N.eqb (nodeType node) 1 && hasAttribute node name)
  | P_attr_equals name value =>
      Ret (N.eqb (nodeType node) 1 && attr_is node name value)
  | P_text_equals value => Ret (str_eqb (getNodeText node) value)
  | P_text_contains value => Ret (includes value (getNodeText node))
  | P_attr_contains name value =>
      Ret (N.eqb (nodeType node) 1
           && includes value (attr_or_empty node name))
  | P_attr_starts_with name value =>
      Ret (N.eqb (nodeType node) 1
           && startsWith value (attr_or_empty node name))
  | P_attr_ends_with name value =>
      Ret (N.eqb (nodeType node) 1
           && endsWith value (attr_or_empty node name))
  | P_text_starts_with value => Ret (startsWith value (getNodeText node))
  | P_text_ends_with value => Ret (endsWith value (getNodeText node))
  | P_has_child tagName =>
      if negb (N.eqb (nodeType node) 1) then Ret false
      else
        found <- querySelector node tagName ;;
        Ret (match found with Some _ => true | None => false end)
  | P_not inner =>
      b <- evaluatePredicate node inner allNodes ;; Ret (negb b)
  | P_and lhs rhs =>
      l <- evaluatePredicate node lhs allNodes ;;
      if l then evaluatePredicate node rhs allNodes else Ret false
  | P_or lhs rhs =>
      l <- evaluatePredicate node lhs allNodes ;;
      if l then Ret true else evaluatePredicate node rhs allNodes
  | P_attr_not_equals name value =>
      Ret (N.eqb (nodeType node) 1 && negb (attr_is node name value))
  | P_text_not_equals value =>
      Ret (negb (str_eqb (getNodeText node) value))
  | P_normalize_space_equals value =>
      Ret (str_eqb (normalizeSpace (getNodeText node)) value)
  | P_last =>
      Ret (indexOf_node node allNodes 0
           =? Z.of_nat (length allNodes) - 1)%Z
  | P_position_compare operator value =>
      Ret (compareNumbers (indexOf_node node allNodes 0 + 1) operator
                          value)
  | P_count_compare tagName operator value =>
      if negb (N.eqb (nodeType node) 1) then Ret false
      else
        match querySelectorAll node tagName with
        | Some l =>
            Ret (compareNumbers (Z.of_nat (length l)) operator value)
        | None => Throw
        end
  | P_string_length_compare operator value =>
      Ret (compareNumbers (Z.of_nat (length (getNodeText node))) operator
                          value)
  | P_substring_equals start len value =>
      let text := getNodeText node in
      let start := (start - 1)%Z in
      let sub :=
        match len with
        | Some l => slice text start (Some (start + l)%Z)
        | None => slice text start None
        end in
      Ret (str_eqb sub value)
  | P_substring_before_equals delimiter value =>
      let text := getNodeText node in
      let before :=
        match str_indexOf delimiter text with
        | None => []
        | Some idx => slice text 0 (Some (Z.of_nat idx))
        end in
      Ret (str_eqb before value)
  | P_substring_after_equals delimiter value =>
      let text := getNodeText node in
      let after :=
        match str_indexOf delimiter text with
        | None => []
        | Some idx => slice text (Z.of_nat (idx + length delimiter)) None
        end in
      Ret (str_eqb after value)
  | P_translate_equals from to value =>
      Ret (str_eqb (translate_loop from to (getNodeText node)) value)
  end.

(** [result = result.filter((node) => evaluatePredicate(node, pred,
    result))] for each predicate in turn. *)
Definition applyPredicates (nodes : list Node) (preds : list Predicate)
    : res (list Node) :=
  fold_left
    (fun acc pred =>
       result <- acc ;;
       filterM (fun node => evaluatePredicate node pred result) result)
    preds (Ret nodes).

(** *** Steps and expressions *)

(** The body of the loop of [evaluateStep] for one context. *)
Definition evaluateStep_context (step : Step) (context : XPathResult)
    : res (list XPathResult) :=
  match context with
  | R_string _ => Ret []
  | R_node context =>
      match axis step, nodeTest step with
      | ax_attribute, NT_name name =>
          if N.eqb (nodeType context) 1 then
            match getAttribute context name with
            | Some attr => Ret [R_string attr]
            | None => Ret []
            end
          else Ret []
      | _, _ =>
          let candidates := getCandidates (axis step) context in
          let matched := filterByNodeTest candidates (nodeTest step) in
          filtered <- applyPredicates matched (predicates step) ;;
          Ret (map R_node filtered)
      end
  end.

Definition evaluateStep (step : Step) (contexts : list XPathResult)
    : res (list XPathResult) :=
  fold_left
    (fun acc context =>
       results <- acc ;;
       more <- evaluateStep_context step context ;;
       Ret (results ++ more))
    contexts (Ret []).

(** The diagnostics of the evaluator are not kept: they do not alter the
    result. *)
Definition evaluateSingleXPath (expr : str) (contexts : list Node)
    : res (list XPathResult) :=
  '(steps, _) <- parseXPath expr ;;
  fold_left
    (fun acc step => results <- acc ;; evaluateStep step results)
    steps (Ret (map R_node contexts)).

(** The inner loop of the union branch: strings are always pushed, a node
    only when [seen] does not have it yet. *)
Definition union_push (st : list XPathResult * list Node)
    (result : XPathResult) : list XPathResult * list Node :=
  let '(allResults, seen) := st in
  match result with
  | R_string _ => (allResults ++ [result], seen)
  | R_node n =>
      if existsb (node_eqb n) seen then st
      else (allResults ++ [result], seen ++ [n])
  end.

Definition evaluateXPath (expr : str) (contexts : list Node)
    : res (list XPathResult) :=
  match trim expr with
  | [] => Ret []
  | _ :: _ =>
      let unionParts := splitUnion expr in
      if 1 <? length unionParts then
        st <- fold_left
                (fun acc part =>
                   st <- acc ;;
                   partResults <- evaluateSingleXPath (trim part) contexts ;;
                   Ret (fold_left union_push partResults st))
                unionParts (Ret ([], [])) ;;
        Ret (fst st)
      else evaluateSingleXPath expr contexts
  end.

(** ** Pseudo-elements (pseudo.ts) *)

Inductive Extract : Type := ex_node | ex_text | ex_attr.

Record ParsedSelector : Type := mkParsed {
  query : str;
  extract : Extract;
  attrName : option str
}.

(** The two suffix patterns, a lazy run of [.] followed by the suffix at
    the very end. *)
Definition pseudoTextMatch : re :=
  cat [Grp 1 (plus false (Chr is_dot)); lit "::text"; Eoi].

Definition pseudoAttrMatch : re :=
  cat [Grp 1 (plus false (Chr is_dot)); lit "::attr(";
       Grp 2 (plus true (Chr (fun c => negb (N.eqb c 41)))); lit ")"; Eoi].

Definition parseXPathPseudo (q : str) : ParsedSelector :=
  match re_match pseudoTextMatch q with
  | Some (_, c) => mkParsed (grp 1 c) ex_text None
  | None =>
      match re_match pseudoAttrMatch q with
      | Some (_, c) => mkParsed (grp 1 c) ex_attr (Some (grp 2 c))
      | None => mkParsed q ex_node None
      end
  end.

(** The source repeats the same body under this name. *)
Definition parseCSSPseudo (q : str) : ParsedSelector :=
  match re_match pseudoTextMatch q with
  | Some (_, c) => mkParsed (grp 1 c) ex_text None
  | None =>
      match re_match pseudoAttrMatch q with
      | Some (_, c) => mkParsed (grp 1 c) ex_attr (Some (grp 2 c))
      | None => mkParsed q ex_node None
      end
  end.

(** [node.textContent?.trim() ?? null] *)
Definition trimmed_text (node : Node) : option str :=
  option_map trim (textContent node).

Definition nonempty (s : str) : bool :=
  match s with [] => false | _ :: _ => true end.

Definition extractValue (node : Node) (ex : Extract) (name : option str)
    : option str :=
  let structural :=
    if N.eqb (nodeType node) 1 then Some (outerHTML node)
    else trimmed_text node in
  match ex with
  | ex_text =>
      match trimmed_text node with
      | Some [] => None
      | t => t
      end
  | ex_attr =>
      match name with
      | Some ((_ :: _) as attrName) =>
          if N.eqb (nodeType node) 1 then getAttribute node attrName
          else None
      | _ => structural
      end
  | ex_node => structural
  end.

(** [l.map(extractValue).filter(v => v !== null)] *)
Definition extract_all (nodes : list Node) (parsed : ParsedSelector)
    : list str :=
  flat_map
    (fun n =>
       match extractValue n (extract parsed) (attrName parsed) with
       | Some v => [v]
       | None => []
       end)
    nodes.

(** ** The Selector (selector.ts)

    [NodeSelector] is the base class with its node list; [TextSelector] is
    the subclass that holds strings and passes an empty node list to the
    base constructor.  Attr objects never enter a Selector through the
    pipeline (the attribute axis yields strings), so the node list holds
    tree nodes only. *)

Inductive Selector : Type :=
| NodeSelector (nodes : list Node) (selector : str)
| TextSelector (values : list str) (selector : str).

(** The private node list of the base class. *)
Definition base_nodes (s : Selector) : list Node :=
  match s with
  | NodeSelector nodes _ => nodes
  | TextSelector _ _ => []
  end.

Definition selector_of (s : Selector) : str :=
  match s with
  | NodeSelector _ q => q
  | TextSelector _ q => q
  end.

Definition ok (s : Selector) : bool :=
  match s with
  | NodeSelector nodes _ => 0 <? length nodes
  | TextSelector values _ => 0 <? length values
  end.

Definition count (s : Selector) : nat :=
  match s with
  | NodeSelector nodes _ => length nodes
  | TextSelector values _ => length values
  end.

(** What [getall] maps a node to, before the empty strings are dropped. *)
Definition node_value (node : Node) : str :=
  if N.eqb (nodeType node) 3 then getNodeText node
  else if N.eqb (nodeType node) 1 then outerHTML node
  else getNodeText node.

Definition getall (s : Selector) : list str :=
  match s with
  | NodeSelector nodes _ => filter nonempty (map node_value nodes)
  | TextSelector values _ => values
  end.

(** [get(defaultValue?)]: [None] is [null], and an absent default. *)
Definition get (s : Selector) (defaultValue : option str) : option str :=
  match s with
  | NodeSelector _ _ =>
      match getall s with
      | [] => defaultValue
      | v :: _ => Some v
      end
  | TextSelector values _ =>
      match values with
      | [] => defaultValue
      | v :: _ => Some v
      end
  end.

(** *** xpath *)

(** [splitXPathUnion], which selector.ts imports from the xpath module but
    whose definition is not in the sources: how a query is cut into union
    parts is left open here. *)
Variable splitXPathUnion : str -> list str.

Inductive PartResult : Type :=
| PR_strings (values : list str)
| PR_nodes (nodes : list Node).

Definition strings_of (l : list XPathResult) : list str :=
  flat_map (fun r => match r with R_string s => [s] | R_node _ => [] end) l.

Definition nodes_of (l : list XPathResult) : list Node :=
  flat_map (fun r => match r with R_node n => [n] | R_string _ => [] end) l.

(** The part of [#evaluateSingleXPath] after the evaluation. *)
Definition pack_results (parsed : ParsedSelector)
    (xpathResults : list XPathResult) : PartResult :=
  let stringResults := strings_of xpathResults in
  let nodeResults := nodes_of xpathResults in
  if 0 <? length stringResults then PR_strings stringResults
  else
    match extract parsed with
    | ex_text | ex_attr => PR_strings (extract_all nodeResults parsed)
    | ex_node => PR_nodes nodeResults
    end.

(** The private [#evaluateSingleXPath]; [None] is its [null], returned
    when the evaluation threw. *)
Definition Selector_evaluateSingleXPath (this : Selector) (q : str)
    : res (option PartResult) :=
  let parsed := parseXPathPseudo q in
  match evaluateXPath (query parsed) (base_nodes this) with
  | Ret xpathResults => Ret (Some (pack_results parsed xpathResults))
  | Throw => Ret None
  | Timeout => Timeout
  end.

Definition push_unseen (st : list Node * list Node) (node : Node)
    : list Node * list Node :=
  let '(allNodes, seenNodes) := st in
  if existsb (node_eqb node) seenNodes then st
  else (allNodes ++ [node], seenNodes ++ [node]).

(** The loop over the union parts; [None] when a part evaluated to
    [null] and the method returned early. *)
Fixpoint xpath_union_loop (this : Selector) (unionParts : list str)
    (allStrings : list str) (st : list Node * list Node)
    : res (option (list str * list Node)) :=
  match unionParts with
  | [] => Ret (Some (allStrings, fst st))
  | part :: rest =>
      partResult <- Selector_evaluateSingleXPath this (trim part) ;;
      match partResult with
      | None => Ret None
      | Some (PR_strings values) =>
          xpath_union_loop this rest (allStrings ++ values) st
      | Some (PR_nodes nodes) =>
          xpath_union_loop this rest allStrings
                           (fold_left push_unseen nodes st)
      end
  end.

Definition xpath (this : Selector) (q : str) : res Selector :=
  let unionParts := splitXPathUnion q in
  if 1 <? length unionParts then
    r <- xpath_union_loop this unionParts [] ([], []) ;;
    match r with
    | None => Ret (NodeSelector [] q)
    | Some (allStrings, allNodes) =>
        if 0 <? length allStrings then Ret (TextSelector allStrings q)
        else Ret (NodeSelector allNodes q)
    end
  else
    result <- Selector_evaluateSingleXPath this q ;;
    match result with
    | None => Ret (NodeSelector [] q)
    | Some (PR_strings values) => Ret (TextSelector values q)
    | Some (PR_nodes nodes) => Ret (NodeSelector nodes q)
    end.

(** *** css and the other operations *)

Definition css (this : Selector) (q : str) : Selector :=
  let parsed := parseCSSPseudo q in
  let results :=
    flat_map
      (fun node =>
         if N.eqb (nodeType node) 1 || N.eqb (nodeType node) 9 then
           match querySelectorAll node (query parsed) with
           | Some matches => matches
           | None => []
           end
         else [])
      (base_nodes this) in
  match extract parsed with
  | ex_text | ex_attr => TextSelector (extract_all results parsed) q
  | ex_node => NodeSelector results q
  end.

Definition or_ (this fallback : Selector) : Selector :=
  if ok this then this else fallback.

Definition first (this : Selector) : Selector :=
  match this with
  | NodeSelector nodes q =>
      match nodes with
      | [] => NodeSelector [] q
      | n :: _ => NodeSelector [n] q
      end
  | TextSelector values q =>
      match values with
      | [] => TextSelector [] q
      | v :: _ => TextSelector [v] q
      end
  end.

Definition last (this : Selector) : Selector :=
  match this with
  | NodeSelector nodes q =>
      match nodes with
      | [] => NodeSelector [] q
      | _ :: _ =>
          match nth_error nodes (length nodes - 1) with
          | Some n => NodeSelector [n] q
          | None => NodeSelector [] q
          end
      end
  | TextSelector values q =>
      match values with
      | [] => TextSelector [] q
      | _ :: _ =>
          match nth_error values (length values - 1) with
          | Some v => TextSelector [v] q
          | None => TextSelector [] q
          end
      end
  end.

(** [l[index]] for an integral index. *)
Definition at_index {A} (l : list A) (index : Z) : option A :=
  if (index <? 0)%Z then None else nth_error l (Z.to_nat index).

Definition eq_ (this : Selector) (index : Z) : Selector :=
  match this with
  | NodeSelector nodes q =>
      match at_index nodes index with
      | Some n => NodeSelector [n] q
      | None => NodeSelector [] q
      end
  | TextSelector values q =>
      match at_index values index with
      | Some v => TextSelector [v] q
      | None => TextSelector [] q
      end
  end.

Definition toArray (this : Selector) : list Selector :=
  match this with
  | NodeSelector nodes q => map (fun n => NodeSelector [n] q) nodes
  | TextSelector values q => map (fun v => TextSelector [v] q) values
  end.

Definition text (this : Selector) : str :=
  match this with
  | NodeSelector nodes _ =>
      join (js " ") (filter nonempty (map getNodeText nodes))
  | TextSelector values _ => join (js " ") values
  end.

Definition attr (this : Selector) (name : str) : option str :=
  match base_nodes this with
  | node :: _ =>
      if N.eqb (nodeType node) 1 then getAttribute node name else None
  | [] => None
  end.





(** The root Selector that the entry point builds around the Document. *)
Definition pluck : Selector := NodeSelector [[]] [].

(** The Selectors that the public operations produce: the constructor and
    the queries and projections that return a Selector. *)
Inductive reachable : Selector -> Prop :=
| reach_construct nodes q : reachable (NodeSelector nodes q)
| reach_css s q : reachable s -> reachable (css s q)
| reach_xpath s q s' :
    reachable s -> xpath s q = Ret s' -> reachable s'
| reach_first s : reachable s -> reachable (first s)
| reach_last s : reachable s -> reachable (last s)
| reach_eq s index : reachable s -> reachable (eq_ s index)
| reach_or s fallback :
    reachable s -> reachable fallback -> reachable (or_ s fallback)
| reach_toArray s s' :
    reachable s -> In s' (toArray s) -> reachable s'.

(** *** Reference semantics used to state the properties *)

(** The nodes of [l] whose 1-based position, counted from [i], satisfies
    [keep]. *)
Fixpoint select_positions (keep : Z -> bool) (i : Z) (l : list Node)
    : list Node :=
  match l with
  | [] => []
  | x :: l' =>
      if keep i then x :: select_positions keep (i + 1)%Z l'
      else select_positions keep (i + 1)%Z l'
  end.

(** The predicates of a step as the spec words them: ANDed, each one
    evaluated against the node-test-filtered candidate list. *)
Fixpoint spec_all_hold (node : Node) (preds : list Predicate)
    (candidates : list Node) : res bool :=
  match preds with
  | [] => Ret true
  | p :: ps =>
      b <- evaluatePredicate node p candidates ;;
      if b then spec_all_hold node ps candidates else Ret false
  end.

Definition spec_applyPredicates (nodes : list Node)
    (preds : list Predicate) : res (list Node) :=
  filterM (fun node => spec_all_hold node preds nodes) nodes.

(** The first occurrence of every node, in order. *)
Fixpoint first_occurrences (l : list Node) : list Node :=
  match l with
  | [] => []
  | x :: l' =>
      x :: filter (fun y => negb (node_eqb x y)) (first_occurrences l')
  end.

Definition part_strings (r : PartResult) : list str :=
  match r with PR_strings values => values | PR_nodes _ => [] end.

Definition part_nodes (r : PartResult) : list Node :=
  match r with PR_nodes nodes => nodes | PR_strings _ => [] end.

(** ** Regular-expression projection (regex.ts)

    The pattern engine is external.  What the code uses of it is the
    constructor and the search for the first match at or after a position,
    on which both [exec] with the global flag and [String.prototype.match]
    are built.  A RegExp object handed in by the caller is taken with its
    [lastIndex] at 0. *)

Record RegExp : Type := mkRegExp {
  source : str;
  flags : str
}.

Record RegExpMatch : Type := mkMatch {
  index : nat;
  match0 : str;
  captures : list (option str)
}.

(** [new RegExp(source, flags)]; it throws on a malformed pattern. *)
Variable RegExp_new : str -> str -> res RegExp.

(** The first match at or after the given position, [None] when there is
    none; [captures] are [match[1]], [match[2]], ... with [None] for a
    group that took no part. *)
Variable search : RegExp -> str -> nat -> option RegExpMatch.

Definition defined (l : list (option str)) : list str :=
  flat_map (fun g => match g with Some v => [v] | None => [] end) l.

(** [while ((match = globalRegex.exec(text)) !== null)]: [exec] leaves
    [lastIndex] at the end of the match.  The length of [results] has no
    limit here: a run that does not end by itself and pushes values on
    every turn exhausts every budget, where the source ends with an
    exception once the array is full. *)
Fixpoint exec_loop (fuel : nat) (globalRegex : RegExp) (text : str)
    (lastIndex : nat) (results : list str) : res (list str) :=
  match fuel with
  | 0 => Timeout
  | S n =>
      match search globalRegex text lastIndex with
      | None => Ret results
      | Some m =>
          exec_loop n globalRegex text (index m + length (match0 m))
                    (results ++ defined (captures m))
      end
  end.

(** [text.match(globalRegex)] with the global flag: every match, stepping
    over an empty one. *)
Fixpoint match_all (fuel : nat) (globalRegex : RegExp) (text : str)
    (lastIndex : nat) (matches : list str) : res (list str) :=
  match fuel with
  | 0 => Timeout
  | S n =>
      match search globalRegex text lastIndex with
      | None => Ret matches
      | Some m =>
          let e := index m + length (match0 m) in
          match_all n globalRegex text
                    (if length (match0 m) =? 0 then S e else e)
                    (matches ++ [match0 m])
      end
  end.

Definition extractRegex (pattern : RegExp + str) (text : str)
    : res (list str) :=
  regex <- match pattern with
           | inr p => RegExp_new p (js "g")
           | inl r => Ret r
           end ;;
  let isGlobal := includes (js "g") (flags regex) in
  globalRegex <- (if isGlobal then Ret regex
                  else RegExp_new (source regex) (flags regex ++ js "g")) ;;
  let hasGroups :=
    includes (js "(") (source regex)
    && negb (startsWith (js "(?:") (source regex)) in
  if hasGroups then exec_loop (length text + 2) globalRegex text 0 []
  else match_all (length text + 2) globalRegex text 0 [].

Record MappedSelector (T : Type) : Type := mkMapped {
  mapped_values : list T;
  mapped_ok : bool
}.

(** [values.flatMap((v) => extractRegex(pattern, v))] *)
Fixpoint flatMapM {A B} (f : A -> res (list B)) (l : list A)
    : res (list B) :=
  match l with
  | [] => Ret []
  | x :: l' =>
      ys <- f x ;;
      rest <- flatMapM f l' ;;
      Ret (ys ++ rest)
  end.

Definition re_ (this : Selector) (pattern : RegExp + str)
    : res (MappedSelector str) :=
  results <- flatMapM (extractRegex pattern) (getall this) ;;
  Ret (mkMapped results (0 <? length results)).

(** *** Projections (map, re_first, result) *)

(** [get] and [getall] of a mapped result. *)
Definition mapped_get {T} (m : MappedSelector T) (defaultValue : option T)
    : option T :=
  match mapped_values m with
  | [] => defaultValue
  | v :: _ => Some v
  end.

Definition mapped_getall {T} (m : MappedSelector T) : list T :=
  mapped_values m.

(** [map], with the override of the subclass that holds strings. *)
Definition map_ {T} (this : Selector) (fn : str -> T) : MappedSelector T :=
  match this with
  | NodeSelector _ _ => mkMapped (map fn (getall this)) (ok this)
  | TextSelector values _ => mkMapped (map fn values) (ok this)
  end.

(** [this.re(pattern).get() ?? defaultValue ?? null] *)
Definition re_first (this : Selector) (pattern : RegExp + str)
    (defaultValue : option str) : res (option str) :=
  m <- re_ this pattern ;;
  Ret (match mapped_get m None with
       | Some v => Some v
       | None => defaultValue
       end).

(** The discriminated union that [result] returns. *)
Inductive SelectResult : Type :=
| SR_ok (value : str) (count : nat)
| SR_fail (selector : str).

Definition result (this : Selector) : SelectResult :=
  if ok this
  then SR_ok (match get this None with Some v => v | None => [] end)
             (count this)
  else SR_fail (selector_of this).

End Pluck.

(** ** A reference tree provider

    A small stand-in for the external tree provider, used to run the model
    on concrete documents: markup serialization without escaping, selector
    matching for type selectors only (any other selector is rejected), and
    attributes read from the attribute list of the element. *)

(** An attribute that is not set reads as [null], except [class], for
    which the provider of the program answers the empty string. *)
Definition ref_getAttribute (doc : list tree) (n : Node) (name : str)
    : option str :=
  match node_tree doc n with
  | Some (Element _ attrs _) =>
      match assoc name attrs with
      | Some v => Some v
      | None => if str_eqb name (js "class") then Some [] else None
      end
  | _ => None
  end.

Definition ref_hasAttribute (doc : list tree) (n : Node) (name : str)
    : bool :=
  match node_tree doc n with
  | Some (Element _ attrs _) =>
      match assoc name attrs with Some _ => true | None => false end
  | _ => false
  end.

Definition ref_attributes : Attributes :=
  {| getAttribute_of := ref_getAttribute;
     hasAttribute_of := ref_hasAttribute |}.

Fixpoint serialize (t : tree) : str :=
  match t with
  | Element tg attrs cs =>
      js "<" ++ tg
        ++ flat_map (fun '(k, v) => js " " ++ k ++ js "='" ++ v ++ js "'")
                    attrs
        ++ js ">" ++ concat_str (map serialize cs)
        ++ js "</" ++ tg ++ js ">"
  | Text d => d
  | Comment d => js "<!--" ++ d ++ js "-->"
  end.

Definition ref_outerHTML (doc : list tree) (n : Node) : str :=
  match node_tree doc n with
  | Some t => serialize t
  | None => []
  end.


Definition is_type_selector (q : str) : bool :=
  match q with
  | c :: _ => (in_range 65 90 c || in_range 97 122 c) && forallb is_name_char q
  | [] => false
  end.

Definition ref_querySelectorAll (doc : list tree) (n : Node) (q : str)
    : option (list Node) :=
  if is_type_selector q
  then Some (filterByNodeTest doc (getDescendants doc n) (NT_name q))
  else None.

Definition el (tg : string) (attrs : list (string * string))
    (cs : list tree) : tree :=
  Element (js tg) (map (fun '(k, v) => (js k, js v)) attrs) cs.

Definition txt (d : string) : tree := Text (js d).

(** Modelled from the spec: [splitXPathUnion], imported by selector.ts but
    not defined in the sources.  The spec has the union operator split the
    whole expression at top level (bracket and quote depth 0), which is what
    the evaluator's own [splitUnion] does. *)
Definition ref_splitXPathUnion (q : str) : list str := splitUnion q.

(** The operations of the model over the reference provider. *)
Definition ref_xpath (doc : list tree) (s : Selector) (q : string)
    : res Selector :=
  xpath (provider := ref_attributes) doc (ref_querySelectorAll doc)
        (ref_outerHTML doc) ref_splitXPathUnion s (js q).

Definition ref_css (doc : list tree) (s : Selector) (q : string) : Selector :=
  css (provider := ref_attributes) doc (ref_querySelectorAll doc)
      (ref_outerHTML doc) s (js q).

Definition ref_getall (doc : list tree) (s : Selector) : list str :=
  getall doc (ref_outerHTML doc) s.

Definition ref_get (doc : list tree) (s : Selector) (d : option str)
    : option str :=
  get doc (ref_outerHTML doc) s d.

(** Documents of the examples. *)

(** [<ul><li>A</li><li>B</li><li>C</li><li>D</li></ul>] *)
Definition doc_list : list tree :=
  [el "ul" [] [el "li" [] [txt "A"]; el "li" [] [txt "B"];
               el "li" [] [txt "C"]; el "li" [] [txt "D"]]].

Definition li (i : nat) : Node := [0; i].

(** An article with a heading and a paragraph that holds only white space. *)
Definition doc_article : list tree :=
  [el "article" []
      [el "h1" [] [txt "Title"]; el "h2" [] [txt "Subtitle"];
       el "p" [] [txt "  "]]].

(** [<div>x</div>] *)
Definition doc_div : list tree := [el "div" [] [txt "x"]].

(** Two anchors: the first has an [href] and no [name] attribute, the
    second has an empty [name]. *)
Definition doc_anchors : list tree :=
  [el "a" [("href"%string, "/x"%string)] [txt "t"];
   el "a" [("name"%string, ""%string)] [txt "u"]].

(** A search for the first match of a pattern of [re] at or after a
    position, reporting the listed groups: the shape of the engine primitive
    that [extractRegex] is written against. *)
Fixpoint search_in (r : re) (groups : list nat) (s : str) (pos : nat)
    : option RegExpMatch :=
  match run r s [] with
  | (rest, c) :: _ =>
      Some (mkMatch pos (firstn (length s - length rest) s)
                    (map (fun i => group i c) groups))
  | [] =>
      match s with
      | [] => None
      | _ :: s' => search_in r groups s' (S pos)
      end
  end.

Definition search_re (r : re) (groups : list nat) (text : str) (from : nat)
    : option RegExpMatch :=
  if length text <? from then None
  else search_in r groups (skipn from text) from.

(** An engine that knows one pattern: digits followed by the non-capturing
    group [(?:px)]. *)
Definition px_source : str := js "\d+(?:px)".

Definition px_search (r : RegExp) (text : str) (from : nat)
    : option RegExpMatch :=
  search_re (cat [digits; lit "px"]) [] text from.

Definition px_new (source flags : str) : res RegExp :=
  Ret (mkRegExp source flags).

(** ** Notions used to state and prove the properties *)

(** Bounds on what the matcher returns. *)
Definition caps_le (n : nat) (c : caps) : Prop :=
  forall i v, group i c = Some v -> length v <= n.

Definition bounded_step (n : nat)
    (step : str -> caps -> list (str * caps)) : Prop :=
  forall s c s' c',
    length s <= n -> caps_le n c -> In (s', c') (step s c) ->
    length s' <= length s /\ caps_le n c'.

(** Total length of the parts and the weight of a splitting state. *)
Definition sumlen (l : list str) : nat := list_sum (map (@length char) l).

Definition weight (operator : str) (st : SplitState) : nat :=
  sumlen (parts st) + length operator * length (parts st)
  + length (current st).

(** [rest] is what is left of [s] after dropping a prefix. *)
Definition suffix_of (rest s : str) : Prop := exists k, rest = skipn k s.

(** What the loop of [parseXPath] logs: nothing, or one warning about a
    non-empty tail on which [parseStep] makes no progress. *)
Definition tail_dropped (expr start : str) (log : list LogEntry) : Prop :=
  log = []
  \/ exists tail step,
       tail <> [] /\ suffix_of tail start
       /\ parseStep tail = Ret (step, tail)
       /\ log = [warn_unparseable tail expr].

(** The run of the loop of [parseXPath] over [remaining]: the steps that
    [parseStep] yields one after the other as long as it consumes input,
    and where it stops, which is at the end of the input ([tail] empty) or
    at the first tail that [parseStep] hands back as it got it. *)
Inductive parse_run : str -> list Step -> str -> Prop :=
| run_end : parse_run [] [] []
| run_stuck (tail : str) (step : option Step) :
    tail <> [] ->
    parseStep tail = Ret (step, tail) ->
    parse_run tail (push [] step) tail
| run_step (remaining rest tail : str) (step : option Step)
    (steps : list Step) :
    remaining <> [] ->
    parseStep remaining = Ret (step, rest) ->
    rest <> remaining ->
    parse_run rest steps tail ->
    parse_run remaining (push [] step ++ steps) tail.

(** What the logger has received after a run that stopped at [tail]: the
    warning of [parseXPath] with the first 50 code units of the tail and the
    whole expression, or nothing when the input was consumed. *)
Definition run_log (expr tail : str) : list LogEntry :=
  match tail with
  | [] => []
  | _ :: _ =>
      [mkLog lvl_warn "unparseable xpath segment"
             [("segment"%string, firstn 50 tail);
              ("expression"%string, expr)]]
  end.

(** A computation that returns or throws. *)
Definition halts {A} (m : res A) : Prop := m <> Timeout.

(** What the state of the union loop of [evaluateXPath] holds after the
    results [seen_so_far] have been pushed. *)
Definition union_state (st : list XPathResult * list Node)
    (seen_so_far : list XPathResult) : Prop :=
  snd st = first_occurrences (nodes_of seen_so_far)
  /\ nodes_of (fst st) = first_occurrences (nodes_of seen_so_far)
  /\ strings_of (fst st) = strings_of seen_so_far.


(** [a] can be read off [b] by dropping elements. *)
Inductive subseq {A : Type} : list A -> list A -> Prop :=
| subseq_nil : subseq [] []
| subseq_skip x a b : subseq a b -> subseq a (x :: b)
| subseq_keep x a b : subseq a b -> subseq (x :: a) (x :: b).

(** The strict descendants of a node have paths that extend its own. *)
Definition extends_paths (t : tree) : Prop :=
  forall n x, In x (descendants_tree n t) -> exists j r, x = n ++ j :: r.

Definition distinct_descendants (t : tree) : Prop :=
  forall n, NoDup (descendants_tree n t).

(** The loops of the two document-order walks over the children [cs] of
    [node], numbered from [i], as functions of their own. *)
Fixpoint following_loop (context node : Node) (i : nat) (cs : list tree)
    (st : bool * list Node) : bool * list Node :=
  match cs with
  | [] => st
  | c :: cs' =>
      let child := node ++ [i] in
      let '(foundContext, results) := st in
      following_loop context node (S i) cs'
        (if foundContext
         then (true, results ++ child :: descendants_tree child c)
         else if node_eqb child context then (true, results)
         else if is_prefix child context
              then walk_following context child c st
              else st)
  end.

Fixpoint preceding_loop (context node : Node) (i : nat) (cs : list tree)
    (results : list Node) : bool * list Node :=
  match cs with
  | [] => (false, results)
  | c :: cs' =>
      let child := node ++ [i] in
      if node_eqb child context then (true, results)
      else if is_prefix child context
           then
             let '(found, results') :=
               walk_preceding context child c results in
             if found then (true, results')
             else preceding_loop context node (S i) cs' results'
           else
             preceding_loop context node (S i) cs'
               (results ++ child :: descendants_tree child c)
  end.

(** A walk only adds nodes, in document order. *)
Definition following_adds (context : Node) (t : tree) : Prop :=
  forall node st,
    exists extra,
      snd (walk_following context node t st) = snd st ++ extra
      /\ subseq extra (descendants_tree node t).

Definition preceding_adds (context : Node) (t : tree) : Prop :=
  forall node results,
    exists extra,
      snd (walk_preceding context node t results) = results ++ extra
      /\ subseq extra (descendants_tree node t).

(** The elements with a given tag name below the Document, in document
    order: what [//name] selects from the root. *)
Definition elements_named (doc : list tree) (name : str) : list Node :=
  filterByNodeTest doc (getCandidates doc ax_descendant []) (NT_name name).

(** [m'] returns whatever [m] returns. *)
Definition le_res {A} (m m' : res A) : Prop :=
  forall a, m = Ret a -> m' = Ret a.

(** The document of the tests of the following and preceding axes. *)
Definition doc_paragraphs : list tree :=
  [el "div" []
      [el "p" [("id"%string, "first"%string)] [txt "First paragraph"];
       el "p" [("id"%string, "second"%string)] [txt "Second paragraph"];
       el "span" [("id"%string, "middle"%string)] [txt "Middle span"];
       el "p" [("id"%string, "third"%string)] [txt "Third paragraph"];
       el "p" [("id"%string, "fourth"%string)] [txt "Fourth paragraph"]]].

(** The list items of the tests of the string functions. *)
Definition doc_strings : list tree :=
  [el "ul" []
      [el "li" [] [txt "foo-bar-baz"]; el "li" [] [txt "hello-world"];
       el "li" [] [txt "ABC123"]; el "li" [] [txt "  spaced   out  "]]].

Definition ref_values (doc : list tree) (q : string) : res (list str) :=
  s <- ref_xpath doc pluck q ;; Ret (ref_getall doc s).

(** ** Notions used to state further properties *)

(** A predicate that does not read the position of the node in the list
    being filtered. *)
Fixpoint position_free (p : Predicate) : bool :=
  match p with
  | P_position _ | P_last | P_position_compare _ _ => false
  | P_not inner => position_free inner
  | P_and lhs rhs | P_or lhs rhs => position_free lhs && position_free rhs
  | _ => true
  end.

(** Every node below the Document, in document order. *)
Definition document_order (doc : list tree) : list Node :=
  descendants_list [] 0 doc.

(** [a] is a proper ancestor of [b]: its path is a proper prefix. *)
Definition strict_prefix (a b : Node) : bool :=
  is_prefix a b && negb (node_eqb a b).

(** What comes after, and before, the first occurrence of [x] in [l]; when
    [x] does not occur, nothing comes after it and everything before. *)
Fixpoint after_node (x : Node) (l : list Node) : list Node :=
  match l with
  | [] => []
  | y :: l' => if node_eqb y x then l' else after_node x l'
  end.

Fixpoint before_node (x : Node) (l : list Node) : list Node :=
  match l with
  | [] => []
  | y :: l' => if node_eqb y x then [] else y :: before_node x l'
  end.

(** The children found by following a path from a list of trees. *)
Fixpoint sub_children (cs : list tree) (p : list nat) : list tree :=
  match p with
  | [] => cs
  | j :: p' =>
      match nth_error cs j with
      | Some t => sub_children (children_of t) p'
      | None => []
      end
  end.

(** The nodes of [l] after [context] that it does not contain, and the
    nodes before it that do not contain it. *)
Definition following_of (context : Node) (l : list Node) : list Node :=
  filter (fun x => negb (is_prefix context x)) (after_node context l).

Definition preceding_of (context : Node) (l : list Node) : list Node :=
  filter (fun x => negb (is_prefix x context)) (before_node context l).

(** What the two document-order walks compute on the subtree [t] of
    [node]: the flag tells whether the context is below [node]. *)
Definition following_exact (context : Node) (t : tree) : Prop :=
  forall node results,
    exists found,
      walk_following context node t (false, results)
      = (found, results ++ following_of context (descendants_tree node t))
      /\ (found = true <-> In context (descendants_tree node t)).

Definition preceding_exact (context : Node) (t : tree) : Prop :=
  forall node results,
    exists found,
      walk_preceding context node t results
      = (found, results ++ preceding_of context (descendants_tree node t))
      /\ (found = true <-> In context (descendants_tree node t)).

(** The input stops a run of the class [p]: it is at its end or at a
    character outside the class. *)
Definition stops (p : char -> bool) (b : str) : Prop :=
  match b with
  | [] => True
  | y :: _ => p y = false
  end.

(** Characters that the splitting loops copy without a change of state:
    neither a quote nor a bracket. *)
Definition plain_char (c : char) : bool :=
  negb (is_quote c) && negb (is_open c) && negb (is_close c).

(** Characters that [findMatchingBracket] steps over without a change of
    state: neither a quote nor a square bracket. *)
Definition bracket_free (c : char) : bool :=
  negb (is_quote c) && negb (N.eqb c 91) && negb (N.eqb c 93).

(** A location path of name tests written out: every step is a path
    marker, [//] when the flag is set and [/] otherwise, followed by a
    name. *)
Definition is_name (name : str) : bool :=
  nonempty name && forallb is_name_char name.

Definition name_step (st : bool * str) : Step :=
  mkStep (if fst st then ax_descendant else ax_child) (NT_name (snd st)) [].

Definition print_name_step (st : bool * str) : str :=
  (if fst st then js "//" else js "/") ++ snd st.

Definition print_name_path (l : list (bool * str)) : str :=
  concat_str (map print_name_step l).

(** The characters of a printed name path: name characters and the
    slash. *)
Definition path_char (c : char) : bool := is_name_char c || N.eqb c 47.

(** Two engines that each know one pattern, for the examples of the
    regular-expression projection: an optional letter a inside a capturing
    group, which matches the empty string without the group taking part
    where there is no a, and a run of digits, which has no group. *)
Definition aopt_source : str := js "(a)?".

Definition aopt_search (r : RegExp) (text : str) (from : nat)
    : option RegExpMatch :=
  search_re (Alt (Grp 1 (Chr (N.eqb 97))) Eps) [1] text from.

Definition num_source : str := js "\d+".

Definition num_search (r : RegExp) (text : str) (from : nat)
    : option RegExpMatch :=
  search_re digits [] text from.

(** The elements of the document whose tag name is [name] up to ASCII
    case, in document order, and the answers of [getAttribute] for [a] on
    a list of nodes, the null ones left out. *)
Definition named_elements (doc : list tree) (name : str) : list Node :=
  filter (fun n => N.eqb (nodeType doc n) 1
                   && str_eqb (toLowerCase (tagName_of doc n))
                              (toLowerCase name))
         (document_order doc).

Definition attribute_values {provider : Attributes} (doc : list tree)
    (a : str) (nodes : list Node) : list str :=
  flat_map (fun n => match getAttribute doc n a with
                     | Some v => [v]
                     | None => []
                     end) nodes.
(** * Properties *)

Unset Implicit Arguments.

(** ** Strings *)

Lemma str_eqb_spec (a b : str) : str_eqb a b = true <-> a = b.
Proof.
  revert b; induction a as [|x a IH]; intros [|y b]; simpl; split;
    try congruence; try reflexivity.
  - intros H. apply andb_true_iff in H as [Hx Hs].
    apply N.eqb_eq in Hx. apply IH in Hs. congruence.
  - intros H. injection H as -> ->.
    rewrite N.eqb_refl. simpl. apply IH. reflexivity.
Qed.

Lemma str_eqb_refl (a : str) : str_eqb a a = true.
Proof. apply str_eqb_spec. reflexivity. Qed.

Lemma str_eqb_neq (a b : str) : str_eqb a b = false <-> a <> b.
Proof.
  split.
  - intros H E. apply str_eqb_spec in E. congruence.
  - intros H. destruct (str_eqb a b) eqn:E; [|reflexivity].
    apply str_eqb_spec in E. contradiction.
Qed.

Lemma length_trimStart (s : str) : length (trimStart s) <= length s.
Proof.
  induction s as [|c s IH]; simpl; [lia|].
  destruct (is_space c); simpl; lia.
Qed.

Lemma length_trim (s : str) : length (trim s) <= length s.
Proof.
  unfold trim, trimEnd. rewrite length_rev.
  etransitivity; [apply length_trimStart|].
  rewrite length_rev. apply length_trimStart.
Qed.

(** Sanity checks of the matcher on the shapes the sources use. *)

Example re_match_name :
  re_match (Seq (lit "@") (Grp 1 name_re)) (js "@href='x'")
  = Some (5, [(1, js "href")]).
Proof. vm_compute. reflexivity. Qed.

Example re_match_cmp_backtracks :
  option_map (fun '(n, c) => (n, grp 1 c, grp 2 c))
    (re_match (cat [lit "position()"; ws; cmp4 1; ws; Grp 2 digits])
              (js "position() <= 12 "))
  = Some (16, js "<=", js "12").
Proof. vm_compute. reflexivity. Qed.

Example re_match_lazy :
  option_map (fun '(n, c) => grp 1 c)
    (re_match (cat [Grp 1 (plus false (Chr is_dot)); lit "::text"; Eoi])
              (js "//a::text::text"))
  = Some (js "//a::text").
Proof. vm_compute. reflexivity. Qed.

(** ** The matcher never reads past its input

    Every way to match leaves a remainder no longer than the input, and
    every capture is no longer than the input either. *)

Lemma caps_le_nil (n : nat) : caps_le n [].
Proof. intros i v H. discriminate. Qed.

Lemma caps_le_cons (n i : nat) (v : str) (c : caps) :
  length v <= n -> caps_le n c -> caps_le n ((i, v) :: c).
Proof.
  intros Hv Hc j w. simpl. destruct (Nat.eqb j i).
  - intros [= <-]. exact Hv.
  - apply Hc.
Qed.

Lemma star_runs_bounded (n : nat) (g : bool)
    (step : str -> caps -> list (str * caps)) (fuel : nat) :
  bounded_step n step -> bounded_step n (star_runs g step fuel).
Proof.
  intros Hstep. induction fuel as [|fuel IH]; intros s c s' c' Hs Hc Hin.
  - simpl in Hin. destruct Hin as [[= <- <-]|[]]. split; [lia|assumption].
  - simpl in Hin.
    assert (Hmore :
      In (s', c')
         (flat_map (fun '(s1, c1) =>
                      if length s1 <? length s
                      then star_runs g step fuel s1 c1 else [])
                   (step s c)) ->
      length s' <= length s /\ caps_le n c').
    { intros H. apply in_flat_map in H as [[s1 c1] [H1 H2]].
      destruct (Hstep _ _ _ _ Hs Hc H1) as [L1 C1].
      destruct (length s1 <? length s); [|destruct H2].
      destruct (IH s1 c1 s' c') as [L2 C2]; try assumption; try lia.
      split; [lia|assumption]. }
    destruct g.
    + apply in_app_or in Hin as [H|[[= <- <-]|[]]]; auto.
    + destruct Hin as [[= <- <-]|H]; auto.
Qed.

Lemma run_bounded (n : nat) (r : re) : bounded_step n (run r).
Proof.
  induction r as [|p|a IHa b IHb|a IHa b IHb|g a IHa|i a IHa|];
    intros s c s' c' Hs Hc Hin; simpl in Hin.
  - destruct Hin as [[= <- <-]|[]]. auto.
  - destruct s as [|x s]; [destruct Hin|].
    destruct (p x); [|destruct Hin].
    destruct Hin as [[= <- <-]|[]]. simpl. split; [lia|assumption].
  - apply in_flat_map in Hin as [[s1 c1] [H1 H2]].
    destruct (IHa _ _ _ _ Hs Hc H1) as [L1 C1].
    destruct (IHb s1 c1 s' c') as [L2 C2]; try assumption; try lia.
    split; [lia|assumption].
  - apply in_app_or in Hin as [H|H]; eauto.
  - eapply star_runs_bounded; eauto.
  - apply in_map_iff in Hin as [[s1 c1] [[= <- <-] H1]].
    destruct (IHa _ _ _ _ Hs Hc H1) as [L1 C1].
    split; [assumption|].
    apply caps_le_cons; [|assumption].
    rewrite length_firstn. lia.
  - destruct s; [|destruct Hin].
    destruct Hin as [[= <- <-]|[]]. auto.
Qed.

(** A literal consumes exactly its own text and captures nothing. *)
Lemma run_lit (w : string) (s : str) (c : caps) (s' : str) (c' : caps) :
  In (s', c') (run (lit w) s c) ->
  c' = c /\ length s = String.length w + length s'.
Proof.
  unfold lit. revert s.
  induction w as [|a w IH]; intros s Hin; simpl in Hin.
  - destruct Hin as [[= <- <-]|[]]. auto.
  - apply in_flat_map in Hin as [[s1 c1] [H1 H2]].
    destruct s as [|x s]; [destruct H1|].
    destruct (N.eqb (N_of_ascii a) x); [|destruct H1].
    destruct H1 as [[= <- <-]|[]].
    apply IH in H2 as [-> L]. simpl. split; [reflexivity|lia].
Qed.

Lemma re_match_length (r : re) (s : str) (n : nat) (c : caps) :
  re_match r s = Some (n, c) -> n <= length s.
Proof.
  unfold re_match. destruct (run r s []) as [|[rest c0] l]; [discriminate|].
  intros [= <- <-]. lia.
Qed.

(** The argument captured by the [not(...)] pattern is strictly shorter
    than the text that matched. *)
Lemma notMatch_inner_shorter (content : str) (n : nat) (c : caps) :
  re_match notMatch content = Some (n, c) ->
  length (grp 1 c) < length content.
Proof.
  unfold re_match.
  destruct (run notMatch content []) as [|[rest c0] l] eqn:E; [discriminate|].
  intros [= <- <-].
  assert (Hin : In (rest, c0) (run notMatch content [])) by (rewrite E; left; reflexivity).
  unfold notMatch, cat in Hin. simpl fold_right in Hin.
  change (run (Seq (lit "not") ?b) ?s ?c)
    with (flat_map (fun '(s', c') => run b s' c') (run (lit "not") s c)) in Hin.
  apply in_flat_map in Hin as [[s1 c1] [H1 H2]].
  apply run_lit in H1 as [-> L1]. simpl String.length in L1.
  destruct (@run_bounded (length s1) _ s1 [] rest c0 (le_n _)
              (caps_le_nil _) H2) as [_ C].
  unfold grp. destruct (group 1 c0) as [v|] eqn:G.
  - apply C in G. lia.
  - simpl. lia.
Qed.

(** ** Splitting yields strictly shorter operands *)

Lemma sumlen_app (a b : list str) : sumlen (a ++ b) = sumlen a + sumlen b.
Proof. unfold sumlen. rewrite map_app, list_sum_app. reflexivity. Qed.

Lemma sumlen_in (p : str) (l : list str) : In p l -> length p <= sumlen l.
Proof.
  unfold sumlen. induction l as [|x l IH]; intros H; [destruct H|].
  simpl. destruct H as [->|H]; [lia|]. apply IH in H. lia.
Qed.

Lemma startsWith_length (p s : str) :
  startsWith p s = true -> length p <= length s.
Proof.
  revert s. induction p as [|x p IH]; intros [|y s]; simpl; try lia;
    try discriminate.
  intros H. apply andb_true_iff in H as [_ H]. apply IH in H. lia.
Qed.

Lemma split_loop_weight (operator : str) (s : str) :
  forall skip st,
    skip <= length s ->
    weight operator (split_loop operator skip s st)
    <= weight operator st + (length s - skip).
Proof.
  induction s as [|char s IH]; intros skip st Hskip; simpl.
  - lia.
  - destruct skip as [|k].
    + assert (Hgrow : forall d q,
        weight operator
          (split_loop operator 0 s
             (mkSplit (parts st) (current st ++ [char]) d q))
        <= weight operator st + S (length s)).
      { intros d q. etransitivity; [apply IH; lia|].
        unfold weight. simpl. rewrite length_app. simpl. lia. }
      destruct (inString st) as [q|]; [apply Hgrow|].
      destruct (is_quote char); [apply Hgrow|].
      destruct (is_open char); [apply Hgrow|].
      destruct (is_close char); [apply Hgrow|].
      destruct ((depth st =? 0)%Z && startsWith operator (char :: s))
        eqn:Hop; [|apply Hgrow].
      apply andb_true_iff in Hop as [_ Hop].
      apply startsWith_length in Hop. simpl in Hop.
      etransitivity; [apply IH; lia|].
      unfold weight. simpl. rewrite sumlen_app, length_app. simpl.
      unfold sumlen at 2. simpl.
      pose proof (length_trim (current st)). nia.
    + etransitivity; [apply IH; simpl in Hskip; lia|]. simpl. lia.
Qed.

Lemma split_finish_weight (operator : str) (st : SplitState) :
  sumlen (split_finish st)
  + length operator * length (split_finish st)
  <= weight operator st + length operator.
Proof.
  unfold split_finish, weight.
  pose proof (length_trim (current st)) as Ht.
  destruct (trim (current st)) as [|x t] eqn:E.
  - nia.
  - rewrite sumlen_app, length_app. unfold sumlen at 2. simpl in *. nia.
Qed.

Lemma splitByOperator_weight (content operator : str) :
  sumlen (splitByOperator content operator)
  + length operator * length (splitByOperator content operator)
  <= length content + length operator.
Proof.
  unfold splitByOperator.
  etransitivity; [apply split_finish_weight|].
  pose proof (@split_loop_weight operator content 0 (mkSplit [] [] 0 None)
                (Nat.le_0_l _)) as H.
  unfold weight at 2 in H. simpl in H. unfold sumlen in H. simpl in H. lia.
Qed.

Lemma splitByOperator_shorter (content operator part : str) :
  1 <= length operator ->
  1 < length (splitByOperator content operator) ->
  In part (splitByOperator content operator) ->
  length part < length content.
Proof.
  intros Hop Hn Hin. apply sumlen_in in Hin.
  pose proof (splitByOperator_weight content operator). nia.
Qed.

(** ** The predicate parser returns *)

Lemma returns_ret {A} (a : A) : returns (Ret a).
Proof. exists a. reflexivity. Qed.

Lemma returns_bind {A B} (m : res A) (k : A -> res B) :
  returns m -> (forall a, m = Ret a -> returns (k a)) -> returns (bind m k).
Proof. intros [a ->] H. simpl. apply H. reflexivity. Qed.

Lemma operands_return (f : str -> res (option Predicate))
    (mk : Predicate -> Predicate -> Predicate) (ps : list str) :
  forall init,
    returns init ->
    (forall p, In p ps -> returns (f p)) ->
    returns
      (fold_left
         (fun acc part =>
            result <- acc ;; right <- f part ;; Ret (combine mk result right))
         ps init).
Proof.
  induction ps as [|p ps IH]; intros init Hinit Hf; simpl.
  - exact Hinit.
  - apply IH.
    + apply returns_bind; [exact Hinit|]. intros a _.
      apply returns_bind; [apply Hf; left; reflexivity|]. intros b _.
      apply returns_ret.
    + intros q Hq. apply Hf. right. exact Hq.
Qed.

Lemma hd_tl_in (p : str) (ps : list str) :
  1 < length ps -> (p = hd [] ps \/ In p (tl ps)) -> In p ps.
Proof.
  destruct ps as [|x ps]; simpl; [lia|]. intros _ [->|H]; auto.
Qed.

Lemma parsePredicateContent_fuel_returns (fuel : nat) :
  forall content,
    length content < fuel ->
    returns (parsePredicateContent_fuel fuel content).
Proof.
  induction fuel as [|n IH]; intros content Hlen; [lia|].
  simpl. pose proof (length_trim content) as Ht.
  set (t := trim content) in *.
  assert (Hparts : forall operator ps mk,
    ps = splitByOperator t operator -> 1 <= length operator ->
    (1 <? length ps) = true ->
    returns
      (fold_left
         (fun acc part =>
            result <- acc ;;
            right <- parsePredicateContent_fuel n part ;;
            Ret (combine mk result right))
         (tl ps) (parsePredicateContent_fuel n (hd [] ps)))).
  { intros operator ps mk -> Hop Hn. apply Nat.ltb_lt in Hn.
    assert (Hall : forall p, In p (splitByOperator t operator) ->
                             returns (parsePredicateContent_fuel n p)).
    { intros p Hp. apply IH.
      pose proof (splitByOperator_shorter t operator p Hop Hn Hp). lia. }
    apply operands_return.
    - apply Hall. apply hd_tl_in; auto.
    - intros p Hp. apply Hall. apply hd_tl_in; auto. }
  destruct (re_match posMatch t) as [[k c]|]; [apply returns_ret|].
  destruct (1 <? length (splitByOperator t (js " or "))) eqn:Hor.
  { eapply Hparts; [reflexivity|simpl; lia|exact Hor]. }
  destruct (1 <? length (splitByOperator t (js " and "))) eqn:Hand.
  { eapply Hparts; [reflexivity|simpl; lia|exact Hand]. }
  destruct (re_match notMatch t) as [[k c]|] eqn:Hnot;
    [|apply returns_ret].
  apply notMatch_inner_shorter in Hnot.
  apply returns_bind; [apply IH; lia|].
  intros [i|] _; apply returns_ret.
Qed.

Lemma parsePredicateContent_returns (content : str) :
  returns (parsePredicateContent content).
Proof.
  unfold parsePredicateContent.
  apply parsePredicateContent_fuel_returns. lia.
Qed.

(** *** The budget of the predicate parser does not change its result *)

Lemma le_res_refl {A} (m : res A) : le_res m m.
Proof. intros a H. exact H. Qed.

Lemma le_res_bind {A B} (m m' : res A) (k k' : A -> res B) :
  le_res m m' -> (forall a, le_res (k a) (k' a)) ->
  le_res (bind m k) (bind m' k').
Proof.
  intros Hm Hk b H. destruct m as [a| |]; simpl in H; try discriminate.
  rewrite (Hm a eq_refl). simpl. apply Hk. exact H.
Qed.

Lemma operands_le (f g : str -> res (option Predicate))
    (mk : Predicate -> Predicate -> Predicate) (ps : list str) :
  (forall p, le_res (f p) (g p)) ->
  forall init init',
    le_res init init' ->
    le_res
      (fold_left
         (fun acc part =>
            result <- acc ;; right <- f part ;; Ret (combine mk result right))
         ps init)
      (fold_left
         (fun acc part =>
            result <- acc ;; right <- g part ;; Ret (combine mk result right))
         ps init').
Proof.
  intros Hfg. induction ps as [|p ps IH]; intros init init' Hinit; simpl.
  - exact Hinit.
  - apply IH. apply le_res_bind; [exact Hinit|]. intros a.
    apply le_res_bind; [apply Hfg|]. intros b. apply le_res_refl.
Qed.

Lemma parsePredicateContent_fuel_mono (n : nat) :
  forall m content,
    n <= m ->
    le_res (parsePredicateContent_fuel n content)
           (parsePredicateContent_fuel m content).
Proof.
  induction n as [|n IH]; intros m content Hle; [intros a H; discriminate|].
  destruct m as [|m]; [lia|].
  assert (Hrec : forall p, le_res (parsePredicateContent_fuel n p)
                                  (parsePredicateContent_fuel m p))
    by (intros p; apply IH; lia).
  simpl. set (t := trim content).
  destruct (re_match posMatch t) as [[k c]|]; [apply le_res_refl|].
  destruct (1 <? length (splitByOperator t (js " or "))).
  { apply operands_le; [exact Hrec|apply Hrec]. }
  destruct (1 <? length (splitByOperator t (js " and "))).
  { apply operands_le; [exact Hrec|apply Hrec]. }
  destruct (re_match notMatch t) as [[k c]|]; [|apply le_res_refl].
  apply le_res_bind; [apply Hrec|]. intros a. apply le_res_refl.
Qed.

Lemma parsePredicateContent_any_fuel (content : str) (fuel : nat) :
  length content < fuel ->
  parsePredicateContent_fuel fuel content = parsePredicateContent content.
Proof.
  intros Hlen. destruct (parsePredicateContent_returns content) as [r Hr].
  rewrite Hr. unfold parsePredicateContent in Hr.
  apply (parsePredicateContent_fuel_mono (S (length content)) fuel content);
    [lia|exact Hr].
Qed.

(** ** The step parser consumes a prefix and returns *)

Lemma suffix_refl (s : str) : suffix_of s s.
Proof. exists 0. reflexivity. Qed.

Lemma suffix_skipn (k : nat) (s : str) : suffix_of (skipn k s) s.
Proof. exists k. reflexivity. Qed.

Lemma suffix_trans (a b c : str) :
  suffix_of a b -> suffix_of b c -> suffix_of a c.
Proof.
  intros [i ->] [j ->]. exists (i + j). apply skipn_skipn.
Qed.

Lemma suffix_shorter (rest s : str) :
  suffix_of rest s -> rest <> s -> length rest < length s.
Proof.
  intros [k ->] Hne. destruct k as [|k]; [contradiction Hne; reflexivity|].
  destruct s as [|x s]; [contradiction Hne; reflexivity|].
  rewrite length_skipn. simpl. lia.
Qed.

Create HintDb suffix.
#[local] Hint Resolve suffix_refl suffix_skipn : suffix.

Ltac done_here := do 2 eexists; split; [reflexivity|auto with suffix].

Lemma parseSinglePredicate_ok (expr : str) :
  exists predicate rest,
    parseSinglePredicate expr = Ret (predicate, rest) /\ suffix_of rest expr.
Proof.
  unfold parseSinglePredicate.
  destruct (negb (startsWith (js "[") expr)); [done_here|].
  destruct (findMatchingBracket expr) as [closeIdx|]; [|done_here].
  destruct (parsePredicateContent_returns
              (trim (slice expr 1 (Some (Z.of_nat closeIdx))))) as [p ->].
  simpl. done_here.
Qed.

Lemma parsePredicates_loop_eq (fuel : nat) (preds : list Predicate)
    (remaining : str) :
  parsePredicates_loop fuel preds remaining =
  if negb (startsWith (js "[") remaining) then Ret (preds, remaining)
  else
    match fuel with
    | 0 => Timeout
    | S n =>
        '(predicate, rest) <- parseSinglePredicate remaining ;;
        if str_eqb rest remaining then Ret (push preds predicate, remaining)
        else parsePredicates_loop n (push preds predicate) rest
    end.
Proof. destruct fuel; reflexivity. Qed.

Lemma parsePredicates_loop_ok (fuel : nat) :
  forall preds remaining,
    length remaining <= fuel ->
    exists ps rest,
      parsePredicates_loop fuel preds remaining = Ret (ps, rest)
      /\ suffix_of rest remaining.
Proof.
  induction fuel as [|n IH]; intros preds remaining Hlen;
    rewrite parsePredicates_loop_eq.
  - destruct remaining; [|simpl in Hlen; lia].
    simpl. done_here.
  - destruct (negb (startsWith (js "[") remaining)); [done_here|].
    destruct (parseSinglePredicate_ok remaining) as (p & rest & -> & Hsuf).
    cbn [bind].
    destruct (str_eqb rest remaining) eqn:E; [done_here|].
    apply str_eqb_neq in E.
    pose proof (suffix_shorter _ _ Hsuf E) as Hshort.
    destruct (IH (push preds p) rest) as (ps & rest' & -> & Hsuf');
      [lia|].
    exists ps, rest'. split; [reflexivity|].
    eapply suffix_trans; eassumption.
Qed.

Lemma parsePredicates_loop_mono (fuel : nat) :
  forall fuel' preds remaining,
    fuel <= fuel' ->
    le_res (parsePredicates_loop fuel preds remaining)
           (parsePredicates_loop fuel' preds remaining).
Proof.
  induction fuel as [|n IH]; intros fuel' preds remaining Hle r H;
    rewrite parsePredicates_loop_eq in H; rewrite parsePredicates_loop_eq;
    destruct (negb (startsWith (js "[") remaining)); try exact H;
    try discriminate.
  destruct fuel' as [|m]; [lia|].
  destruct (parseSinglePredicate remaining) as [[p rest]| |];
    cbn [bind] in *; try discriminate.
  destruct (str_eqb rest remaining); [exact H|].
  apply (IH m); [lia|exact H].
Qed.

Lemma parsePredicates_ok (expr : str) :
  exists ps rest,
    parsePredicates expr = Ret (ps, rest) /\ suffix_of rest expr.
Proof. apply parsePredicates_loop_ok. lia. Qed.

Lemma parseStep_test_ok (axis0 : Axis) (remaining0 : str) :
  exists step rest,
    parseStep_test axis0 remaining0 = Ret (step, rest)
    /\ suffix_of rest remaining0.
Proof.
  unfold parseStep_test.
  set (ar := match re_match axisMatch remaining0 with
             | Some (n, c) => (axis_of (grp 1 c), skipn n remaining0)
             | None => (axis0, remaining0)
             end).
  assert (Har : suffix_of (snd ar) remaining0).
  { subst ar. destruct (re_match axisMatch remaining0) as [[n c]|];
      simpl; auto with suffix. }
  destruct ar as [a remaining]. simpl in Har.
  assert (Hwith : forall test k,
    exists step rest,
      ('(preds, rest) <- parsePredicates (skipn k remaining) ;;
       Ret (Some (mkStep a test preds), rest)) = Ret (step, rest)
      /\ suffix_of rest remaining0).
  { intros test k.
    destruct (parsePredicates_ok (skipn k remaining))
      as (ps & rest & -> & Hsuf).
    simpl. do 2 eexists. split; [reflexivity|].
    eapply suffix_trans; [exact Hsuf|].
    eapply suffix_trans; [apply suffix_skipn|exact Har]. }
  destruct (if startsWith (js "@") remaining
            then re_match attrMatch remaining else None) as [[n c]|].
  { do 2 eexists. split; [reflexivity|].
    eapply suffix_trans; [apply suffix_skipn|exact Har]. }
  destruct (startsWith (js "text()") remaining); [apply Hwith|].
  destruct (startsWith (js "node()") remaining); [apply Hwith|].
  destruct (startsWith (js "*") remaining); [apply Hwith|].
  destruct (re_match nameMatch remaining) as [[n c]|]; [apply Hwith|].
  do 2 eexists. split; [reflexivity|exact Har].
Qed.

Lemma parseStep_ok (expr : str) :
  exists step rest,
    parseStep expr = Ret (step, rest) /\ suffix_of rest expr.
Proof.
  unfold parseStep.
  assert (Hskip : forall a k,
    exists step rest,
      parseStep_test a (skipn k expr) = Ret (step, rest)
      /\ suffix_of rest expr).
  { intros a k.
    destruct (parseStep_test_ok a (skipn k expr)) as (st & rest & -> & H).
    do 2 eexists. split; [reflexivity|].
    eapply suffix_trans; [exact H|apply suffix_skipn]. }
  destruct (startsWith (js "//") expr); [apply Hskip|].
  destruct (startsWith (js "/") expr); [apply Hskip|].
  destruct (startsWith (js ".//") expr); [apply Hskip|].
  destruct (startsWith (js "./") expr); [apply Hskip|].
  destruct (startsWith (js "..") expr);
    [do 2 eexists; split; [reflexivity|apply suffix_skipn]|].
  destruct (startsWith (js ".") expr);
    [do 2 eexists; split; [reflexivity|apply suffix_skipn]|].
  apply (Hskip ax_child 0).
Qed.

Lemma parseXPath_loop_eq (fuel : nat) (expr : str) (steps : list Step)
    (remaining : str) :
  parseXPath_loop fuel expr steps remaining =
  if negb (0 <? length remaining) then Ret (steps, [])
  else
    match fuel with
    | 0 => Timeout
    | S n =>
        '(step, rest) <- parseStep remaining ;;
        if str_eqb rest remaining then
          Ret (push steps step,
               if 0 <? length remaining
               then [warn_unparseable remaining expr] else [])
        else parseXPath_loop n expr (push steps step) rest
    end.
Proof. destruct fuel; reflexivity. Qed.

Lemma parseXPath_loop_ok (expr : str) (fuel : nat) :
  forall steps remaining,
    length remaining <= fuel ->
    exists steps' log,
      parseXPath_loop fuel expr steps remaining = Ret (steps', log)
      /\ tail_dropped expr remaining log.
Proof.
  induction fuel as [|n IH]; intros steps remaining Hlen;
    rewrite parseXPath_loop_eq;
    destruct (0 <? length remaining) eqn:Hpos; cbn [negb];
    try (do 2 eexists; split; [reflexivity|left; reflexivity]).
  - apply Nat.ltb_lt in Hpos. lia.
  - apply Nat.ltb_lt in Hpos.
    destruct (parseStep_ok remaining) as (st & rest & Hps & Hsuf).
    rewrite Hps. cbn [bind].
    destruct (str_eqb rest remaining) eqn:E.
    + apply str_eqb_spec in E. subst rest.
      do 2 eexists. split; [reflexivity|]. right.
      exists remaining, st. repeat split; auto with suffix.
      intros ->. simpl in Hpos. lia.
    + apply str_eqb_neq in E.
      pose proof (suffix_shorter _ _ Hsuf E) as Hshort.
      destruct (IH (push steps st) rest) as (steps' & log & -> & Hlog);
        [lia|].
      do 2 eexists. split; [reflexivity|].
      destruct Hlog as [->|(tail & st' & Hne & Hs & Hp & ->)];
        [left; reflexivity|right].
      exists tail, st'. repeat split; auto.
      eapply suffix_trans; eassumption.
Qed.

Lemma parseXPath_loop_mono (expr : str) (fuel : nat) :
  forall fuel' steps remaining r,
    parseXPath_loop fuel expr steps remaining = Ret r ->
    fuel <= fuel' ->
    parseXPath_loop fuel' expr steps remaining = Ret r.
Proof.
  induction fuel as [|n IH]; intros fuel' steps remaining r H Hle;
    rewrite parseXPath_loop_eq in H; rewrite parseXPath_loop_eq;
    destruct (negb (0 <? length remaining)); try exact H;
    try discriminate.
  destruct fuel' as [|m]; [lia|].
  destruct (parseStep remaining) as [[st rest]| |]; cbn [bind] in *;
    try discriminate.
  destruct (str_eqb rest remaining); [exact H|].
  apply IH; [exact H|lia].
Qed.

Lemma parseXPath_returns (e : str) : returns (parseXPath e).
Proof.
  destruct (parseXPath_loop_ok e (length e) [] (trim e) (length_trim e))
    as (steps & log & H & _).
  exists (steps, log). exact H.
Qed.

(** Adversarial inputs: an unterminated bracket after the path marker,
    an unterminated quote inside a predicate, and leading garbage.  The
    steps read before the tail are kept and the tail is reported. *)
Example parseXPath_unterminated_bracket :
  parseXPath (js "//[bad")
  = Ret ([], [warn_unparseable (js "[bad") (js "//[bad")]).
Proof. vm_compute. reflexivity. Qed.

Example parseXPath_unterminated_quote :
  parseXPath (js "//a[@href='x]/b")
  = Ret ([mkStep ax_descendant (NT_name (js "a")) []],
         [warn_unparseable (js "[@href='x]/b") (js "//a[@href='x]/b")]).
Proof. vm_compute. reflexivity. Qed.

Example parseXPath_leading_garbage :
  parseXPath (js "?!//a")
  = Ret ([], [warn_unparseable (js "?!//a") (js "?!//a")]).
Proof. vm_compute. reflexivity. Qed.

(** *** What the loop reads and what it logs *)

Lemma parse_run_deterministic (remaining : str) (steps : list Step)
    (tail : str) :
  parse_run remaining steps tail ->
  forall steps' tail',
    parse_run remaining steps' tail' -> steps' = steps /\ tail' = tail.
Proof.
  induction 1 as [|tail step Hne Hps
                  |remaining rest tail step steps Hne Hps Hprog Hrun IH];
    intros steps' tail' H'; inversion H' as [|t s Hne' Hps'
                  |r rest' t s ss Hne' Hps' Hprog' Hrun']; subst;
    try (exfalso;
         match goal with H : ?x <> ?x |- _ => apply H; reflexivity end);
    try (split; reflexivity).
  - rewrite Hps in Hps'. injection Hps' as <-. split; reflexivity.
  - rewrite Hps in Hps'. injection Hps' as <- <-.
    contradiction Hprog'. reflexivity.
  - rewrite Hps in Hps'. injection Hps' as <- <-.
    contradiction Hprog. reflexivity.
  - rewrite Hps in Hps'. injection Hps' as <- <-.
    destruct (IH _ _ Hrun') as [-> ->]. split; reflexivity.
Qed.

Lemma slice_first (s : str) (n : nat) :
  slice s 0 (Some (Z.of_nat n)) = firstn n s.
Proof.
  unfold slice, clamp_index.
  change (0 <? 0)%Z with false. change (Z.to_nat 0) with 0.
  destruct (Z.of_nat n <? 0)%Z eqn:E; [apply Z.ltb_lt in E; lia|].
  rewrite Nat2Z.id, Nat.min_0_l, Nat.sub_0_r. cbn [skipn].
  destruct (Nat.le_ge_cases n (length s)) as [L|L].
  - rewrite Nat.min_l by exact L. reflexivity.
  - rewrite Nat.min_r by exact L.
    rewrite firstn_all, firstn_all2 by exact L. reflexivity.
Qed.

Lemma warn_unparseable_entry (tail expr : str) :
  tail <> [] -> [warn_unparseable tail expr] = run_log expr tail.
Proof.
  intros Hne. destruct tail as [|c tail]; [contradiction Hne; reflexivity|].
  unfold run_log, warn_unparseable.
  pose proof (slice_first (c :: tail) 50) as E.
  change (Z.of_nat 50) with 50%Z in E. rewrite E. reflexivity.
Qed.

Lemma push_app {A} (l : list A) (x : option A) : push l x = l ++ push [] x.
Proof. destruct x; simpl; [reflexivity|rewrite app_nil_r; reflexivity]. Qed.

Lemma parseXPath_loop_run (expr : str) (fuel : nat) :
  forall steps0 remaining,
    length remaining <= fuel ->
    exists steps tail,
      parse_run remaining steps tail
      /\ parseXPath_loop fuel expr steps0 remaining
         = Ret (steps0 ++ steps, run_log expr tail).
Proof.
  induction fuel as [|n IH]; intros steps0 remaining Hlen;
    rewrite parseXPath_loop_eq;
    destruct remaining as [|c remaining];
    try (exists [], []; split; [constructor|];
         cbn [length Nat.ltb Nat.leb negb]; rewrite app_nil_r; reflexivity).
  - simpl in Hlen. lia.
  - cbn [length Nat.ltb Nat.leb negb].
    destruct (parseStep_ok (c :: remaining)) as (st & rest & Hps & Hsuf).
    rewrite Hps. cbn [bind].
    destruct (str_eqb rest (c :: remaining)) eqn:E.
    + apply str_eqb_spec in E. subst rest.
      exists (push [] st), (c :: remaining). split.
      * apply run_stuck; [discriminate|exact Hps].
      * rewrite (warn_unparseable_entry (c :: remaining) expr)
          by discriminate.
        rewrite (push_app steps0). reflexivity.
    + apply str_eqb_neq in E.
      pose proof (suffix_shorter _ _ Hsuf E) as Hshort.
      destruct (IH (push steps0 st) rest) as (steps & tail & Hrun & ->);
        [simpl in Hlen, Hshort; lia|].
      exists (push [] st ++ steps), tail. split.
      * apply (run_step (remaining := c :: remaining) (rest := rest));
          [discriminate|exact Hps|exact E|exact Hrun].
      * rewrite (push_app steps0), <- app_assoc. reflexivity.
Qed.

(** C2. For every expression, [parseXPath] returns a list of steps: it
    neither throws nor exhausts its loop budget, and any larger budget gives
    the same result.  The steps are those that [parseStep] yields one after
    the other while it consumes input.  When parsing stops before the end
    of the input, the unconsumed tail is not an error: the steps read so far
    are the result and the tail is reported to the logger, in exactly one
    warning that carries its first 50 code units and the expression; when
    the input is consumed, nothing is logged. *)
Theorem parseXPath_terminates_without_raising (e : str) :
  exists steps log,
    parseXPath e = Ret (steps, log)
    /\ (forall fuel, length e <= fuel ->
          parseXPath_loop fuel e [] (trim e) = Ret (steps, log))
    /\ tail_dropped e (trim e) log
    /\ exists tail,
         parse_run (trim e) steps tail
         /\ (forall steps' tail',
                parse_run (trim e) steps' tail' ->
                steps' = steps /\ tail' = tail)
         /\ log = match tail with
                  | [] => []
                  | _ :: _ =>
                      [mkLog lvl_warn "unparseable xpath segment"
                             [("segment"%string, firstn 50 tail);
                              ("expression"%string, e)]]
                  end.
Proof.
  pose proof (length_trim e) as Ht.
  destruct (@parseXPath_loop_ok e (length e) [] (trim e) Ht)
    as (steps & log & Hrun & Hlog).
  exists steps, log. split; [exact Hrun|]. split; [|split; [exact Hlog|]].
  - intros fuel Hfuel. eapply parseXPath_loop_mono; eassumption.
  - destruct (parseXPath_loop_run e (length e) [] (trim e) Ht)
      as (steps1 & tail & Hreads & Hloop).
    unfold parseXPath in Hrun. rewrite Hloop in Hrun.
    injection Hrun as <- <-.
    exists tail. split; [exact Hreads|]. split; [|reflexivity].
    exact (parse_run_deterministic _ _ _ Hreads).
Qed.

(** ** Evaluation halts: it returns or throws, it never runs out of budget *)

Lemma halts_ret {A} (a : A) : halts (Ret a).
Proof. discriminate. Qed.

Lemma halts_throw {A} : halts (@Throw A).
Proof. discriminate. Qed.

Lemma halts_bind {A B} (m : res A) (k : A -> res B) :
  halts m -> (forall a, halts (k a)) -> halts (bind m k).
Proof.
  intros Hm Hk. destruct m; simpl;
    [apply Hk|discriminate|contradiction Hm; reflexivity].
Qed.

Lemma returns_halts {A} (m : res A) : returns m -> halts m.
Proof. intros [a ->]. discriminate. Qed.

Lemma halts_fold {A S} (f : S -> A -> res S) (l : list A) :
  (forall s a, halts (f s a)) ->
  forall init, halts init ->
    halts (fold_left (fun acc a => s <- acc ;; f s a) l init).
Proof.
  intros Hf. induction l as [|a l IH]; intros init Hinit; simpl; auto.
  apply IH. apply halts_bind; auto.
Qed.

Lemma halts_filterM {A} (p : A -> res bool) (l : list A) :
  (forall a, halts (p a)) -> halts (filterM p l).
Proof.
  intros Hp. induction l as [|a l IH]; simpl; [apply halts_ret|].
  apply halts_bind; [apply Hp|]. intros b.
  apply halts_bind; [exact IH|]. intros r. apply halts_ret.
Qed.

Create HintDb halts.
#[local] Hint Resolve halts_ret halts_throw : halts.

Section Evaluation.

Variable doc : list tree.
Context {provider : Attributes}.
Variable querySelectorAll : Node -> str -> option (list Node).
Variable outerHTML : Node -> str.
Variable splitXPathUnion : str -> list str.

Lemma evaluatePredicate_halts (node : Node) (pred : Predicate)
    (allNodes : list Node) :
  halts (evaluatePredicate doc querySelectorAll node pred allNodes).
Proof.
  induction pred; simpl; auto with halts.
  - destruct (negb _); auto with halts.
    unfold querySelector. destruct (querySelectorAll node tagName);
      simpl; auto with halts.
  - apply halts_bind; auto with halts.
  - apply halts_bind; auto. intros []; auto with halts.
  - apply halts_bind; auto. intros []; auto with halts.
  - destruct (negb _); auto with halts.
    destruct (querySelectorAll node tagName); auto with halts.
Qed.

Lemma applyPredicates_halts (nodes : list Node) (preds : list Predicate) :
  halts (applyPredicates doc querySelectorAll nodes preds).
Proof.
  unfold applyPredicates.
  apply (halts_fold
           (fun result pred =>
              filterM (fun node =>
                         evaluatePredicate doc querySelectorAll node pred
                                           result) result));
    auto with halts.
  intros s a. apply halts_filterM. intros n.
  apply evaluatePredicate_halts.
Qed.

Lemma evaluateStep_halts (step : Step) (contexts : list XPathResult) :
  halts (evaluateStep doc querySelectorAll step contexts).
Proof.
  unfold evaluateStep.
  apply (halts_fold
           (fun results context =>
              more <- evaluateStep_context doc querySelectorAll step
                                           context ;;
              Ret (results ++ more)));
    auto with halts.
  intros s [n|t]; apply halts_bind; auto with halts;
    [|simpl; auto with halts].
  unfold evaluateStep_context.
  assert (H : halts
    (filtered <- applyPredicates doc querySelectorAll
                   (filterByNodeTest doc (getCandidates doc (axis step) n)
                                     (nodeTest step))
                   (predicates step) ;;
     Ret (map R_node filtered))).
  { apply halts_bind; auto with halts. apply applyPredicates_halts. }
  destruct (axis step); try exact H.
  destruct (nodeTest step); try exact H.
  destruct (N.eqb _ _); auto with halts.
  destruct (getAttribute doc n name); auto with halts.
Qed.

Lemma evaluateSingleXPath_halts (expr : str) (contexts : list Node) :
  halts (evaluateSingleXPath doc querySelectorAll expr contexts).
Proof.
  unfold evaluateSingleXPath.
  destruct (parseXPath_returns expr) as ([steps log] & ->).
  cbn [bind].
  apply (halts_fold (fun results step =>
                       evaluateStep doc querySelectorAll step results));
    auto with halts.
  intros s a. apply evaluateStep_halts.
Qed.

Lemma evaluateXPath_halts (expr : str) (contexts : list Node) :
  halts (evaluateXPath doc querySelectorAll expr contexts).
Proof.
  unfold evaluateXPath. destruct (trim expr); auto with halts.
  destruct (1 <? length (splitUnion expr));
    [|apply evaluateSingleXPath_halts].
  apply halts_bind; [|auto with halts].
  apply (halts_fold
           (fun st part =>
              partResults <- evaluateSingleXPath doc querySelectorAll
                               (trim part) contexts ;;
              Ret (fold_left union_push partResults st)));
    auto with halts.
  intros st part. apply halts_bind; auto with halts.
  apply evaluateSingleXPath_halts.
Qed.

Lemma Selector_evaluateSingleXPath_returns (this : Selector) (q : str) :
  returns (Selector_evaluateSingleXPath doc querySelectorAll outerHTML
                                        this q).
Proof.
  unfold Selector_evaluateSingleXPath.
  pose proof (evaluateXPath_halts (query (parseXPathPseudo q))
                                  (base_nodes this)) as H.
  destruct (evaluateXPath _ _ _ _); try apply returns_ret.
  contradiction H. reflexivity.
Qed.

Lemma xpath_union_loop_returns (this : Selector) (unionParts : list str) :
  forall allStrings st,
    returns (xpath_union_loop doc querySelectorAll outerHTML this
                              unionParts allStrings st).
Proof.
  induction unionParts as [|part rest IH]; intros allStrings st; simpl.
  - apply returns_ret.
  - apply returns_bind;
      [apply Selector_evaluateSingleXPath_returns|].
    intros [[values|nodes]|] _; auto. apply returns_ret.
Qed.

(** [xpath] always hands back a Selector. *)
Lemma xpath_returns (this : Selector) (q : str) :
  returns (xpath doc querySelectorAll outerHTML splitXPathUnion this q).
Proof.
  unfold xpath. destruct (1 <? length (splitXPathUnion q)).
  - apply returns_bind; [apply xpath_union_loop_returns|].
    intros [[allStrings allNodes]|] _; [|apply returns_ret].
    destruct (0 <? length allStrings); apply returns_ret.
  - apply returns_bind; [apply Selector_evaluateSingleXPath_returns|].
    intros [[values|nodes]|] _; apply returns_ret.
Qed.

(** C1. For every Selector that the public operations can produce (the
    constructor, css, xpath, also over a union, first, last, eq, or and
    the per-match Selectors of toArray), [ok] is true exactly when
    [count] is greater than 0. *)
Theorem ok_iff_count_positive (s : Selector) :
  reachable doc querySelectorAll outerHTML splitXPathUnion s ->
  ok s = (0 <? count s).
Proof.
  intros _. destruct s; reflexivity.
Qed.

End Evaluation.

(** ** Candidate lists have no duplicates

    The list an axis hands to the node test never holds a node twice, so
    [indexOf] reports the position of a node in it. *)

(** Induction over a tree with the hypothesis for every child. *)
Fixpoint tree_induction (P : tree -> Prop)
    (Helement : forall tg attrs cs, Forall P cs -> P (Element tg attrs cs))
    (Htext : forall d, P (Text d)) (Hcomment : forall d, P (Comment d))
    (t : tree) : P t :=
  match t with
  | Element tg attrs cs =>
      Helement tg attrs cs
        ((fix all (l : list tree) : Forall P l :=
            match l with
            | [] => Forall_nil P
            | c :: l' =>
                Forall_cons c
                  (tree_induction P Helement Htext Hcomment c) (all l')
            end) cs)
  | Text d => Htext d
  | Comment d => Hcomment d
  end.

Lemma descendants_tree_element (n : Node) (tg : str)
    (attrs : list (str * str)) (cs : list tree) :
  descendants_tree n (Element tg attrs cs) = descendants_list n 0 cs.
Proof.
  simpl. generalize 0. induction cs as [|c cs IH]; intros i;
    [reflexivity|].
  simpl. rewrite IH. reflexivity.
Qed.

Lemma descendants_tree_children (n : Node) (t : tree) :
  descendants_tree n t = descendants_list n 0 (children_of t).
Proof.
  destruct t; [apply descendants_tree_element|reflexivity|reflexivity].
Qed.

Lemma descendants_list_shape (n : Node) (cs : list tree) :
  Forall extends_paths cs ->
  forall i x,
    In x (descendants_list n i cs) ->
    exists j r, i <= j /\ x = n ++ j :: r.
Proof.
  induction 1 as [|c cs Hc _ IH]; intros i x Hin; simpl in Hin;
    [destruct Hin|].
  destruct Hin as [<-|Hin].
  - exists i, []. split; [lia|reflexivity].
  - apply in_app_or in Hin as [Hin|Hin].
    + destruct (Hc _ _ Hin) as (j & r & ->).
      exists i, (j :: r). split; [lia|].
      rewrite <- app_assoc. reflexivity.
    + destruct (IH _ _ Hin) as (j & r & Hj & ->).
      exists j, r. split; [lia|reflexivity].
Qed.

Lemma descendants_tree_shape (t : tree) : extends_paths t.
Proof.
  induction t as [tg attrs cs IH|d|d] using tree_induction;
    intros n x Hin; try destruct Hin.
  rewrite descendants_tree_element in Hin.
  destruct (descendants_list_shape n cs IH 0 x Hin) as (j & r & _ & ->).
  eauto.
Qed.

Lemma all_extend_paths (cs : list tree) : Forall extends_paths cs.
Proof. apply Forall_forall. intros c _. apply descendants_tree_shape. Qed.

Lemma path_not_own_extension (n : Node) (j : nat) (r : list nat) :
  n <> n ++ j :: r.
Proof.
  intros H. apply (f_equal (@length nat)) in H.
  rewrite length_app in H. simpl in H. lia.
Qed.

Lemma descendants_list_nodup (n : Node) (cs : list tree) :
  Forall distinct_descendants cs ->
  forall i, NoDup (descendants_list n i cs).
Proof.
  induction 1 as [|c cs Hc _ IH]; intros i; simpl; constructor.
  - intros Hin. apply in_app_or in Hin as [Hin|Hin].
    + destruct (descendants_tree_shape c _ _ Hin) as (j & r & E).
      exact (path_not_own_extension _ _ _ E).
    + destruct (descendants_list_shape n cs (all_extend_paths cs) _ _ Hin)
        as (j & r & Hj & E).
      apply app_inv_head in E. injection E as -> _. lia.
  - apply NoDup_app; [apply Hc|apply IH|].
    intros x Hx Hx'.
    destruct (descendants_tree_shape c _ _ Hx) as (j & r & ->).
    destruct (descendants_list_shape n cs (all_extend_paths cs) _ _ Hx')
      as (j' & r' & Hj' & E).
    rewrite <- app_assoc in E. apply app_inv_head in E.
    simpl in E. injection E as -> _. lia.
Qed.

Lemma descendants_tree_nodup (t : tree) : distinct_descendants t.
Proof.
  induction t as [tg attrs cs IH|d|d] using tree_induction; intros n;
    try constructor.
  rewrite descendants_tree_element. apply descendants_list_nodup. exact IH.
Qed.

Lemma all_distinct_descendants (cs : list tree) :
  Forall distinct_descendants cs.
Proof. apply Forall_forall. intros c _. apply descendants_tree_nodup. Qed.

(** *** Subsequences *)

Lemma subseq_refl {A} (l : list A) : subseq l l.
Proof. induction l; constructor; assumption. Qed.

Lemma subseq_nil_l {A} (l : list A) : subseq [] l.
Proof. induction l; constructor; assumption. Qed.

Lemma subseq_app {A} (a b c d : list A) :
  subseq a b -> subseq c d -> subseq (a ++ c) (b ++ d).
Proof.
  induction 1 as [|x a b Hab IH|x a b Hab IH]; intros Hcd; simpl.
  - exact Hcd.
  - apply subseq_skip. auto.
  - apply subseq_keep. auto.
Qed.

Lemma subseq_in {A} (a b : list A) (x : A) :
  subseq a b -> In x a -> In x b.
Proof.
  induction 1; intros Hin; simpl in *; intuition.
Qed.

Lemma subseq_nodup {A} (a b : list A) : subseq a b -> NoDup b -> NoDup a.
Proof.
  induction 1 as [|x a b Hab IH|x a b Hab IH]; intros Hnd.
  - constructor.
  - apply IH. inversion Hnd. assumption.
  - inversion Hnd as [|? ? Hx Hb]. subst. constructor; [|auto].
    intros Hin. apply Hx. eapply subseq_in; eassumption.
Qed.

(** *** The axes *)

Lemma nodup_map_child (n : Node) (l : list nat) :
  NoDup l -> NoDup (map (fun i => n ++ [i]) l).
Proof.
  induction 1 as [|i l Hi _ IH]; simpl; constructor; [|exact IH].
  intros Hin. apply in_map_iff in Hin as (j & E & Hj).
  apply app_inv_head in E. injection E as ->. contradiction.
Qed.

Lemma ancestors_rev_shorter (r : list nat) (x : Node) :
  In x (ancestors_rev r) -> length x < length r.
Proof.
  induction r as [|i q IH]; simpl; [intros []|].
  intros [<-|Hin]; [rewrite length_rev; lia|].
  apply IH in Hin. lia.
Qed.

Lemma ancestors_rev_nodup (r : list nat) : NoDup (ancestors_rev r).
Proof.
  induction r as [|i q IH]; simpl; constructor; [|exact IH].
  intros Hin. apply ancestors_rev_shorter in Hin.
  rewrite length_rev in Hin. lia.
Qed.

Lemma walk_following_element (context node : Node) (tg : str)
    (attrs : list (str * str)) (cs : list tree) (st : bool * list Node) :
  walk_following context node (Element tg attrs cs) st
  = following_loop context node 0 cs st.
Proof.
  simpl. generalize 0. revert st.
  induction cs as [|c cs IH]; intros st i; [reflexivity|].
  simpl. destruct st as [found results]. rewrite IH. reflexivity.
Qed.

Lemma walk_preceding_element (context node : Node) (tg : str)
    (attrs : list (str * str)) (cs : list tree) (results : list Node) :
  walk_preceding context node (Element tg attrs cs) results
  = preceding_loop context node 0 cs results.
Proof.
  simpl. generalize 0. revert results.
  induction cs as [|c cs IH]; intros results i; [reflexivity|].
  simpl. destruct (node_eqb (node ++ [i]) context); [reflexivity|].
  destruct (is_prefix (node ++ [i]) context).
  - destruct (walk_preceding context (node ++ [i]) c results)
      as [found results'].
    destruct found; [reflexivity|apply IH].
  - apply IH.
Qed.

Lemma following_loop_adds (context node : Node) (cs : list tree) :
  Forall (following_adds context) cs ->
  forall i st,
    exists extra,
      snd (following_loop context node i cs st) = snd st ++ extra
      /\ subseq extra (descendants_list node i cs).
Proof.
  induction 1 as [|c cs Hc _ IH]; intros i st; simpl.
  - exists []. rewrite app_nil_r. split; [reflexivity|constructor].
  - destruct st as [found results].
    set (block := (node ++ [i]) :: descendants_tree (node ++ [i]) c).
    assert (Hstep : forall st',
      (exists mid, snd st' = results ++ mid /\ subseq mid block) ->
      exists extra,
        snd (following_loop context node (S i) cs st') = results ++ extra
        /\ subseq extra (block ++ descendants_list node (S i) cs)).
    { intros st' (mid & Hmid & Hsub).
      destruct (IH (S i) st') as (extra & -> & Hextra).
      exists (mid ++ extra). rewrite Hmid, app_assoc.
      split; [reflexivity|]. apply subseq_app; assumption. }
    simpl snd. destruct found.
    + apply Hstep. exists block. split; [reflexivity|apply subseq_refl].
    + destruct (node_eqb (node ++ [i]) context).
      { apply Hstep. exists []. rewrite app_nil_r.
        split; [reflexivity|apply subseq_nil_l]. }
      destruct (is_prefix (node ++ [i]) context).
      * apply Hstep.
        destruct (Hc (node ++ [i]) (false, results)) as (mid & Hmid & Hsub).
        exists mid. split; [exact Hmid|]. apply subseq_skip. exact Hsub.
      * apply Hstep. exists []. rewrite app_nil_r.
        split; [reflexivity|apply subseq_nil_l].
Qed.

Lemma walk_following_adds (context : Node) (t : tree) :
  following_adds context t.
Proof.
  induction t as [tg attrs cs IH|d|d] using tree_induction; intros node st.
  - rewrite walk_following_element, descendants_tree_element.
    apply following_loop_adds. exact IH.
  - exists []. rewrite app_nil_r. split; [reflexivity|constructor].
  - exists []. rewrite app_nil_r. split; [reflexivity|constructor].
Qed.

Lemma preceding_loop_adds (context node : Node) (cs : list tree) :
  Forall (preceding_adds context) cs ->
  forall i results,
    exists extra,
      snd (preceding_loop context node i cs results) = results ++ extra
      /\ subseq extra (descendants_list node i cs).
Proof.
  induction 1 as [|c cs Hc _ IH]; intros i results; simpl.
  - exists []. rewrite app_nil_r. split; [reflexivity|constructor].
  - set (block := (node ++ [i]) :: descendants_tree (node ++ [i]) c).
    assert (Hstep : forall mid,
      subseq mid block ->
      exists extra,
        snd (preceding_loop context node (S i) cs (results ++ mid))
        = results ++ extra
        /\ subseq extra (block ++ descendants_list node (S i) cs)).
    { intros mid Hsub.
      destruct (IH (S i) (results ++ mid)) as (extra & -> & Hextra).
      exists (mid ++ extra). rewrite app_assoc.
      split; [reflexivity|]. apply subseq_app; assumption. }
    destruct (node_eqb (node ++ [i]) context).
    { exists []. rewrite app_nil_r. split; [reflexivity|apply subseq_nil_l]. }
    destruct (is_prefix (node ++ [i]) context).
    + destruct (Hc (node ++ [i]) results) as (mid & Hmid & Hsub).
      destruct (walk_preceding context (node ++ [i]) c results)
        as [found results'].
      simpl in Hmid. subst results'. destruct found.
      * exists mid. split; [reflexivity|].
        apply subseq_skip. rewrite <- (app_nil_r mid).
        apply subseq_app; [exact Hsub|apply subseq_nil_l].
      * apply Hstep. apply subseq_skip. exact Hsub.
    + apply Hstep. apply subseq_refl.
Qed.

Lemma walk_preceding_adds (context : Node) (t : tree) :
  preceding_adds context t.
Proof.
  induction t as [tg attrs cs IH|d|d] using tree_induction;
    intros node results.
  - rewrite walk_preceding_element, descendants_tree_element.
    apply preceding_loop_adds. exact IH.
  - exists []. rewrite app_nil_r. split; [reflexivity|constructor].
  - exists []. rewrite app_nil_r. split; [reflexivity|constructor].
Qed.

Section Candidates.

Variable doc : list tree.

Lemma childNodes_nodup (n : Node) : NoDup (childNodes doc n).
Proof. apply nodup_map_child. apply seq_NoDup. Qed.

Lemma getDescendants_nodup (n : Node) : NoDup (getDescendants doc n).
Proof.
  apply descendants_list_nodup. apply all_distinct_descendants.
Qed.

Lemma getDescendants_shape (n x : Node) :
  In x (getDescendants doc n) -> exists j r, x = n ++ j :: r.
Proof.
  intros Hin.
  destruct (descendants_list_shape n _ (all_extend_paths _) 0 x Hin)
    as (j & r & _ & E).
  eauto.
Qed.

(** The blocks "a child, then its descendants" of distinct children are
    disjoint and free of duplicates. *)
Lemma child_blocks_nodup (n : Node) (l : list nat) :
  NoDup l ->
  NoDup (flat_map (fun child => child :: getDescendants doc child)
                  (map (fun i => n ++ [i]) l)).
Proof.
  assert (Hshape : forall i x,
    In x ((n ++ [i]) :: getDescendants doc (n ++ [i])) ->
    exists r, x = n ++ i :: r).
  { intros i x [<-|Hin]; [exists []; reflexivity|].
    apply getDescendants_shape in Hin as (j & r & ->).
    exists (j :: r). rewrite <- app_assoc. reflexivity. }
  induction 1 as [|i l Hi _ IH]; simpl; [constructor|].
  change ((n ++ [i]) :: getDescendants doc (n ++ [i]) ++ ?rest)
    with (((n ++ [i]) :: getDescendants doc (n ++ [i])) ++ rest).
  apply NoDup_app; [|exact IH|].
  - constructor; [|apply getDescendants_nodup].
    intros Hin. apply getDescendants_shape in Hin as (j & r & E).
    rewrite <- app_assoc in E.
    exact (path_not_own_extension n i (j :: r)
             ltac:(apply (f_equal (@length nat)) in E;
                   rewrite !length_app in E; simpl in E; lia)).
  - intros x Hx Hx'.
    apply Hshape in Hx as (r & ->).
    apply in_flat_map in Hx' as (child & Hchild & Hx').
    apply in_map_iff in Hchild as (i' & <- & Hi').
    apply Hshape in Hx' as (r' & E).
    apply app_inv_head in E. injection E as -> _. contradiction.
Qed.

Lemma document_order_nodup : NoDup (descendants_tree [] (root_tree doc)).
Proof. apply descendants_tree_nodup. Qed.

(** No axis lists a node twice. *)
Lemma getCandidates_nodup (a : Axis) (context : Node) :
  NoDup (getCandidates doc a context).
Proof.
  destruct a; unfold getCandidates.
  - apply childNodes_nodup.
  - destruct (N.eqb (nodeType doc context) 9);
      [|apply getDescendants_nodup].
    apply child_blocks_nodup. apply seq_NoDup.
  - constructor; [intros []|constructor].
  - destruct (N.eqb (nodeType doc context) 1); repeat constructor.
    intros [].
  - destruct (parentNode context); repeat constructor. intros [].
  - apply ancestors_rev_nodup.
  - unfold following_siblings. destruct (rev context); [constructor|].
    apply nodup_map_child. apply seq_NoDup.
  - unfold preceding_siblings. destruct (rev context); [constructor|].
    destruct (_ <? _); [|constructor].
    apply nodup_map_child. apply NoDup_rev. apply seq_NoDup.
  - destruct (walk_following_adds context (root_tree doc) [] (false, []))
      as (extra & -> & Hsub).
    cbn [snd app]. eapply subseq_nodup;
      [exact Hsub|apply document_order_nodup].
  - destruct (walk_preceding_adds context (root_tree doc) [] [])
      as (extra & -> & Hsub).
    cbn [app]. eapply subseq_nodup;
      [exact Hsub|apply document_order_nodup].
Qed.

Lemma matched_nodup (a : Axis) (context : Node) (test : NodeTest) :
  NoDup (filterByNodeTest doc (getCandidates doc a context) test).
Proof.
  destruct test; simpl; try apply NoDup_filter; apply getCandidates_nodup.
Qed.

End Candidates.

(** ** The model on the repository's own examples *)

Example following_axis :
  ref_values doc_paragraphs "//span[@id='middle']/following::p/@id"
  = Ret [js "third"; js "fourth"].
Proof. vm_compute. reflexivity. Qed.

Example preceding_axis :
  ref_values doc_paragraphs "//span[@id='middle']/preceding::p/@id"
  = Ret [js "first"; js "second"].
Proof. vm_compute. reflexivity. Qed.

Example sibling_axes :
  ref_values doc_paragraphs
             "//span/following-sibling::p[1]/@id | //span/preceding-sibling::p[1]/@id"
  = Ret [js "third"; js "second"].
Proof. vm_compute. reflexivity. Qed.

Example ancestor_and_parent :
  ref_xpath doc_paragraphs pluck "//span/ancestor::div"
  = Ret (NodeSelector [[0]] (js "//span/ancestor::div"))
  /\ ref_xpath doc_paragraphs pluck "//span/.."
     = Ret (NodeSelector [[0]] (js "//span/..")).
Proof. split; vm_compute; reflexivity. Qed.

Example substring_before :
  ref_values doc_strings "//li[substring-before(., '-')='foo']::text"
  = Ret [js "foo-bar-baz"].
Proof. vm_compute. reflexivity. Qed.

Example substring_after :
  ref_values doc_strings "//li[substring-after(., 'hello-')='world']::text"
  = Ret [js "hello-world"].
Proof. vm_compute. reflexivity. Qed.

Example translate_case :
  ref_values doc_strings "//li[translate(., 'ABC', 'abc')='abc123']::text"
  = Ret [js "ABC123"].
Proof. vm_compute. reflexivity. Qed.

Example normalize_space_and_length :
  ref_values doc_strings
             "//li[normalize-space()='spaced out' and string-length(.) > 5]::text"
  = Ret [js "spaced   out"].
Proof. vm_compute. reflexivity. Qed.

Example negation_and_contains :
  ref_values doc_strings "//li[not(contains(., '-'))][last()]::text"
  = Ret [js "spaced   out"].
Proof. vm_compute. reflexivity. Qed.

Example css_text :
  ref_getall doc_list (ref_css doc_list pluck "li::text")
  = [js "A"; js "B"; js "C"; js "D"].
Proof. vm_compute. reflexivity. Qed.

Example attribute_step :
  ref_values doc_anchors "//a/@href" = Ret [js "/x"].
Proof. vm_compute. reflexivity. Qed.

Example rejected_selector_gives_empty :
  ref_xpath doc_list pluck "//ul[1x]"
  = Ret (NodeSelector [] (js "//ul[1x]")).
Proof. vm_compute. reflexivity. Qed.

(** ** Positional predicates *)

Lemma filterM_pure {A} (p : A -> bool) (l : list A) :
  filterM (fun x => Ret (p x)) l = Ret (filter p l).
Proof.
  induction l as [|x l IH]; simpl; [reflexivity|].
  rewrite IH. simpl. reflexivity.
Qed.

Lemma filterM_ext {A} (p q : A -> res bool) (l : list A) :
  (forall x, p x = q x) -> filterM p l = filterM q l.
Proof.
  intros H. induction l as [|x l IH]; simpl; [reflexivity|].
  rewrite H, IH. reflexivity.
Qed.

Lemma node_eqb_refl (n : Node) : node_eqb n n = true.
Proof. unfold node_eqb. destruct (list_eq_dec Nat.eq_dec n n); congruence. Qed.

Lemma node_eqb_eq (a b : Node) : node_eqb a b = true <-> a = b.
Proof.
  unfold node_eqb. destruct (list_eq_dec Nat.eq_dec a b); split;
    congruence.
Qed.

Lemma indexOf_node_app (x : Node) (pre l : list Node) (i : Z) :
  ~ In x pre ->
  indexOf_node x (pre ++ x :: l) i = (i + Z.of_nat (length pre))%Z.
Proof.
  revert i. induction pre as [|y pre IH]; intros i Hnin; simpl.
  - rewrite node_eqb_refl. lia.
  - destruct (node_eqb y x) eqn:E.
    + apply node_eqb_eq in E. subst. contradiction Hnin. left. reflexivity.
    + rewrite IH; [lia|]. intros H. apply Hnin. right. exact H.
Qed.

(** Filtering a duplicate-free list on the 1-based position that [indexOf]
    reports keeps exactly the nodes at the positions that pass. *)
Lemma filter_by_position (keep : Z -> bool) (all : list Node) :
  NoDup all ->
  forall pre l,
    all = pre ++ l ->
    filter (fun node => keep (indexOf_node node all 0 + 1)%Z) l
    = select_positions keep (Z.of_nat (length pre) + 1)%Z l.
Proof.
  intros Hnd pre l. revert pre.
  induction l as [|x l IH]; intros pre Hall; simpl; [reflexivity|].
  assert (Hx : indexOf_node x all 0 = Z.of_nat (length pre)).
  { subst all. rewrite indexOf_node_app; [lia|].
    apply NoDup_remove_2 in Hnd. intros H. apply Hnd.
    apply in_or_app. left. exact H. }
  rewrite Hx.
  specialize (IH (pre ++ [x])).
  rewrite length_app in IH. simpl in IH.
  replace (Z.of_nat (length pre + 1) + 1)%Z
    with (Z.of_nat (length pre) + 1 + 1)%Z in IH by lia.
  rewrite IH; [reflexivity|].
  rewrite <- app_assoc. exact Hall.
Qed.

Section Positions.

Variable doc : list tree.
Context {provider : Attributes}.
Variable querySelectorAll : Node -> str -> option (list Node).

Let applyP := applyPredicates doc querySelectorAll.

Lemma applyPredicates_fold (preds : list Predicate) :
  forall m : res (list Node),
    fold_left
      (fun acc pred =>
         result <- acc ;;
         filterM (fun node =>
                    evaluatePredicate doc querySelectorAll node pred
                                      result) result)
      preds m
    = (r <- m ;; applyP r preds).
Proof.
  induction preds as [|p ps IH]; intros m.
  - destruct m; reflexivity.
  - simpl. rewrite IH. destruct m; simpl; try reflexivity.
    unfold applyP, applyPredicates. simpl. rewrite IH. reflexivity.
Qed.

(** Each predicate filters the list that the predicates before it left. *)
Lemma applyPredicates_cons (nodes : list Node) (p : Predicate)
    (ps : list Predicate) :
  applyP nodes (p :: ps) = (r <- applyP nodes [p] ;; applyP r ps).
Proof.
  unfold applyP at 1 2. unfold applyPredicates. simpl.
  rewrite applyPredicates_fold. reflexivity.
Qed.

Lemma applyPredicates_positional (keep : Z -> bool) (p : Predicate)
    (nodes : list Node) :
  NoDup nodes ->
  (forall node,
      evaluatePredicate doc querySelectorAll node p nodes
      = Ret (keep (indexOf_node node nodes 0 + 1)%Z)) ->
  applyP nodes [p] = Ret (select_positions keep 1 nodes).
Proof.
  intros Hnd Hp. unfold applyP, applyPredicates. simpl.
  rewrite (filterM_ext _ _ nodes Hp), filterM_pure.
  rewrite (@filter_by_position keep nodes Hnd [] nodes eq_refl).
  reflexivity.
Qed.

Lemma position_selects (nodes : list Node) (k : Z) :
  NoDup nodes ->
  applyP nodes [P_position k]
  = Ret (select_positions (fun i => (i =? k)%Z) 1 nodes).
Proof.
  intros Hnd. apply applyPredicates_positional; [exact Hnd|].
  intros node. simpl. f_equal.
  destruct (Z.eqb_spec (indexOf_node node nodes 0) (k - 1));
    destruct (Z.eqb_spec (indexOf_node node nodes 0 + 1) k);
    try reflexivity; lia.
Qed.

Lemma last_selects (nodes : list Node) :
  NoDup nodes ->
  applyP nodes [P_last]
  = Ret (select_positions (fun i => (i =? Z.of_nat (length nodes))%Z)
                          1 nodes).
Proof.
  intros Hnd. apply applyPredicates_positional; [exact Hnd|].
  intros node. simpl. f_equal.
  destruct (Z.eqb_spec (indexOf_node node nodes 0)
                       (Z.of_nat (length nodes) - 1));
    destruct (Z.eqb_spec (indexOf_node node nodes 0 + 1)
                         (Z.of_nat (length nodes)));
    try reflexivity; lia.
Qed.

Lemma position_compare_selects (nodes : list Node) (operator : CmpOp)
    (v : Z) :
  NoDup nodes ->
  applyP nodes [P_position_compare operator v]
  = Ret (select_positions (fun i => compareNumbers i operator v) 1 nodes).
Proof.
  intros Hnd. apply applyPredicates_positional; [exact Hnd|].
  intros node. reflexivity.
Qed.

End Positions.

(** C3, as amended.  Positional predicates ([n], [last()],
    [position() op n]) are 1-indexed.  Within one axis application the first
    predicate is evaluated against the node-test-filtered candidate list
    [matched] of that application, and every later predicate against the
    list that the predicates before it left; the global match set is never
    used.  On a list of four [li] elements, [//li[position() > 1]] yields
    items 2, 3, 4 in order and [//li[last()]] yields the final item. *)
Theorem position_predicates_relative_to_current_list
    (doc : list tree) {provider : Attributes}
    (querySelectorAll : Node -> str -> option (list Node))
    (a : Axis) (test : NodeTest) (context : Node)
    (Haxis : a <> ax_attribute) :
  let matched := filterByNodeTest doc (getCandidates doc a context) test in
  let step := evaluateStep_context doc querySelectorAll in
  (forall k,
      step (mkStep a test [P_position k]) (R_node context)
      = Ret (map R_node
                 (select_positions (fun i => (i =? k)%Z) 1 matched)))
  /\ step (mkStep a test [P_last]) (R_node context)
     = Ret (map R_node
                (select_positions
                   (fun i => (i =? Z.of_nat (length matched))%Z) 1 matched))
  /\ (forall operator v,
         step (mkStep a test [P_position_compare operator v])
              (R_node context)
         = Ret (map R_node
                    (select_positions
                       (fun i => compareNumbers i operator v) 1 matched)))
  /\ (forall p ps,
         step (mkStep a test (p :: ps)) (R_node context)
         = (r <- applyPredicates doc querySelectorAll matched [p] ;;
            filtered <- applyPredicates doc querySelectorAll r ps ;;
            Ret (map R_node filtered)))
  /\ ref_xpath doc_list pluck "//li[position() > 1]"
     = Ret (NodeSelector [li 1; li 2; li 3] (js "//li[position() > 1]"))
  /\ ref_xpath doc_list pluck "//li[last()]"
     = Ret (NodeSelector [li 3] (js "//li[last()]")).
Proof.
  intros matched step.
  assert (Hnodup : NoDup matched) by apply matched_nodup.
  assert (Hstep : forall preds,
    step (mkStep a test preds) (R_node context)
    = (filtered <- applyPredicates doc querySelectorAll matched preds ;;
       Ret (map R_node filtered))).
  { intros preds. subst step matched. unfold evaluateStep_context.
    destruct a; try reflexivity. contradiction Haxis. reflexivity. }
  split; [intros k; rewrite Hstep, position_selects by exact Hnodup;
          reflexivity|].
  split; [rewrite Hstep, last_selects by exact Hnodup; reflexivity|].
  split; [intros operator v;
          rewrite Hstep, position_compare_selects by exact Hnodup;
          reflexivity|].
  split.
  - intros p ps. rewrite Hstep, applyPredicates_cons.
    destruct (applyPredicates doc querySelectorAll matched [p]);
      reflexivity.
  - split; vm_compute; reflexivity.
Qed.

Lemma position_predicates_relative_to_current_list_witness :
  ax_descendant <> ax_attribute
  /\ evaluateStep_context (provider := ref_attributes)
        doc_list (ref_querySelectorAll doc_list)
        (mkStep ax_descendant (NT_name (js "li")) [P_position 2])
        (R_node [])
     = Ret [R_node (li 1)].
Proof.
  assert (Haxis : ax_descendant <> ax_attribute) by discriminate.
  split; [exact Haxis|].
  destruct (position_predicates_relative_to_current_list (provider := ref_attributes)
              doc_list (ref_querySelectorAll doc_list) ax_descendant
              (NT_name (js "li")) [] Haxis) as [Hpos _].
  rewrite Hpos. reflexivity.
Defined.

(** C3 as the spec words it (every positional predicate evaluated against
    the node-test-filtered candidate list) fails: in
    [//li[position() > 1][1]] the second predicate sees the three nodes the
    first one left, so the code selects item 2, while no node is both after
    position 1 and at position 1 of the four candidates. *)
Lemma position_candidate_list_counterexample :
  applyPredicates (provider := ref_attributes)
        doc_list (ref_querySelectorAll doc_list)
                  [li 0; li 1; li 2; li 3]
                  [P_position_compare op_gt 1; P_position 1]
  = Ret [li 1]
  /\ spec_applyPredicates (provider := ref_attributes)
        doc_list (ref_querySelectorAll doc_list)
                          [li 0; li 1; li 2; li 3]
                          [P_position_compare op_gt 1; P_position 1]
     = Ret []
  /\ ref_xpath doc_list pluck "//li[position() > 1][1]"
     = Ret (NodeSelector [li 1] (js "//li[position() > 1][1]")).
Proof.
  repeat split; vm_compute; reflexivity.
Qed.

(** ** Union: first occurrences of nodes, every string *)

Lemma existsb_filter_neq (x y : Node) (l : list Node) :
  node_eqb x y = false ->
  existsb (node_eqb x) (filter (fun z => negb (node_eqb y z)) l)
  = existsb (node_eqb x) l.
Proof.
  intros Hxy. induction l as [|z l IH]; simpl; [reflexivity|].
  destruct (node_eqb y z) eqn:Eyz; simpl.
  - apply node_eqb_eq in Eyz. subst z. rewrite Hxy. simpl. exact IH.
  - rewrite IH. reflexivity.
Qed.

Lemma existsb_first_occurrences (x : Node) (l : list Node) :
  existsb (node_eqb x) (first_occurrences l) = existsb (node_eqb x) l.
Proof.
  induction l as [|y l IH]; simpl; [reflexivity|].
  destruct (node_eqb x y) eqn:E; simpl; [reflexivity|].
  rewrite existsb_filter_neq; [exact IH|exact E].
Qed.

Lemma existsb_node_in (x : Node) (l : list Node) :
  existsb (node_eqb x) l = true <-> In x l.
Proof.
  rewrite existsb_exists. split.
  - intros (y & Hy & E). apply node_eqb_eq in E. subst. exact Hy.
  - intros H. exists x. split; [exact H|apply node_eqb_refl].
Qed.

Lemma first_occurrences_in (x : Node) (l : list Node) :
  In x (first_occurrences l) <-> In x l.
Proof.
  rewrite <- !existsb_node_in. rewrite existsb_first_occurrences.
  reflexivity.
Qed.

Lemma first_occurrences_nodup (l : list Node) : NoDup (first_occurrences l).
Proof.
  induction l as [|x l IH]; simpl; constructor.
  - intros H. apply filter_In in H as [_ H].
    rewrite node_eqb_refl in H. discriminate.
  - apply NoDup_filter. exact IH.
Qed.

Lemma first_occurrences_snoc (l : list Node) (x : Node) :
  first_occurrences (l ++ [x])
  = if existsb (node_eqb x) l then first_occurrences l
    else first_occurrences l ++ [x].
Proof.
  induction l as [|y l IH]; simpl; [reflexivity|].
  rewrite IH. destruct (node_eqb x y) eqn:Exy; simpl.
  - apply node_eqb_eq in Exy. subst y.
    destruct (existsb (node_eqb x) l); [reflexivity|].
    rewrite filter_app. simpl. rewrite node_eqb_refl. simpl.
    rewrite app_nil_r. reflexivity.
  - destruct (existsb (node_eqb x) l); [reflexivity|].
    rewrite filter_app. simpl.
    assert (Eyx : node_eqb y x = false).
    { destruct (node_eqb y x) eqn:E; [|reflexivity].
      apply node_eqb_eq in E. subst. rewrite node_eqb_refl in Exy.
      discriminate. }
    rewrite Eyx. reflexivity.
Qed.

Lemma fold_push_unseen (ns : list Node) :
  forall pre,
    fold_left push_unseen ns (first_occurrences pre, first_occurrences pre)
    = (first_occurrences (pre ++ ns), first_occurrences (pre ++ ns)).
Proof.
  induction ns as [|x ns IH]; intros pre; simpl.
  - rewrite app_nil_r. reflexivity.
  - rewrite existsb_first_occurrences.
    replace (pre ++ x :: ns) with ((pre ++ [x]) ++ ns)
      by (rewrite <- app_assoc; reflexivity).
    rewrite <- IH. rewrite first_occurrences_snoc.
    destruct (existsb (node_eqb x) pre); reflexivity.
Qed.

Lemma strings_of_app (a b : list XPathResult) :
  strings_of (a ++ b) = strings_of a ++ strings_of b.
Proof. unfold strings_of. apply flat_map_app. Qed.

Lemma nodes_of_app (a b : list XPathResult) :
  nodes_of (a ++ b) = nodes_of a ++ nodes_of b.
Proof. unfold nodes_of. apply flat_map_app. Qed.

Lemma union_push_state (st : list XPathResult * list Node)
    (done : list XPathResult) (r : XPathResult) :
  union_state st done -> union_state (union_push st r) (done ++ [r]).
Proof.
  destruct st as [allResults seen]. intros (Hs & Hn & Ht). simpl in *.
  unfold union_state. rewrite nodes_of_app, strings_of_app.
  destruct r as [n|s]; simpl.
  - rewrite first_occurrences_snoc.
    subst seen. rewrite existsb_first_occurrences.
    destruct (existsb (node_eqb n) (nodes_of done)); simpl.
    + rewrite app_nil_r. auto.
    + rewrite nodes_of_app, strings_of_app. simpl.
      rewrite Hn, Ht, app_nil_r. auto.
  - rewrite nodes_of_app, strings_of_app. simpl.
    rewrite !app_nil_r. rewrite Hn, Ht. auto.
Qed.

Lemma fold_union_push_state (rs : list XPathResult) :
  forall st done,
    union_state st done ->
    union_state (fold_left union_push rs st) (done ++ rs).
Proof.
  induction rs as [|r rs IH]; intros st done H; simpl.
  - rewrite app_nil_r. exact H.
  - replace (done ++ r :: rs) with ((done ++ [r]) ++ rs)
      by (rewrite <- app_assoc; reflexivity).
    apply IH. apply union_push_state. exact H.
Qed.

(** An expression that splits into several union parts is not blank. *)

Lemma trimStart_nil (s : str) :
  trimStart s = [] -> forallb is_space s = true.
Proof.
  induction s as [|c s IH]; simpl; [reflexivity|].
  destruct (is_space c); [exact IH|discriminate].
Qed.

Lemma trimStart_head (s : str) (c : char) (r : str) :
  trimStart s = c :: r -> is_space c = false.
Proof.
  induction s as [|x s IH]; simpl; [discriminate|].
  destruct (is_space x) eqn:E; [exact IH|].
  intros [= <- <-]. exact E.
Qed.

Lemma trimStart_snoc (s : str) (c : char) :
  is_space c = false -> trimStart (s ++ [c]) <> [].
Proof.
  intros Hc. induction s as [|x s IH]; simpl.
  - rewrite Hc. discriminate.
  - destruct (is_space x); [exact IH|discriminate].
Qed.

Lemma rev_nil_inv {A} (l : list A) : rev l = [] -> l = [].
Proof.
  destruct l as [|x l]; [reflexivity|]. simpl. intros H.
  destruct (rev l); discriminate.
Qed.

Lemma trim_nil (s : str) : trim s = [] -> forallb is_space s = true.
Proof.
  unfold trim, trimEnd. intros H. apply rev_nil_inv in H.
  apply trimStart_nil.
  destruct (trimStart s) as [|c r] eqn:E; [reflexivity|].
  apply trimStart_head in E. exfalso.
  simpl in H. revert H. apply trimStart_snoc. exact E.
Qed.

Lemma space_is_plain (c : char) :
  is_space c = true ->
  is_quote c = false /\ is_open c = false /\ is_close c = false
  /\ N.eqb 124 c = false.
Proof.
  unfold is_space, is_quote, is_open, is_close, in_range. intros H.
  repeat match goal with
         | H : (_ || _)%bool = true |- _ =>
             apply orb_true_iff in H; destruct H as [H|H]
         | H : (_ && _)%bool = true |- _ =>
             apply andb_true_iff in H; destruct H
         | H : N.leb _ _ = true |- _ => apply N.leb_le in H
         | H : N.eqb _ _ = true |- _ => apply N.eqb_eq in H
         end;
    repeat split;
    repeat match goal with
           | |- (_ || _)%bool = false => apply orb_false_iff; split
           | |- N.eqb _ _ = false => apply N.eqb_neq
           end; lia.
Qed.

Lemma split_loop_cons (operator : str) (char : char) (s' : str)
    (st : SplitState) :
  split_loop operator 0 (char :: s') st =
  match inString st with
  | Some q =>
      split_loop operator 0 s'
        (mkSplit (parts st) (current st ++ [char]) (depth st)
                 (if N.eqb char q then None else Some q))
  | None =>
      if is_quote char then
        split_loop operator 0 s'
          (mkSplit (parts st) (current st ++ [char]) (depth st) (Some char))
      else if is_open char then
        split_loop operator 0 s'
          (mkSplit (parts st) (current st ++ [char]) (depth st + 1) None)
      else if is_close char then
        split_loop operator 0 s'
          (mkSplit (parts st) (current st ++ [char]) (depth st - 1) None)
      else if (depth st =? 0)%Z && startsWith operator (char :: s') then
        split_loop operator (length operator - 1) s'
          (mkSplit (parts st ++ [trim (current st)]) [] (depth st) None)
      else
        split_loop operator 0 s'
          (mkSplit (parts st) (current st ++ [char]) (depth st) None)
  end.
Proof. reflexivity. Qed.

Lemma startsWith_bar (c : char) (s : str) :
  N.eqb 124 c = false -> startsWith (js "|") (c :: s) = false.
Proof.
  intros H. change (js "|") with [124%N]. cbn [startsWith].
  rewrite H. reflexivity.
Qed.

Lemma split_loop_spaces (s : str) :
  forallb is_space s = true ->
  forall st,
    inString st = None ->
    parts (split_loop (js "|") 0 s st) = parts st.
Proof.
  induction s as [|c s IH]; intros Hs st Hq; [reflexivity|].
  cbn [forallb] in Hs. apply andb_true_iff in Hs as [Hc Hs].
  destruct (space_is_plain c Hc) as (Q & O & C & B).
  rewrite split_loop_cons, Hq, Q, O, C, (startsWith_bar c s B), andb_false_r.
  rewrite IH; auto.
Qed.

Lemma splitUnion_blank (expr : str) :
  trim expr = [] -> length (splitUnion expr) <= 1.
Proof.
  intros H. unfold splitUnion, split_finish.
  rewrite (split_loop_spaces expr (trim_nil expr H)
                             (mkSplit [] [] 0 None) eq_refl).
  destruct (trim (current _)); rewrite ?length_app; simpl; lia.
Qed.

Section Union.

Variable doc : list tree.
Context {provider : Attributes}.
Variable querySelectorAll : Node -> str -> option (list Node).
Variable outerHTML : Node -> str.
Variable splitXPathUnion : str -> list str.

Lemma union_fold_state (contexts : list Node) (unionParts : list str)
    (rss : list (list XPathResult)) :
  Forall2 (fun part rs =>
             evaluateSingleXPath doc querySelectorAll (trim part) contexts
             = Ret rs) unionParts rss ->
  forall st done,
    union_state st done ->
    exists st',
      fold_left
        (fun acc part =>
           st <- acc ;;
           partResults <- evaluateSingleXPath doc querySelectorAll
                            (trim part) contexts ;;
           Ret (fold_left union_push partResults st))
        unionParts (Ret st) = Ret st'
      /\ union_state st' (done ++ concat rss).
Proof.
  induction 1 as [|part rs unionParts rss Hpart _ IH]; intros st done Hst.
  - simpl. rewrite app_nil_r. eauto.
  - simpl. rewrite Hpart. simpl.
    destruct (IH (fold_left union_push rs st) (done ++ rs))
      as (st' & Hfold & Hst').
    { apply fold_union_push_state. exact Hst. }
    exists st'. split; [exact Hfold|].
    rewrite app_assoc. exact Hst'.
Qed.

(** The union branch of [evaluateXPath]. *)
Lemma evaluateXPath_union (expr : str) (contexts : list Node)
    (rss : list (list XPathResult)) :
  1 < length (splitUnion expr) ->
  Forall2 (fun part rs =>
             evaluateSingleXPath doc querySelectorAll (trim part) contexts
             = Ret rs) (splitUnion expr) rss ->
  exists results,
    evaluateXPath doc querySelectorAll expr contexts = Ret results
    /\ nodes_of results = first_occurrences (nodes_of (concat rss))
    /\ strings_of results = strings_of (concat rss).
Proof.
  intros Hmany Hparts. unfold evaluateXPath.
  destruct (trim expr) as [|c t] eqn:Et.
  { apply splitUnion_blank in Et. lia. }
  apply Nat.ltb_lt in Hmany. rewrite Hmany.
  assert (Hinit : union_state ([], []) []) by (repeat split).
  destruct (union_fold_state _ _ _ Hparts _ _ Hinit) as (st' & -> & Hs & Hn & Ht).
  simpl. exists (fst st'). auto.
Qed.

(** The union loop of [Selector.xpath] when no part evaluates to
    [null]. *)
Lemma xpath_union_loop_result (this : Selector) (unionParts : list str)
    (prs : list PartResult) :
  Forall2 (fun part pr =>
             Selector_evaluateSingleXPath doc querySelectorAll outerHTML
                                          this (trim part)
             = Ret (Some pr)) unionParts prs ->
  forall allStrings pre,
    xpath_union_loop doc querySelectorAll outerHTML this unionParts
                     allStrings
                     (first_occurrences pre, first_occurrences pre)
    = Ret (Some (allStrings ++ concat (map part_strings prs),
                 first_occurrences
                   (pre ++ concat (map part_nodes prs)))).
Proof.
  induction 1 as [|part pr unionParts prs Hpart _ IH];
    intros allStrings pre; simpl.
  - rewrite !app_nil_r. reflexivity.
  - rewrite Hpart. simpl. destruct pr as [values|nodes]; simpl.
    + rewrite IH, app_assoc. reflexivity.
    + rewrite fold_push_unseen, IH, app_assoc. reflexivity.
Qed.

Lemma xpath_union_result (this : Selector) (q : str)
    (prs : list PartResult) :
  1 < length (splitXPathUnion q) ->
  Forall2 (fun part pr =>
             Selector_evaluateSingleXPath doc querySelectorAll outerHTML
                                          this (trim part)
             = Ret (Some pr)) (splitXPathUnion q) prs ->
  xpath doc querySelectorAll outerHTML splitXPathUnion this q
  = Ret (if 0 <? length (concat (map part_strings prs))
         then TextSelector (concat (map part_strings prs)) q
         else NodeSelector
                (first_occurrences (concat (map part_nodes prs))) q).
Proof.
  intros Hmany Hparts. unfold xpath.
  apply Nat.ltb_lt in Hmany. rewrite Hmany.
  pose proof (xpath_union_loop_result _ _ _ Hparts [] []) as Hloop.
  cbn [first_occurrences app] in Hloop. rewrite Hloop. cbn [bind].
  destruct (0 <? length (concat (map part_strings prs))); reflexivity.
Qed.

(** Whatever the parts evaluate to, the node list that the union branch of
    [Selector.xpath] returns has no duplicates. *)
Lemma xpath_union_loop_first_occurrences (this : Selector)
    (unionParts : list str) :
  forall allStrings pre strings nodes,
    xpath_union_loop doc querySelectorAll outerHTML this unionParts
                     allStrings
                     (first_occurrences pre, first_occurrences pre)
    = Ret (Some (strings, nodes)) ->
    exists l, nodes = first_occurrences l.
Proof.
  induction unionParts as [|part rest IH];
    intros allStrings pre strings nodes H; simpl in H.
  - injection H as _ <-. exists pre. reflexivity.
  - destruct (Selector_evaluateSingleXPath doc querySelectorAll outerHTML
                                           this (trim part))
      as [[[values|ns]|]| |]; simpl in H; try discriminate.
    + eapply IH. exact H.
    + rewrite fold_push_unseen in H. eapply IH. exact H.
Qed.

Lemma xpath_union_nodup (this : Selector) (q : str) (s' : Selector) :
  1 < length (splitXPathUnion q) ->
  xpath doc querySelectorAll outerHTML splitXPathUnion this q = Ret s' ->
  NoDup (base_nodes s').
Proof.
  intros Hmany. unfold xpath. apply Nat.ltb_lt in Hmany. rewrite Hmany.
  destruct (xpath_union_loop doc querySelectorAll outerHTML this
                             (splitXPathUnion q) [] ([], []))
    as [[[strings nodes]|]| |] eqn:E; simpl; try discriminate.
  - destruct (0 <? length strings); intros [= <-]; simpl;
      [constructor|].
    destruct (xpath_union_loop_first_occurrences this _ [] [] _ _ E)
      as [l ->].
    apply first_occurrences_nodup.
  - intros [= <-]. constructor.
Qed.

End Union.

(** ** [//h1] and its union with itself, on every document *)

Lemma first_occurrences_nodup_id (l : list Node) :
  NoDup l -> first_occurrences l = l.
Proof.
  induction 1 as [|x l Hx _ IH]; simpl; [reflexivity|].
  rewrite IH. f_equal.
  apply forallb_filter_id. apply forallb_forall. intros y Hy.
  destruct (node_eqb x y) eqn:E; [|reflexivity].
  apply node_eqb_eq in E. subst. contradiction.
Qed.

Lemma first_occurrences_absorb (a b : list Node) :
  (forall x, In x b -> In x a) ->
  first_occurrences (a ++ b) = first_occurrences a.
Proof.
  revert a. induction b as [|x b IH]; intros a Hin.
  - rewrite app_nil_r. reflexivity.
  - replace (a ++ x :: b) with ((a ++ [x]) ++ b)
      by (rewrite <- app_assoc; reflexivity).
    rewrite IH.
    + rewrite first_occurrences_snoc.
      replace (existsb (node_eqb x) a) with true; [reflexivity|].
      symmetry. apply existsb_node_in. apply Hin. left. reflexivity.
    + intros y Hy. apply in_or_app. left. apply Hin. right. exact Hy.
Qed.

Lemma strings_of_nodes (l : list Node) : strings_of (map R_node l) = [].
Proof. induction l; simpl; auto. Qed.

Lemma nodes_of_nodes (l : list Node) : nodes_of (map R_node l) = l.
Proof. induction l; simpl; congruence. Qed.

Section Headings.

Variable doc : list tree.
Context {provider : Attributes}.
Variable querySelectorAll : Node -> str -> option (list Node).
Variable outerHTML : Node -> str.

Let h1s : list Node := elements_named doc (js "h1").

Lemma evaluateXPath_h1 :
  evaluateXPath doc querySelectorAll (js "//h1") [[]]
  = Ret (map R_node h1s).
Proof.
  unfold evaluateXPath.
  replace (trim (js "//h1")) with (js "//h1") by (vm_compute; reflexivity).
  replace (splitUnion (js "//h1")) with [js "//h1"]
    by (vm_compute; reflexivity).
  cbn [js map list_ascii_of_string length Nat.ltb Nat.leb].
  unfold evaluateSingleXPath.
  replace (parseXPath _)
    with (Ret ([mkStep ax_descendant (NT_name (js "h1")) []],
               @nil LogEntry))
    by (vm_compute; reflexivity).
  cbn [bind fold_left map evaluateStep evaluateStep_context axis nodeTest
       predicates applyPredicates app].
  reflexivity.
Qed.

Lemma Selector_h1 :
  Selector_evaluateSingleXPath doc querySelectorAll outerHTML pluck
                               (js "//h1")
  = Ret (Some (PR_nodes h1s)).
Proof.
  unfold Selector_evaluateSingleXPath.
  replace (parseXPathPseudo (js "//h1"))
    with (mkParsed (js "//h1") ex_node None) by (vm_compute; reflexivity).
  cbn [query base_nodes pluck]. rewrite evaluateXPath_h1.
  unfold pack_results. rewrite strings_of_nodes, nodes_of_nodes.
  reflexivity.
Qed.

Lemma Selector_h1_text :
  Selector_evaluateSingleXPath doc querySelectorAll outerHTML pluck
                               (js "//h1::text")
  = Ret (Some (PR_strings
                 (extract_all doc outerHTML h1s
                              (mkParsed (js "//h1") ex_text None)))).
Proof.
  unfold Selector_evaluateSingleXPath.
  replace (parseXPathPseudo (js "//h1::text"))
    with (mkParsed (js "//h1") ex_text None) by (vm_compute; reflexivity).
  cbn [query base_nodes pluck]. rewrite evaluateXPath_h1.
  unfold pack_results. rewrite strings_of_nodes, nodes_of_nodes.
  reflexivity.
Qed.

(** From the root of any document, [//h1 | //h1] selects the node list of
    [//h1], while [//h1::text | //h1::text] yields every text of
    [//h1::text] twice (and the empty node Selector when there is none). *)
Lemma union_with_itself :
  let texts := extract_all doc outerHTML h1s
                           (mkParsed (js "//h1") ex_text None) in
  let run := xpath doc querySelectorAll outerHTML ref_splitXPathUnion pluck in
  run (js "//h1") = Ret (NodeSelector h1s (js "//h1"))
  /\ run (js "//h1 | //h1") = Ret (NodeSelector h1s (js "//h1 | //h1"))
  /\ run (js "//h1::text") = Ret (TextSelector texts (js "//h1::text"))
  /\ run (js "//h1::text | //h1::text")
     = Ret (match texts with
            | [] => NodeSelector [] (js "//h1::text | //h1::text")
            | _ :: _ =>
                TextSelector (texts ++ texts)
                             (js "//h1::text | //h1::text")
            end).
Proof.
  intros texts run. subst run.
  assert (Hsingle : forall q,
    ref_splitXPathUnion q = [q] ->
    xpath doc querySelectorAll outerHTML ref_splitXPathUnion pluck q
    = (result <- Selector_evaluateSingleXPath doc querySelectorAll
                   outerHTML pluck q ;;
       match result with
       | None => Ret (NodeSelector [] q)
       | Some (PR_strings values) => Ret (TextSelector values q)
       | Some (PR_nodes nodes) => Ret (NodeSelector nodes q)
       end)).
  { intros q Hq. unfold xpath. rewrite Hq. reflexivity. }
  split; [|split; [|split]].
  - rewrite Hsingle by (vm_compute; reflexivity).
    rewrite Selector_h1. reflexivity.
  - rewrite (xpath_union_result doc querySelectorAll outerHTML
               ref_splitXPathUnion pluck (js "//h1 | //h1")
               [PR_nodes h1s; PR_nodes h1s]).
    + cbn [map part_strings part_nodes concat app length Nat.ltb Nat.leb].
      rewrite app_nil_r, first_occurrences_absorb by auto.
      rewrite first_occurrences_nodup_id by apply matched_nodup.
      reflexivity.
    + vm_compute. lia.
    + replace (ref_splitXPathUnion (js "//h1 | //h1"))
        with [js "//h1"; js "//h1"] by (vm_compute; reflexivity).
      replace (trim (js "//h1")) with (js "//h1")
        by (vm_compute; reflexivity).
      repeat constructor; apply Selector_h1.
  - rewrite Hsingle by (vm_compute; reflexivity).
    rewrite Selector_h1_text. reflexivity.
  - rewrite (xpath_union_result doc querySelectorAll outerHTML
               ref_splitXPathUnion pluck (js "//h1::text | //h1::text")
               [PR_strings texts; PR_strings texts]).
    + cbn [map part_strings part_nodes concat app].
      rewrite app_nil_r. destruct texts; reflexivity.
    + vm_compute. lia.
    + replace (ref_splitXPathUnion (js "//h1::text | //h1::text"))
        with [js "//h1::text"; js "//h1::text"]
        by (vm_compute; reflexivity).
      replace (trim (js "//h1::text")) with (js "//h1::text")
        by (vm_compute; reflexivity).
      repeat constructor; apply Selector_h1_text.
Qed.

End Headings.

(** ** Union of node results and of string results *)

(** C4. When an expression splits into several parts at [|] (bracket and
    quote depth 0), the node results of the parts are merged keeping the
    first occurrence of each node, in first-seen order, and string results
    are concatenated with nothing removed; this holds for the union branch
    of [evaluateXPath] and for [Selector.xpath].  From the root of every
    document [//h1 | //h1] yields the node list of [//h1], and
    [//h1::text | //h1::text] yields each text of [//h1::text] twice. *)
Theorem union_dedups_nodes_keeps_strings
    (doc : list tree) {provider : Attributes}
    (querySelectorAll : Node -> str -> option (list Node))
    (outerHTML : Node -> str) (splitXPathUnion : str -> list str)
    (expr : str) (contexts : list Node) (rss : list (list XPathResult))
    (this : Selector) (q : str) (prs : list PartResult)
    (Hexpr : 1 < length (splitUnion expr))
    (Hrss : Forall2 (fun part rs =>
                       evaluateSingleXPath doc querySelectorAll (trim part)
                                           contexts = Ret rs)
                    (splitUnion expr) rss)
    (Hq : 1 < length (splitXPathUnion q))
    (Hprs : Forall2 (fun part pr =>
                       Selector_evaluateSingleXPath doc querySelectorAll
                         outerHTML this (trim part) = Ret (Some pr))
                    (splitXPathUnion q) prs) :
  (exists results,
      evaluateXPath doc querySelectorAll expr contexts = Ret results
      /\ nodes_of results = first_occurrences (nodes_of (concat rss))
      /\ strings_of results = strings_of (concat rss))
  /\ (concat (map part_strings prs) = [] ->
      xpath doc querySelectorAll outerHTML splitXPathUnion this q
      = Ret (NodeSelector (first_occurrences (concat (map part_nodes prs)))
                          q))
  /\ (concat (map part_strings prs) <> [] ->
      xpath doc querySelectorAll outerHTML splitXPathUnion this q
      = Ret (TextSelector (concat (map part_strings prs)) q))
  /\ (forall s',
         xpath doc querySelectorAll outerHTML splitXPathUnion this q = Ret s'
         -> NoDup (base_nodes s'))
  /\ (forall l, NoDup (first_occurrences l)
                /\ forall n, In n (first_occurrences l) <-> In n l)
  /\ (let h1s := elements_named doc (js "h1") in
      let texts := extract_all doc outerHTML h1s
                               (mkParsed (js "//h1") ex_text None) in
      let run :=
        xpath doc querySelectorAll outerHTML ref_splitXPathUnion pluck in
      run (js "//h1") = Ret (NodeSelector h1s (js "//h1"))
      /\ run (js "//h1 | //h1")
         = Ret (NodeSelector h1s (js "//h1 | //h1"))
      /\ run (js "//h1::text")
         = Ret (TextSelector texts (js "//h1::text"))
      /\ run (js "//h1::text | //h1::text")
         = Ret (match texts with
                | [] => NodeSelector [] (js "//h1::text | //h1::text")
                | _ :: _ =>
                    TextSelector (texts ++ texts)
                                 (js "//h1::text | //h1::text")
                end))
  /\ ref_xpath doc_article pluck "//h1 | //h1"
     = Ret (NodeSelector [[0; 0]] (js "//h1 | //h1"))
  /\ ref_xpath doc_article pluck "//h1::text | //h1::text"
     = Ret (TextSelector [js "Title"; js "Title"]
                         (js "//h1::text | //h1::text")).
Proof.
  split; [apply evaluateXPath_union; assumption|].
  pose proof (xpath_union_result _ _ _ _ _ _ _ Hq Hprs) as Hx.
  split; [|split].
  - intros E. rewrite Hx, E. reflexivity.
  - intros E. rewrite Hx.
    destruct (concat (map part_strings prs)); [contradiction|reflexivity].
  - split; [intros s'; apply xpath_union_nodup; exact Hq|]. split.
    + intros l. split; [apply first_occurrences_nodup|].
      intros n. apply first_occurrences_in.
    + split; [apply union_with_itself|].
      split; vm_compute; reflexivity.
Qed.

Lemma union_dedups_nodes_keeps_strings_witness :
  evaluateXPath (provider := ref_attributes)
        doc_article (ref_querySelectorAll doc_article)
                (js "//h1 | //h1") [[]]
  = Ret [R_node [0; 0]]
  /\ xpath (provider := ref_attributes)
        doc_article (ref_querySelectorAll doc_article)
           (ref_outerHTML doc_article) ref_splitXPathUnion pluck
           (js "//h1 | //h1")
     = Ret (NodeSelector [[0; 0]] (js "//h1 | //h1")).
Proof.
  assert (Esplit : splitUnion (js "//h1 | //h1") = [js "//h1"; js "//h1"])
    by (vm_compute; reflexivity).
  assert (Hexpr : 1 < length (splitUnion (js "//h1 | //h1")))
    by (rewrite Esplit; simpl; lia).
  assert (Hrss :
    Forall2 (fun part rs =>
               evaluateSingleXPath (provider := ref_attributes) doc_article
                 (ref_querySelectorAll doc_article) (trim part) [[]]
               = Ret rs)
            (splitUnion (js "//h1 | //h1"))
            [[R_node [0; 0]]; [R_node [0; 0]]]).
  { rewrite Esplit. repeat constructor; vm_compute; reflexivity. }
  assert (Hprs :
    Forall2 (fun part pr =>
               Selector_evaluateSingleXPath (provider := ref_attributes)
                     doc_article
                 (ref_querySelectorAll doc_article)
                 (ref_outerHTML doc_article) pluck (trim part)
               = Ret (Some pr))
            (ref_splitXPathUnion (js "//h1 | //h1"))
            [PR_nodes [[0; 0]]; PR_nodes [[0; 0]]]).
  { unfold ref_splitXPathUnion. rewrite Esplit.
    repeat constructor; vm_compute; reflexivity. }
  destruct (union_dedups_nodes_keeps_strings (provider := ref_attributes)
              doc_article (ref_querySelectorAll doc_article)
              (ref_outerHTML doc_article) ref_splitXPathUnion
              _ _ _ _ _ _ Hexpr Hrss Hexpr Hprs)
    as ((results & Heval & Hnodes & Hstrings) & Hsel & _).
  split; [|apply Hsel; reflexivity].
  vm_compute. reflexivity.
Defined.

(** C9. If the parts of a union query yield both strings and nodes, the
    Selector that [xpath] returns holds the strings only: as soon as one
    part yields a string every node result is discarded.  The same
    preference is applied to the result list of a single expression. *)
Theorem union_prefers_strings
    (doc : list tree) {provider : Attributes}
    (querySelectorAll : Node -> str -> option (list Node))
    (outerHTML : Node -> str) (splitXPathUnion : str -> list str)
    (this : Selector) (q : str) (prs : list PartResult)
    (parsed : ParsedSelector) (xpathResults : list XPathResult)
    (Hq : 1 < length (splitXPathUnion q))
    (Hprs : Forall2 (fun part pr =>
                       Selector_evaluateSingleXPath doc querySelectorAll
                         outerHTML this (trim part) = Ret (Some pr))
                    (splitXPathUnion q) prs) :
  ((exists pr s, In pr prs /\ In s (part_strings pr)) ->
   xpath doc querySelectorAll outerHTML splitXPathUnion this q
   = Ret (TextSelector (concat (map part_strings prs)) q))
  /\ (strings_of xpathResults <> [] ->
      pack_results doc outerHTML parsed xpathResults
      = PR_strings (strings_of xpathResults))
  /\ pack_results doc outerHTML (mkParsed q ex_node None)
                  [R_node [0]; R_string q; R_node [1]]
     = PR_strings [q]
  /\ ref_xpath doc_article pluck "//h1::text | //h2"
     = Ret (TextSelector [js "Title"] (js "//h1::text | //h2"))
  /\ ref_xpath doc_article pluck "//h2 | //h1::text"
     = Ret (TextSelector [js "Title"] (js "//h2 | //h1::text")).
Proof.
  split; [|split].
  - intros (pr & s & Hpr & Hs).
    rewrite (xpath_union_result _ _ _ _ _ _ _ Hq Hprs).
    assert (Hin : In s (concat (map part_strings prs))).
    { apply in_concat. exists (part_strings pr). split; [|exact Hs].
      apply in_map. exact Hpr. }
    destruct (concat (map part_strings prs)); [destruct Hin|reflexivity].
  - intros Hne. unfold pack_results.
    destruct (strings_of xpathResults); [contradiction|reflexivity].
  - split; [reflexivity|]. split; vm_compute; reflexivity.
Qed.

Lemma union_prefers_strings_witness :
  (exists pr s, In pr [PR_strings [js "Title"]; PR_nodes [[0; 1]]]
                /\ In s (part_strings pr))
  /\ xpath (provider := ref_attributes)
        doc_article (ref_querySelectorAll doc_article)
           (ref_outerHTML doc_article) ref_splitXPathUnion pluck
           (js "//h1::text | //h2")
     = Ret (TextSelector [js "Title"] (js "//h1::text | //h2")).
Proof.
  assert (Esplit : ref_splitXPathUnion (js "//h1::text | //h2")
                   = [js "//h1::text"; js "//h2"])
    by (vm_compute; reflexivity).
  assert (Hq : 1 < length (ref_splitXPathUnion (js "//h1::text | //h2")))
    by (rewrite Esplit; simpl; lia).
  assert (Hprs :
    Forall2 (fun part pr =>
               Selector_evaluateSingleXPath (provider := ref_attributes)
                     doc_article
                 (ref_querySelectorAll doc_article)
                 (ref_outerHTML doc_article) pluck (trim part)
               = Ret (Some pr))
            (ref_splitXPathUnion (js "//h1::text | //h2"))
            [PR_strings [js "Title"]; PR_nodes [[0; 1]]]).
  { rewrite Esplit. repeat constructor; vm_compute; reflexivity. }
  assert (Hsome : exists pr s,
             In pr [PR_strings [js "Title"]; PR_nodes [[0; 1]]]
             /\ In s (part_strings pr)).
  { exists (PR_strings [js "Title"]), (js "Title").
    split; left; reflexivity. }
  split; [exact Hsome|].
  destruct (union_prefers_strings (provider := ref_attributes)
              doc_article (ref_querySelectorAll doc_article)
              (ref_outerHTML doc_article) ref_splitXPathUnion pluck _ _
              (mkParsed [] ex_node None) [] Hq Hprs) as [Hx _].
  rewrite (Hx Hsome). reflexivity.
Defined.

(** ** Attribute predicates on an element without the attribute *)

(** C5, as amended.  On an element, an attribute predicate reads the
    answers of the tree provider.  The existence check is [hasAttribute].
    Where [getAttribute] answers null, equality is false for every literal,
    the empty one included, inequality is true for every literal, and
    [contains], [starts-with] and [ends-with] give what they give on the
    empty string.  Where [getAttribute] answers a string, the five
    comparisons are made with that string, whatever [hasAttribute] says. *)
Theorem missing_attribute_predicates
    (doc : list tree) {provider : Attributes}
    (querySelectorAll : Node -> str -> option (list Node))
    (node : Node) (name : str) (allNodes : list Node)
    (Helement : nodeType doc node = 1%N) :
  let holds p := evaluatePredicate doc querySelectorAll node p allNodes in
  holds (P_attr_exists name) = Ret (hasAttribute doc node name)
  /\ (getAttribute doc node name = None ->
      (forall value, holds (P_attr_equals name value) = Ret false)
      /\ (forall value, holds (P_attr_not_equals name value) = Ret true)
      /\ (forall value,
             holds (P_attr_contains name value) = Ret (includes value [])
             /\ holds (P_attr_starts_with name value)
                = Ret (startsWith value [])
             /\ holds (P_attr_ends_with name value)
                = Ret (endsWith value [])))
  /\ (forall v,
         getAttribute doc node name = Some v ->
         forall value,
           holds (P_attr_equals name value) = Ret (str_eqb v value)
           /\ holds (P_attr_not_equals name value)
              = Ret (negb (str_eqb v value))
           /\ holds (P_attr_contains name value) = Ret (includes value v)
           /\ holds (P_attr_starts_with name value)
              = Ret (startsWith value v)
           /\ holds (P_attr_ends_with name value)
              = Ret (endsWith value v)).
Proof.
  intros holds. subst holds. cbn [evaluatePredicate].
  unfold attr_is, attr_or_empty. rewrite Helement. cbn [N.eqb Pos.eqb andb].
  split; [reflexivity|]. split.
  - intros Hnull. rewrite Hnull. repeat split.
  - intros v Hv value. rewrite Hv. repeat split.
Qed.

Lemma missing_attribute_predicates_witness :
  nodeType doc_anchors [0] = 1%N
  /\ evaluatePredicate (provider := ref_attributes) doc_anchors
                       (ref_querySelectorAll doc_anchors) [0]
                       (P_attr_exists (js "name")) []
     = Ret false.
Proof.
  assert (H1 : nodeType doc_anchors [0] = 1%N) by reflexivity.
  split; [exact H1|].
  exact (proj1 (missing_attribute_predicates (provider := ref_attributes)
                  doc_anchors (ref_querySelectorAll doc_anchors) [0]
                  (js "name") [] H1)).
Defined.

(** C5 as the spec words it fails for equality and inequality: on the
    anchor without a [name] attribute, for which [getAttribute] answers
    null, [[@name='']] is false and [[@name!='']] is true, and
    [//a[@name='']] selects only the anchor whose [name] is the empty
    string. *)
Lemma missing_attribute_equality_counterexample :
  nodeType doc_anchors [0] = 1%N
  /\ hasAttribute (provider := ref_attributes) doc_anchors [0] (js "name")
     = false
  /\ getAttribute (provider := ref_attributes) doc_anchors [0] (js "name")
     = None
  /\ evaluatePredicate (provider := ref_attributes) doc_anchors
                       (ref_querySelectorAll doc_anchors) [0]
                       (P_attr_equals (js "name") []) []
     = Ret false
  /\ evaluatePredicate (provider := ref_attributes) doc_anchors
                       (ref_querySelectorAll doc_anchors) [0]
                       (P_attr_not_equals (js "name") []) []
     = Ret true
  /\ parsePredicateContent (js "@name=''")
     = Ret (Some (P_attr_equals (js "name") []))
  /\ ref_xpath doc_anchors pluck "//a[@name='']"
     = Ret (NodeSelector [[1]] (js "//a[@name='']")).
Proof.
  repeat split; vm_compute; reflexivity.
Qed.

(** ** get and getall *)

(** C7. When [ok] is false, [get(d)] is [d] for every default [d]; and
    [get()] without a default is the first value of [getall()] if there is
    one and null otherwise.  [get] is a total function: it does not raise. *)
Theorem get_default_and_first
    (doc : list tree) (outerHTML : Node -> str) (s : Selector) (d : str) :
  (ok s = false -> get doc outerHTML s (Some d) = Some d)
  /\ get doc outerHTML s None = hd_error (getall doc outerHTML s)
  /\ (forall v rest, getall doc outerHTML s = v :: rest ->
                     get doc outerHTML s (Some d) = Some v).
Proof.
  destruct s as [nodes q|values q]; simpl.
  - split; [|split].
    + destruct nodes; [reflexivity|discriminate].
    + destruct (filter _ _); reflexivity.
    + intros v rest ->. reflexivity.
  - split; [|split].
    + destruct values; [reflexivity|discriminate].
    + destruct values; reflexivity.
    + intros v rest ->. reflexivity.
Qed.

Lemma get_default_and_first_witness :
  ok (NodeSelector [] (js "//nothing")) = false
  /\ get doc_article (ref_outerHTML doc_article)
         (NodeSelector [] (js "//nothing")) (Some (js "none"))
     = Some (js "none").
Proof.
  split; [reflexivity|].
  apply (get_default_and_first doc_article (ref_outerHTML doc_article)
           (NodeSelector [] (js "//nothing")) (js "none")).
  reflexivity.
Defined.

(** C10. [getall()] of a node Selector holds exactly the non-empty values
    of its nodes; so a Selector whose nodes all have an empty value, such
    as text nodes of white space, has [ok] true and a positive [count]
    while [getall()] is empty and [get(d)] is the default.  [//p/text()] on
    the article is such a Selector. *)
Theorem getall_drops_empty_values
    (doc : list tree) (outerHTML : Node -> str) (nodes : list Node)
    (q : str) :
  (forall v,
      In v (getall doc outerHTML (NodeSelector nodes q))
      <-> v <> [] /\ exists n, In n nodes /\ node_value doc outerHTML n = v)
  /\ (nodes <> [] ->
      (forall n, In n nodes -> node_value doc outerHTML n = []) ->
      ok (NodeSelector nodes q) = true
      /\ 0 < count (NodeSelector nodes q)
      /\ getall doc outerHTML (NodeSelector nodes q) = []
      /\ forall d, get doc outerHTML (NodeSelector nodes q) d = d)
  /\ ref_xpath doc_article pluck "//p/text()"
     = Ret (NodeSelector [[0; 2; 0]] (js "//p/text()"))
  /\ ref_getall doc_article (NodeSelector [[0; 2; 0]] (js "//p/text()"))
     = [].
Proof.
  split; [|split].
  - intros v. simpl. rewrite filter_In, in_map_iff. split.
    + intros [(n & Hn & Hin) Hv]. split; [|eauto].
      intros ->. discriminate.
    + intros [Hv (n & Hin & Hn)]. split; [eauto|].
      destruct v; [contradiction|reflexivity].
  - intros Hne Hall.
    assert (Hg : getall doc outerHTML (NodeSelector nodes q) = []).
    { simpl. clear Hne. induction nodes as [|n nodes IH]; [reflexivity|].
      simpl. rewrite (Hall n (or_introl eq_refl)). simpl.
      apply IH. intros m Hm. apply Hall. right. exact Hm. }
    destruct nodes as [|n nodes]; [contradiction|].
    repeat split; try exact Hg; [simpl; lia|].
    intros d. unfold get. rewrite Hg. reflexivity.
  - split; vm_compute; reflexivity.
Qed.

Lemma getall_drops_empty_values_witness :
  [[0; 2; 0]] <> ([] : list Node)
  /\ (forall n, In n [[0; 2; 0]] ->
                node_value doc_article (ref_outerHTML doc_article) n = [])
  /\ ok (NodeSelector [[0; 2; 0]] (js "//p/text()")) = true
  /\ get doc_article (ref_outerHTML doc_article)
         (NodeSelector [[0; 2; 0]] (js "//p/text()")) (Some (js "none"))
     = Some (js "none").
Proof.
  assert (Hne : [[0; 2; 0]] <> ([] : list Node)) by discriminate.
  assert (Hall : forall n, In n [[0; 2; 0]] ->
            node_value doc_article (ref_outerHTML doc_article) n = []).
  { intros n [<-|[]]. reflexivity. }
  destruct (getall_drops_empty_values
              doc_article (ref_outerHTML doc_article) [[0; 2; 0]]
              (js "//p/text()")) as (_ & Hempty & _).
  destruct (Hempty Hne Hall) as (Hok & _ & _ & Hget).
  split; [exact Hne|]. split; [exact Hall|].
  split; [exact Hok|apply Hget].
Defined.

(** ** html and outerHtml *)




(** ** Regular-expression projection *)

(** C6 fails on the code.  The pattern [\d+(?:px)] has no capturing group,
    so [re] should emit the full matches; but its source contains a
    parenthesis and does not begin with [(?:], so [extractRegex] takes the
    capturing-group branch, finds no group in the match and emits nothing.
    The two hypotheses say what any engine reports for this pattern on
    [10px]: one match, the whole text, with no groups, and none after it. *)
Theorem extractRegex_noncapturing_group_drops_matches
    (RegExp_new : str -> str -> res RegExp)
    (search : RegExp -> str -> nat -> option RegExpMatch)
    (Hfirst : search (mkRegExp px_source (js "g")) (js "10px") 0
              = Some (mkMatch 0 (js "10px") []))
    (Hnone : search (mkRegExp px_source (js "g")) (js "10px") 4 = None) :
  extractRegex RegExp_new search (inl (mkRegExp px_source (js "g")))
               (js "10px")
  = Ret []
  /\ match_all search 6 (mkRegExp px_source (js "g")) (js "10px") 0 []
     = Ret [js "10px"].
Proof.
  split.
  - unfold extractRegex. cbn [bind].
    replace (includes (js "g") (flags (mkRegExp px_source (js "g"))))
      with true by (vm_compute; reflexivity).
    cbn [bind].
    replace (includes (js "(") (source (mkRegExp px_source (js "g")))
             && negb (startsWith (js "(?:")
                                 (source (mkRegExp px_source (js "g")))))
      with true by (vm_compute; reflexivity).
    change (length (js "10px") + 2) with 6.
    cbn [exec_loop]. rewrite Hfirst.
    change (index (mkMatch 0 (js "10px") [])
            + length (match0 (mkMatch 0 (js "10px") []))) with 4.
    rewrite Hnone. reflexivity.
  - cbn [match_all]. rewrite Hfirst.
    change (index (mkMatch 0 (js "10px") [])
            + length (match0 (mkMatch 0 (js "10px") []))) with 4.
    change (length (match0 (mkMatch 0 (js "10px") [])) =? 0) with false.
    cbn iota. rewrite Hnone. reflexivity.
Qed.

(** A further defect of the same loop: [exec] does not move [lastIndex]
    past an empty match, so the loop finds the same empty match again and
    does not end by itself, whatever the budget. *)
Lemma exec_loop_stuck_on_empty_match
    (search : RegExp -> str -> nat -> option RegExpMatch)
    (r : RegExp) (text : str) (i : nat) (m : RegExpMatch) :
  search r text i = Some m -> index m = i -> match0 m = [] ->
  forall fuel results, exec_loop search fuel r text i results = Timeout.
Proof.
  intros Hm Hi H0. induction fuel as [|n IH]; intros results; simpl.
  - reflexivity.
  - rewrite Hm, Hi, H0. simpl. rewrite Nat.add_0_r. apply IH.
Qed.

Lemma extractRegex_noncapturing_group_drops_matches_witness :
  px_search (mkRegExp px_source (js "g")) (js "10px") 0
  = Some (mkMatch 0 (js "10px") [])
  /\ px_search (mkRegExp px_source (js "g")) (js "10px") 4 = None
  /\ extractRegex px_new px_search (inl (mkRegExp px_source (js "g")))
                  (js "10px")
     = Ret [].
Proof.
  assert (H0 : px_search (mkRegExp px_source (js "g")) (js "10px") 0
               = Some (mkMatch 0 (js "10px") []))
    by (vm_compute; reflexivity).
  assert (H4 : px_search (mkRegExp px_source (js "g")) (js "10px") 4 = None)
    by (vm_compute; reflexivity).
  split; [exact H0|]. split; [exact H4|].
  apply (extractRegex_noncapturing_group_drops_matches px_new px_search
           H0 H4).
Defined.

(** ** A reachable Selector *)

Lemma ok_iff_count_positive_witness :
  reachable (provider := ref_attributes)
        doc_list (ref_querySelectorAll doc_list) (ref_outerHTML doc_list)
            ref_splitXPathUnion
            (first (NodeSelector [li 1; li 2; li 3]
                                 (js "//li[position() > 1]")))
  /\ ok (first (NodeSelector [li 1; li 2; li 3]
                             (js "//li[position() > 1]")))
     = (0 <? count (first (NodeSelector [li 1; li 2; li 3]
                                         (js "//li[position() > 1]")))).
Proof.
  assert (Hreach :
    reachable (provider := ref_attributes) doc_list
              (ref_querySelectorAll doc_list)
              (ref_outerHTML doc_list) ref_splitXPathUnion
              (first (NodeSelector [li 1; li 2; li 3]
                                   (js "//li[position() > 1]")))).
  { apply reach_first.
    apply (@reach_xpath doc_list ref_attributes
             (ref_querySelectorAll doc_list)
             (ref_outerHTML doc_list) ref_splitXPathUnion pluck
             (js "//li[position() > 1]")).
    - apply reach_construct.
    - vm_compute. reflexivity. }
  split; [exact Hreach|].
  apply (ok_iff_count_positive (provider := ref_attributes)
        doc_list (ref_querySelectorAll doc_list)
           (ref_outerHTML doc_list) ref_splitXPathUnion _ Hreach).
Defined.

(** ** Slicing a Selector: first, last, eq, toArray *)

Lemma at_index_of_nat {A} (l : list A) (k : nat) :
  at_index l (Z.of_nat k) = nth_error l k.
Proof.
  unfold at_index.
  destruct (Z.of_nat k <? 0)%Z eqn:E; [apply Z.ltb_lt in E; lia|].
  rewrite Nat2Z.id. reflexivity.
Qed.

Lemma at_index_range {A} (l : list A) (index : Z) :
  (exists x, at_index l index = Some x)
  <-> (0 <= index < Z.of_nat (length l))%Z.
Proof.
  unfold at_index. destruct (index <? 0)%Z eqn:E.
  - apply Z.ltb_lt in E. split; [intros [x [=]]|lia].
  - apply Z.ltb_ge in E. split.
    + intros [x Hx].
      assert (H : nth_error l (Z.to_nat index) <> None) by congruence.
      apply nth_error_Some in H. lia.
    + intros [_ H].
      destruct (nth_error l (Z.to_nat index)) as [x|] eqn:N; [eauto|].
      apply nth_error_None in N. lia.
Qed.

Lemma map_nth_seq {A B} (f : A -> B) (g : option A -> B) (l : list A) :
  (forall x, g (Some x) = f x) ->
  map f l = map (fun k => g (nth_error l k)) (seq 0 (length l)).
Proof.
  intros Hg. induction l as [|x l IH]; [reflexivity|].
  simpl. rewrite Hg. f_equal.
  rewrite <- seq_shift, map_map. exact IH.
Qed.

(** [eq(index)] holds exactly one value when [index] is an index of the
    Selector, and none otherwise; the recorded query is kept. *)
Lemma eq_count (this : Selector) (index : Z) :
  count (eq_ this index)
  = (if (0 <=? index)%Z && (index <? Z.of_nat (count this))%Z
     then 1 else 0)
  /\ ok (eq_ this index)
     = (0 <=? index)%Z && (index <? Z.of_nat (count this))%Z
  /\ selector_of (eq_ this index) = selector_of this.
Proof.
  assert (H : forall A (l : list A),
             (0 <=? index)%Z && (index <? Z.of_nat (length l))%Z
             = match at_index l index with Some _ => true | None => false end).
  { intros A l. pose proof (at_index_range l index) as R.
    destruct (at_index l index) as [x|].
    - destruct R as [R _]. specialize (R (ex_intro _ x eq_refl)).
      apply andb_true_iff. split; [apply Z.leb_le|apply Z.ltb_lt]; lia.
    - apply andb_false_iff.
      destruct (Z.leb_spec 0 index); [|auto]. right.
      apply Z.ltb_ge. destruct (Z.lt_ge_cases index (Z.of_nat (length l)));
        [|assumption].
      destruct R as [_ R]. destruct R as [x Hx]; [lia|discriminate]. }
  destruct this as [nodes q|values q]; simpl; rewrite H.
  - destruct (at_index nodes index); simpl; auto.
  - destruct (at_index values index); simpl; auto.
Qed.

(** [first()] is [eq(0)] and [last()] is [eq(count - 1)], also on the
    empty Selector, where the index -1 selects nothing. *)
Lemma first_last_eq (this : Selector) :
  first this = eq_ this 0
  /\ last this = eq_ this (Z.of_nat (count this) - 1).
Proof.
  assert (L : forall A (l : list A),
             at_index l (Z.of_nat (length l) - 1)
             = match l with
               | [] => None
               | _ :: _ => nth_error l (length l - 1)
               end).
  { intros A [|x l]; [reflexivity|].
    replace (Z.of_nat (length (x :: l)) - 1)%Z
      with (Z.of_nat (length (x :: l) - 1)) by (simpl length; lia).
    apply at_index_of_nat. }
  destruct this as [nodes q|values q]; simpl; rewrite L; split.
  - destruct nodes; reflexivity.
  - destruct nodes; reflexivity.
  - destruct values; reflexivity.
  - destruct values; reflexivity.
Qed.

Lemma toArray_eq (this : Selector) :
  toArray this
  = map (fun k => eq_ this (Z.of_nat k)) (seq 0 (count this)).
Proof.
  destruct this as [nodes q|values q]; simpl.
  - rewrite (map_nth_seq (fun n => NodeSelector [n] q)
               (fun o => match o with
                         | Some n => NodeSelector [n] q
                         | None => NodeSelector [] q
                         end) nodes (fun _ => eq_refl)).
    apply map_ext. intros k. rewrite at_index_of_nat. reflexivity.
  - rewrite (map_nth_seq (fun v => TextSelector [v] q)
               (fun o => match o with
                         | Some v => TextSelector [v] q
                         | None => TextSelector [] q
                         end) values (fun _ => eq_refl)).
    apply map_ext. intros k. rewrite at_index_of_nat. reflexivity.
Qed.

(** X1.  Every way to slice a Selector is [eq]: [eq(index)] holds exactly
    one value when [index] is an index of the Selector and none otherwise
    (a negative or too large index gives the empty Selector, with the
    recorded query kept); [first()] is [eq(0)] and [last()] is
    [eq(count - 1)]; and [toArray()], like [each] and the iterator, which
    build the same Selectors, lists [eq(0)], ..., [eq(count - 1)]. *)
Theorem slices_are_eq (this : Selector) :
  (forall index : Z,
      count (eq_ this index)
      = (if (0 <=? index)%Z && (index <? Z.of_nat (count this))%Z
         then 1 else 0)
      /\ ok (eq_ this index)
         = (0 <=? index)%Z && (index <? Z.of_nat (count this))%Z
      /\ selector_of (eq_ this index) = selector_of this)
  /\ first this = eq_ this 0
  /\ last this = eq_ this (Z.of_nat (count this) - 1)
  /\ toArray this
     = map (fun k => eq_ this (Z.of_nat k)) (seq 0 (count this)).
Proof.
  split; [exact (eq_count this)|].
  split; [exact (proj1 (first_last_eq this))|].
  split; [exact (proj2 (first_last_eq this))|exact (toArray_eq this)].
Qed.

(** X2.  A chain of fallbacks can be regrouped freely, and it is ok exactly
    when one of its members is: [a.or(b).or(c)] is [a.or(b.or(c))]. *)
Theorem or_chain (a b c : Selector) :
  or_ (or_ a b) c = or_ a (or_ b c)
  /\ ok (or_ a b) = ok a || ok b.
Proof.
  unfold or_. destruct (ok a) eqn:A; simpl.
  - rewrite A. auto.
  - destruct (ok b); auto.
Qed.

(** ** Queries on a Selector without nodes, rejected selectors, projections *)

Section Chaining.

Variable doc : list tree.
Context {provider : Attributes}.
Variable querySelectorAll : Node -> str -> option (list Node).
Variable outerHTML : Node -> str.
Variable splitXPathUnion : str -> list str.

Let evalX := evaluateXPath doc querySelectorAll.
Let xpathS := xpath doc querySelectorAll outerHTML splitXPathUnion.
Let cssS := css doc querySelectorAll outerHTML.

Lemma fold_steps_nil (steps : list Step) :
  fold_left
    (fun acc step =>
       results <- acc ;; evaluateStep doc querySelectorAll step results)
    steps (Ret []) = Ret [].
Proof. induction steps as [|st steps IH]; [reflexivity|exact IH]. Qed.

Lemma evaluateSingleXPath_nil (e : str) :
  evaluateSingleXPath doc querySelectorAll e [] = Ret [].
Proof.
  unfold evaluateSingleXPath.
  destruct (parseXPath_returns e) as [[steps log] ->].
  cbn [bind map]. apply fold_steps_nil.
Qed.

Lemma evaluateXPath_nil (e : str) : evalX e [] = Ret [].
Proof.
  unfold evalX, evaluateXPath.
  destruct (trim e); [reflexivity|].
  destruct (1 <? length (splitUnion e)); [|apply evaluateSingleXPath_nil].
  assert (H : forall ps,
    fold_left
      (fun acc part =>
         st <- acc ;;
         partResults <- evaluateSingleXPath doc querySelectorAll
                          (trim part) [] ;;
         Ret (fold_left union_push partResults st))
      ps (Ret ([], [])) = Ret ([], [])).
  { induction ps as [|p ps IH]; [reflexivity|].
    simpl. rewrite evaluateSingleXPath_nil. simpl. exact IH. }
  rewrite H. reflexivity.
Qed.

Lemma Selector_evaluateSingleXPath_nil (this : Selector) (q : str) :
  base_nodes this = [] ->
  exists r,
    Selector_evaluateSingleXPath doc querySelectorAll outerHTML this q
    = Ret (Some r)
    /\ part_strings r = [] /\ part_nodes r = [].
Proof.
  intros E. unfold Selector_evaluateSingleXPath. rewrite E.
  fold evalX. rewrite evaluateXPath_nil.
  eexists. split; [reflexivity|].
  unfold pack_results. simpl.
  destruct (extract (parseXPathPseudo q)); auto.
Qed.

(** X3.  A query on a Selector that holds no nodes (an empty Selector, or
    one that holds strings) gives an empty Selector: [css] and [xpath] never
    raise there and never find anything, whatever the query is. *)
Theorem query_without_nodes_is_empty (this : Selector) (q : str) :
  base_nodes this = [] ->
  count (cssS this q) = 0
  /\ exists s', xpathS this q = Ret s' /\ count s' = 0.
Proof.
  intros E. split.
  - unfold cssS, css. rewrite E. simpl.
    destruct (extract (parseCSSPseudo q)); reflexivity.
  - unfold xpathS, xpath.
    destruct (1 <? length (splitXPathUnion q)).
    + assert (H : forall ps,
        xpath_union_loop doc querySelectorAll outerHTML this ps []
                         ([], []) = Ret (Some ([], []))).
      { induction ps as [|p ps IH]; [reflexivity|].
        simpl.
        destruct (Selector_evaluateSingleXPath_nil this (trim p) E)
          as (r & -> & Hs & Hn).
        cbn [bind]. destruct r as [values|nodes]; simpl in Hs, Hn; subst;
          exact IH. }
      rewrite H. cbn [bind]. simpl. eauto.
    + destruct (Selector_evaluateSingleXPath_nil this q E)
        as (r & -> & Hs & Hn).
      cbn [bind]. destruct r as [values|nodes]; simpl in Hs, Hn; subst;
        eauto.
Qed.

(** X4.  When the tree provider rejects the selector on every node it is
    asked about, [css] returns an empty Selector instead of raising. *)
Theorem css_rejected_selector_is_empty (this : Selector) (q : str) :
  (forall n, In n (base_nodes this) ->
             querySelectorAll n (query (parseCSSPseudo q)) = None) ->
  count (cssS this q) = 0 /\ ok (cssS this q) = false.
Proof.
  intros H. unfold cssS, css.
  assert (E : flat_map
                (fun node =>
                   if N.eqb (nodeType doc node) 1
                      || N.eqb (nodeType doc node) 9
                   then match querySelectorAll node
                                (query (parseCSSPseudo q)) with
                        | Some matches => matches
                        | None => []
                        end
                   else [])
                (base_nodes this) = []).
  { induction (base_nodes this) as [|n l IH]; [reflexivity|].
    simpl. rewrite (H n (or_introl eq_refl)).
    rewrite IH by (intros m Hm; apply H; right; exact Hm).
    destruct (_ || _); reflexivity. }
  rewrite E. destruct (extract (parseCSSPseudo q)); auto.
Qed.

(** The Selector that a query returns records the query as it was
    written, pseudo-element suffix and union included; [xpath] always
    returns such a Selector. *)
Lemma query_is_recorded (this : Selector) (q : str) :
  selector_of (cssS this q) = q
  /\ exists s', xpathS this q = Ret s' /\ selector_of s' = q.
Proof.
  split.
  - unfold cssS, css. destruct (extract (parseCSSPseudo q)); reflexivity.
  - destruct (xpath_returns doc querySelectorAll outerHTML splitXPathUnion
                this q) as [s' Hs].
    exists s'. split; [exact Hs|].
    unfold xpath in Hs.
    destruct (1 <? length (splitXPathUnion q)).
    + destruct (xpath_union_loop _ _ _ _ _ _ _) as [[[strs ns]|]| |];
        try discriminate; cbn [bind] in Hs.
      * destruct (0 <? length strs); injection Hs as <-; reflexivity.
      * injection Hs as <-. reflexivity.
    + destruct (Selector_evaluateSingleXPath _ _ _ _ _)
        as [[[values|nodes]|]| |]; try discriminate; cbn [bind] in Hs;
        injection Hs as <-; reflexivity.
Qed.

(** X6.  [result()] succeeds exactly on an ok Selector, with its count,
    which is then positive, and the value of [get()], the empty string when
    [get()] is null; it fails with the recorded query otherwise. *)
Theorem result_reports_ok_or_query (this : Selector) :
  match result doc outerHTML this with
  | SR_ok value n =>
      ok this = true /\ n = count this /\ 0 < n
      /\ get doc outerHTML this (Some []) = Some value
  | SR_fail sel =>
      ok this = false /\ count this = 0 /\ sel = selector_of this
  end.
Proof.
  unfold result. destruct this as [nodes q|values q]; simpl.
  - destruct nodes as [|n nodes]; [simpl; auto|].
    cbn [ok count length Nat.ltb Nat.leb get getall].
    repeat split; try lia.
    destruct (filter nonempty (map (node_value doc outerHTML) (n :: nodes)));
      reflexivity.
  - destruct values as [|v values]; simpl; [auto|].
    repeat split; lia.
Qed.

(** X7.  [map(fn)] commutes with [get]: the first mapped value is [fn] of
    the first value, and there is one mapped value per value of [getall]. *)
Theorem map_commutes_with_get {T : Type} (this : Selector) (fn : str -> T) :
  mapped_get (map_ doc outerHTML this fn) None
  = option_map fn (get doc outerHTML this None)
  /\ mapped_getall (map_ doc outerHTML this fn)
     = map fn (getall doc outerHTML this)
  /\ mapped_ok (map_ doc outerHTML this fn) = ok this.
Proof.
  unfold mapped_get, mapped_getall.
  destruct this as [nodes q|values q]; simpl.
  - destruct (filter nonempty (map (node_value doc outerHTML) nodes));
      auto.
  - destruct values; auto.
Qed.

End Chaining.

Lemma query_without_nodes_is_empty_witness :
  count (css (provider := ref_attributes)
        doc_list (ref_querySelectorAll doc_list)
             (ref_outerHTML doc_list)
             (TextSelector [js "A"; js "B"] (js "//li/text()")) (js "li"))
  = 0.
Proof.
  exact (proj1 (query_without_nodes_is_empty (provider := ref_attributes)
        doc_list
                  (ref_querySelectorAll doc_list) (ref_outerHTML doc_list)
                  ref_splitXPathUnion
                  (TextSelector [js "A"; js "B"] (js "//li/text()"))
                  (js "li") eq_refl)).
Defined.

Lemma css_rejected_selector_is_empty_witness :
  count (ref_css doc_div pluck "div[") = 0
  /\ ok (ref_css doc_div pluck "div[") = false.
Proof.
  apply (css_rejected_selector_is_empty (provider := ref_attributes) doc_div
           (ref_querySelectorAll doc_div) (ref_outerHTML doc_div)
           pluck (js "div[")).
  intros n _. reflexivity.
Defined.


(** ** How steps and predicates compose *)

Lemma subseq_trans {A} (a b c : list A) :
  subseq a b -> subseq b c -> subseq a c.
Proof.
  intros Hab Hbc. revert a Hab.
  induction Hbc as [|x b c Hbc IH|x b c Hbc IH]; intros a Hab.
  - exact Hab.
  - apply subseq_skip. apply IH. exact Hab.
  - inversion Hab as [|y a' b' Hab'|y a' b' Hab']; subst.
    + apply subseq_skip. apply IH. exact Hab'.
    + apply subseq_keep. apply IH. exact Hab'.
Qed.

Lemma subseq_filter {A} (p : A -> bool) (l : list A) :
  subseq (filter p l) l.
Proof.
  induction l as [|x l IH]; simpl; [constructor|].
  destruct (p x); constructor; exact IH.
Qed.

Lemma filterM_subseq {A} (p : A -> res bool) (l r : list A) :
  filterM p l = Ret r -> subseq r l.
Proof.
  revert r. induction l as [|x l IH]; intros r H; simpl in H.
  - injection H as <-. constructor.
  - destruct (p x) as [b| |]; try discriminate. cbn [bind] in H.
    destruct (filterM p l) as [rest| |]; try discriminate.
    cbn [bind] in H. injection H as <-.
    destruct b; constructor; apply IH; reflexivity.
Qed.

Lemma bind_ret_r {A} (m : res A) : (x <- m ;; Ret x) = m.
Proof. destruct m; reflexivity. Qed.

(** Filtering twice is filtering once on the conjunction, when the tests
    halt. *)
Lemma filterM_compose {A} (f g : A -> res bool) (l : list A) :
  (forall x, halts (f x)) -> (forall x, halts (g x)) ->
  (r <- filterM f l ;; filterM g r)
  = filterM (fun x => b <- f x ;; if b then g x else Ret false) l.
Proof.
  intros Hf Hg. induction l as [|x l IH]; [reflexivity|].
  cbn [filterM]. rewrite <- IH.
  pose proof (halts_filterM f l Hf) as Hl.
  pose proof (Hf x) as Hfx. pose proof (Hg x) as Hgx.
  unfold halts in Hl, Hfx, Hgx.
  destruct (f x) as [[|]| |]; cbn [bind]; try congruence.
  - destruct (filterM f l) as [r| |]; cbn [bind filterM]; try congruence.
    destruct (g x); cbn [bind]; congruence.
  - destruct (filterM f l) as [r| |]; cbn [bind]; try reflexivity.
    rewrite bind_ret_r. reflexivity.
Qed.

Section Composition.

Variable doc : list tree.
Context {provider : Attributes}.
Variable querySelectorAll : Node -> str -> option (list Node).

Let evalP := evaluatePredicate doc querySelectorAll.
Let applyP := applyPredicates doc querySelectorAll.
Let stepC := evaluateStep_context doc querySelectorAll.
Let stepE := evaluateStep doc querySelectorAll.

(** *** Steps over several contexts *)

Lemma evaluateStep_fold (step : Step) (contexts : list XPathResult) :
  forall m : res (list XPathResult),
    fold_left
      (fun acc context =>
         results <- acc ;;
         more <- stepC step context ;;
         Ret (results ++ more))
      contexts m
    = (results <- m ;; more <- stepE step contexts ;; Ret (results ++ more)).
Proof.
  unfold stepE, evaluateStep. fold stepC.
  induction contexts as [|c cs IH]; intros m.
  - destruct m; simpl; try reflexivity. rewrite app_nil_r. reflexivity.
  - cbn [fold_left]. rewrite IH. rewrite (IH (_ <- Ret [] ;; _)).
    destruct m as [r| |]; cbn [bind]; try reflexivity.
    destruct (stepC step c) as [m1| |]; cbn [bind]; try reflexivity.
    destruct (fold_left _ cs (Ret [])) as [m2| |]; cbn [bind];
      try reflexivity.
    rewrite app_assoc. reflexivity.
Qed.

Lemma evaluateStep_cons (step : Step) (c : XPathResult)
    (cs : list XPathResult) :
  stepE step (c :: cs)
  = (first <- stepC step c ;; more <- stepE step cs ;; Ret (first ++ more)).
Proof.
  unfold stepE at 1. unfold evaluateStep. cbn [fold_left].
  fold stepC. rewrite evaluateStep_fold. cbn [bind].
  destruct (stepC step c); reflexivity.
Qed.

(** X8.  A step works on its contexts one at a time and concatenates what
    it finds in context order: on a list of contexts cut in two it gives the
    results for the first part followed by those for the second (and raises
    when either raises). *)
Theorem evaluateStep_concatenates (step : Step) (a b : list XPathResult) :
  stepE step (a ++ b)
  = (ra <- stepE step a ;; rb <- stepE step b ;; Ret (ra ++ rb)).
Proof.
  unfold stepE at 1. unfold evaluateStep. rewrite fold_left_app.
  fold stepC. fold (evaluateStep doc querySelectorAll step a).
  fold stepE. rewrite evaluateStep_fold. reflexivity.
Qed.

(** X9.  A step reads only the nodes among its contexts: the strings that
    an attribute step produced are dropped by any step that follows, so a
    path that continues after an attribute step selects nothing. *)
Theorem strings_are_dropped_by_next_step (step : Step) :
  (forall contexts,
      stepE step contexts = stepE step (map R_node (nodes_of contexts)))
  /\ (forall values, stepE step (map R_string values) = Ret []).
Proof.
  assert (H : forall contexts,
             stepE step contexts
             = stepE step (map R_node (nodes_of contexts))).
  { induction contexts as [|c cs IH]; [reflexivity|].
    rewrite evaluateStep_cons. destruct c as [n|s].
    - change (nodes_of (R_node n :: cs)) with (n :: nodes_of cs).
      cbn [map]. rewrite evaluateStep_cons, IH. reflexivity.
    - change (nodes_of (R_string s :: cs)) with (nodes_of cs).
      rewrite IH. cbn [stepC evaluateStep_context bind].
      unfold stepC. cbn [evaluateStep_context bind].
      apply bind_ret_r. }
  split; [exact H|].
  intros values. rewrite H.
  replace (nodes_of (map R_string values)) with (@nil Node);
    [reflexivity|].
  induction values as [|v values IH]; [reflexivity|exact IH].
Qed.

(** *** Predicates only remove nodes *)

Lemma applyPredicates_subseq (preds : list Predicate) :
  forall nodes r, applyP nodes preds = Ret r -> subseq r nodes.
Proof.
  induction preds as [|p ps IH]; intros nodes r H.
  - injection H as <-. apply subseq_refl.
  - unfold applyP in H. rewrite applyPredicates_cons in H.
    destruct (applyPredicates doc querySelectorAll nodes [p])
      as [r1| |] eqn:E1; try discriminate.
    cbn [bind] in H. apply IH in H.
    apply subseq_trans with r1; [exact H|].
    unfold applyPredicates in E1. simpl in E1.
    apply filterM_subseq in E1. exact E1.
Qed.

(** X10.  What a step returns for one context node is a selection of the
    candidates of its axis, in the order of the axis and without
    duplicates: the node test and the predicates only remove nodes.  The
    strings of an attribute step are the only results that are not nodes,
    and there is at most one per context. *)
Theorem step_selects_among_candidates (step : Step) (context : Node)
    (results : list XPathResult) :
  stepC step (R_node context) = Ret results ->
  subseq (nodes_of results) (getCandidates doc (axis step) context)
  /\ NoDup (nodes_of results)
  /\ (strings_of results = []
      \/ (axis step = ax_attribute /\ length results <= 1
          /\ nodes_of results = [])).
Proof.
  intros H.
  assert (G : forall filtered,
             applyP (filterByNodeTest doc
                       (getCandidates doc (axis step) context)
                       (nodeTest step)) (predicates step) = Ret filtered ->
             results = map R_node filtered ->
             subseq (nodes_of results)
                    (getCandidates doc (axis step) context)
             /\ NoDup (nodes_of results)
             /\ (strings_of results = []
                 \/ (axis step = ax_attribute /\ length results <= 1
                     /\ nodes_of results = []))).
  { intros filtered Hf ->. rewrite nodes_of_nodes, strings_of_nodes.
    assert (S : subseq filtered (getCandidates doc (axis step) context)).
    { apply subseq_trans with
        (filterByNodeTest doc (getCandidates doc (axis step) context)
                          (nodeTest step)).
      - apply applyPredicates_subseq with (predicates step). exact Hf.
      - destruct (nodeTest step); simpl;
          try apply subseq_filter; apply subseq_refl. }
    split; [exact S|]. split; [|left; reflexivity].
    apply subseq_nodup with (getCandidates doc (axis step) context);
      [exact S|apply getCandidates_nodup]. }
  assert (K : forall rs : list XPathResult,
             (rs = [] \/ exists v, rs = [R_string v]) ->
             axis step = ax_attribute ->
             Ret rs = Ret results ->
             subseq (nodes_of results)
                    (getCandidates doc (axis step) context)
             /\ NoDup (nodes_of results)
             /\ (strings_of results = []
                 \/ (axis step = ax_attribute /\ length results <= 1
                     /\ nodes_of results = []))).
  { intros rs Hrs Hax [= <-].
    assert (N : nodes_of rs = []) by (destruct Hrs as [->|[v ->]]; reflexivity).
    rewrite N. split; [apply subseq_nil_l|]. split; [constructor|].
    right. split; [exact Hax|]. split; [|reflexivity].
    destruct Hrs as [->|[v ->]]; simpl; lia. }
  unfold stepC, evaluateStep_context in H.
  destruct (axis step) eqn:Eax;
    try (fold applyP in H;
         destruct (applyP _ _) as [filtered| |] eqn:Ef in H;
         try discriminate; cbn [bind] in H; injection H as <-;
         apply (G filtered); [exact Ef|reflexivity]).
  destruct (nodeTest step) eqn:Etest;
    try (fold applyP in H;
         destruct (applyP _ _) as [filtered| |] eqn:Ef in H;
         try discriminate; cbn [bind] in H; injection H as <-;
         apply (G filtered); [exact Ef|reflexivity]).
  destruct (N.eqb (nodeType doc context) 1).
  - destruct (getAttribute doc context name) as [v|].
    + apply (K [R_string v]); [right; eauto|reflexivity|exact H].
    + apply (K []); [left; reflexivity|reflexivity|exact H].
  - apply (K []); [left; reflexivity|reflexivity|exact H].
Qed.

(** *** Predicates that do not read positions *)

Lemma position_free_independent (node : Node) (p : Predicate) :
  position_free p = true ->
  forall all all', evalP node p all = evalP node p all'.
Proof.
  unfold evalP.
  induction p; intros Hp all all'; simpl in Hp; try discriminate;
    try reflexivity.
  - simpl. rewrite (IHp Hp all all'). reflexivity.
  - apply andb_true_iff in Hp as [H1 H2].
    simpl. rewrite (IHp1 H1 all all'), (IHp2 H2 all all'). reflexivity.
  - apply andb_true_iff in Hp as [H1 H2].
    simpl. rewrite (IHp1 H1 all all'), (IHp2 H2 all all'). reflexivity.
Qed.

Lemma spec_all_hold_independent (node : Node) (preds : list Predicate) :
  forallb position_free preds = true ->
  forall all all',
    spec_all_hold doc querySelectorAll node preds all
    = spec_all_hold doc querySelectorAll node preds all'.
Proof.
  induction preds as [|p ps IH]; intros Hp all all'; [reflexivity|].
  simpl in Hp. apply andb_true_iff in Hp as [H1 H2].
  simpl. fold evalP. rewrite (position_free_independent node p H1 all all').
  destruct (evalP node p all') as [[|]| |]; simpl; try reflexivity.
  apply IH. exact H2.
Qed.

Lemma spec_all_hold_halts (node : Node) (preds : list Predicate)
    (all : list Node) :
  halts (spec_all_hold doc querySelectorAll node preds all).
Proof.
  induction preds as [|p ps IH]; simpl; [apply halts_ret|].
  apply halts_bind; [apply evaluatePredicate_halts|].
  intros [|]; [exact IH|apply halts_ret].
Qed.

(** For predicates that do not read positions, filtering by one predicate
    after the other keeps the nodes on which all of them hold. *)
Lemma position_free_predicates_filter_once (preds : list Predicate) :
  forallb position_free preds = true ->
  forall nodes,
    applyP nodes preds = spec_applyPredicates doc querySelectorAll nodes preds.
Proof.
  unfold spec_applyPredicates.
  induction preds as [|p ps IH]; intros Hp nodes.
  - unfold applyP, applyPredicates. simpl.
    rewrite (filterM_pure (fun _ => true)).
    f_equal. induction nodes as [|x l IHl]; [reflexivity|].
    simpl. rewrite <- IHl. reflexivity.
  - simpl in Hp. apply andb_true_iff in Hp as [H1 H2].
    unfold applyP. rewrite applyPredicates_cons.
    unfold applyPredicates at 1. cbn [fold_left bind].
    fold evalP.
    transitivity
      (r <- filterM (fun node => evalP node p nodes) nodes ;;
       filterM (fun node =>
                  spec_all_hold doc querySelectorAll node ps nodes) r).
    + destruct (filterM (fun node => evalP node p nodes) nodes)
        as [r| |]; cbn [bind]; try reflexivity.
      fold applyP. rewrite (IH H2 r).
      apply filterM_ext. intros x.
      apply spec_all_hold_independent. exact H2.
    + rewrite filterM_compose.
      * apply filterM_ext. intros x. reflexivity.
      * intros x. apply evaluatePredicate_halts.
      * intros x. apply spec_all_hold_halts.
Qed.

(** The conjunction of a predicate with those that follow it. *)
Lemma fold_and_holds (node : Node) (all : list Node) (ps : list Predicate) :
  forall p,
    evalP node (fold_left P_and ps p) all
    = (b <- evalP node p all ;;
       if b then spec_all_hold doc querySelectorAll node ps all
       else Ret false).
Proof.
  induction ps as [|q ps IH]; intros p.
  - cbn [fold_left spec_all_hold]. destruct (evalP node p all) as [[|]| |];
      reflexivity.
  - cbn [fold_left spec_all_hold]. rewrite IH.
    unfold evalP. cbn [evaluatePredicate]. fold evalP.
    destruct (evalP node p all) as [[|]| |]; reflexivity.
Qed.

(** X11.  For predicates that do not read positions, brackets in a row are
    a conjunction: the step [[p1][p2]...[pn]] keeps the same nodes as the
    single bracket [[p1 and p2 and ... and pn]], and raises in the same
    cases. *)
Theorem brackets_in_a_row_are_and (p : Predicate) (ps : list Predicate)
    (nodes : list Node) :
  forallb position_free (p :: ps) = true ->
  applyP nodes (p :: ps) = applyP nodes [fold_left P_and ps p].
Proof.
  intros Hp. rewrite (position_free_predicates_filter_once (p :: ps) Hp).
  unfold spec_applyPredicates, applyP, applyPredicates.
  cbn [fold_left bind]. apply filterM_ext. intros node.
  fold evalP. rewrite fold_and_holds. reflexivity.
Qed.

End Composition.

Lemma step_selects_among_candidates_witness :
  subseq [li 1] (getCandidates doc_list ax_child [0])
  /\ NoDup [li 1].
Proof.
  pose proof (step_selects_among_candidates (provider := ref_attributes)
        doc_list
                (ref_querySelectorAll doc_list)
                (mkStep ax_child (NT_name (js "li")) [P_position 2])
                [0] [R_node (li 1)] eq_refl) as H.
  split; [exact (proj1 H)|exact (proj1 (proj2 H))].
Defined.

Lemma brackets_in_a_row_are_and_witness :
  applyPredicates (provider := ref_attributes)
        doc_anchors (ref_querySelectorAll doc_anchors)
    [[0]; [1]] [P_attr_exists (js "href"); P_text_equals (js "t")]
  = applyPredicates (provider := ref_attributes)
        doc_anchors (ref_querySelectorAll doc_anchors)
      [[0]; [1]] [P_and (P_attr_exists (js "href")) (P_text_equals (js "t"))].
Proof.
  exact (brackets_in_a_row_are_and (provider := ref_attributes) doc_anchors
           (ref_querySelectorAll doc_anchors)
           (P_attr_exists (js "href")) [P_text_equals (js "t")]
           [[0]; [1]] eq_refl).
Defined.

(** ** The axes in terms of document order

    A node is a path, so "contains" is "is a prefix of"; the lists that
    [getCandidates] builds by walking the tree are described here by the
    position of the nodes in the pre-order list of the document. *)

Lemma filter_all {A} (p : A -> bool) (l : list A) :
  (forall x, In x l -> p x = true) -> filter p l = l.
Proof.
  induction l as [|x l IH]; intros H; simpl; [reflexivity|].
  rewrite (H x (or_introl eq_refl)).
  rewrite IH; [reflexivity|]. intros y Hy. apply H. right. exact Hy.
Qed.

Lemma filter_none {A} (p : A -> bool) (l : list A) :
  (forall x, In x l -> p x = false) -> filter p l = [].
Proof.
  induction l as [|x l IH]; intros H; simpl; [reflexivity|].
  rewrite (H x (or_introl eq_refl)).
  apply IH. intros y Hy. apply H. right. exact Hy.
Qed.

Lemma is_prefix_spec (a b : Node) :
  is_prefix a b = true <-> exists r, b = a ++ r.
Proof.
  revert b. induction a as [|x a IH]; intros b; simpl.
  - split; [eauto|reflexivity].
  - destruct b as [|y b].
    + split; [discriminate|intros [r [=]]].
    + rewrite andb_true_iff, Nat.eqb_eq, IH. split.
      * intros [-> [r ->]]. eauto.
      * intros [r [= -> ->]]. eauto.
Qed.

Lemma strict_prefix_spec (a b : Node) :
  strict_prefix a b = true <-> exists j r, b = a ++ j :: r.
Proof.
  unfold strict_prefix.
  rewrite andb_true_iff, negb_true_iff, is_prefix_spec. split.
  - intros [[r ->] Hne]. destruct r as [|j r]; [|eauto].
    rewrite app_nil_r, node_eqb_refl in Hne. discriminate.
  - intros (j & r & ->). split; [eauto|].
    destruct (node_eqb a (a ++ j :: r)) eqn:E; [|reflexivity].
    apply node_eqb_eq in E.
    exfalso. exact (path_not_own_extension _ _ _ E).
Qed.

Lemma strict_prefix_false (a b : Node) :
  strict_prefix a b = false <-> ~ exists j r, b = a ++ j :: r.
Proof.
  rewrite <- strict_prefix_spec. destruct (strict_prefix a b);
    intuition congruence.
Qed.

Lemma is_prefix_false (a b : Node) :
  is_prefix a b = false <-> ~ exists r, b = a ++ r.
Proof.
  rewrite <- is_prefix_spec. destruct (is_prefix a b); intuition congruence.
Qed.

(** The nodes of the block of child [i] of [n]: the child and what is
    below it. *)
Lemma block_shape (n : Node) (i : nat) (c : tree) (x : Node) :
  In x ((n ++ [i]) :: descendants_tree (n ++ [i]) c) ->
  exists r, x = n ++ i :: r.
Proof.
  intros [<-|Hin]; [exists []; reflexivity|].
  destruct (descendants_tree_shape c _ _ Hin) as (j & r & ->).
  exists (j :: r). rewrite <- app_assoc. reflexivity.
Qed.

Lemma later_blocks_shape (n : Node) (i : nat) (cs : list tree) (x : Node) :
  In x (descendants_list n i cs) -> exists j r, i <= j /\ x = n ++ j :: r.
Proof. apply descendants_list_shape. apply all_extend_paths. Qed.

(** *** Descendants *)

Lemma filter_below_children (r' : list nat) :
  (forall n cs,
      filter (strict_prefix (n ++ r')) (descendants_list n 0 cs)
      = descendants_list (n ++ r') 0 (sub_children cs r')) ->
  forall j cs n i,
    filter (strict_prefix (n ++ j :: r')) (descendants_list n i cs)
    = if j <? i then []
      else descendants_list (n ++ j :: r') 0
                            (sub_children cs ((j - i) :: r')).
Proof.
  intros IHr j cs. induction cs as [|c cs IHcs]; intros n i.
  - simpl. destruct (j <? i); [reflexivity|].
    destruct (j - i); reflexivity.
  - cbn [descendants_list filter].
    assert (Hhead : strict_prefix (n ++ j :: r') (n ++ [i]) = false).
    { apply strict_prefix_false. intros (k & t & E).
      apply (f_equal (@length nat)) in E.
      repeat (rewrite length_app in E; simpl in E). lia. }
    rewrite Hhead, filter_app, IHcs.
    destruct (Nat.eq_dec j i) as [->|Hne].
    + rewrite Nat.ltb_irrefl, Nat.sub_diag.
      replace (i <? S i) with true by (symmetry; apply Nat.ltb_lt; lia).
      rewrite app_nil_r, descendants_tree_children.
      replace (n ++ i :: r') with ((n ++ [i]) ++ r')
        by (rewrite <- app_assoc; reflexivity).
      rewrite IHr. reflexivity.
    + rewrite (filter_none (strict_prefix (n ++ j :: r'))
                 (descendants_tree (n ++ [i]) c)).
      * cbn [app]. destruct (j <? i) eqn:Lt.
        -- apply Nat.ltb_lt in Lt.
           replace (j <? S i) with true
             by (symmetry; apply Nat.ltb_lt; lia).
           reflexivity.
        -- apply Nat.ltb_ge in Lt.
           replace (j <? S i) with false
             by (symmetry; apply Nat.ltb_ge; lia).
           replace (j - i) with (S (j - S i)) by lia. reflexivity.
      * intros x Hx. apply strict_prefix_false. intros (k & t & E).
        destruct (block_shape n i c x (or_intror Hx)) as (r & ->).
        rewrite <- app_assoc in E. apply app_inv_head in E.
        simpl in E. injection E as E _. congruence.
Qed.

Lemma filter_below (r : list nat) :
  forall n cs,
    filter (strict_prefix (n ++ r)) (descendants_list n 0 cs)
    = descendants_list (n ++ r) 0 (sub_children cs r).
Proof.
  induction r as [|j r' IH]; intros n cs.
  - rewrite app_nil_r. simpl. apply filter_all. intros x Hx.
    destruct (later_blocks_shape n 0 cs x Hx) as (k & t & _ & ->).
    apply strict_prefix_spec. eauto.
  - rewrite (filter_below_children r' IH j cs n 0).
    simpl (j <? 0). rewrite Nat.sub_0_r. reflexivity.
Qed.

Section Axes.

Variable doc : list tree.

Let candidates := getCandidates doc.

Lemma child_trees_sub (n : Node) : child_trees doc n = sub_children doc n.
Proof.
  unfold child_trees, node_tree. destruct n as [|i q]; [reflexivity|].
  generalize doc as cs. revert i.
  induction q as [|k q IH]; intros i cs; simpl.
  - destruct (nth_error cs i); reflexivity.
  - destruct (nth_error cs i) as [t|]; [|reflexivity].
    apply (IH k (children_of t)).
Qed.

Lemma getDescendants_exact (n : Node) :
  getDescendants doc n = filter (strict_prefix n) (document_order doc).
Proof.
  unfold getDescendants, document_order.
  rewrite child_trees_sub. symmetry. apply (filter_below n [] doc).
Qed.

Lemma document_blocks (cs : list tree) :
  forall pre,
    doc = pre ++ cs ->
    flat_map (fun child => child :: getDescendants doc child)
             (map (fun i => [] ++ [i]) (seq (length pre) (length cs)))
    = descendants_list [] (length pre) cs.
Proof.
  induction cs as [|c cs IH]; intros pre Hdoc; [reflexivity|].
  assert (Hnth : nth_error doc (length pre) = Some c).
  { rewrite Hdoc, nth_error_app2 by lia.
    rewrite Nat.sub_diag. reflexivity. }
  cbn [length seq map flat_map descendants_list app].
  f_equal. f_equal.
  - unfold getDescendants. rewrite child_trees_sub. simpl.
    rewrite Hnth. symmetry. apply descendants_tree_children.
  - specialize (IH (pre ++ [c])).
    rewrite length_app, Nat.add_comm in IH. apply IH.
    rewrite <- app_assoc. exact Hdoc.
Qed.

Lemma getCandidates_descendant (context : Node) :
  candidates ax_descendant context
  = filter (strict_prefix context) (document_order doc).
Proof.
  unfold candidates, getCandidates. destruct context as [|i q].
  - simpl N.eqb. cbv iota. unfold childNodes.
    change (child_trees doc []) with doc.
    pose proof (document_blocks doc [] eq_refl) as B.
    cbn [length] in B. rewrite B.
    symmetry. apply (filter_below [] [] doc).
  - replace (N.eqb (nodeType doc (i :: q)) 9) with false.
    + apply getDescendants_exact.
    + unfold nodeType. destruct (node_tree doc (i :: q)) as [[| |]|];
        reflexivity.
Qed.

Lemma getCandidates_descendant_root :
  candidates ax_descendant [] = document_order doc.
Proof.
  rewrite getCandidates_descendant. apply filter_all.
  intros x Hx.
  destruct (later_blocks_shape [] 0 doc x Hx) as (k & t & _ & ->).
  apply strict_prefix_spec. eauto.
Qed.

(** X12.  The descendant axis lists, in document order, exactly the nodes
    of the document that the context properly contains; for the Document
    this is every node. *)
Theorem descendant_axis_in_document_order (context : Node) :
  candidates ax_descendant context
  = filter (strict_prefix context) (document_order doc)
  /\ candidates ax_descendant [] = document_order doc.
Proof.
  split; [apply getCandidates_descendant|].
  apply getCandidates_descendant_root.
Qed.

(** *** Ancestors *)

Lemma ancestors_snoc (x : Node) (i : nat) :
  ancestors_rev (rev (x ++ [i])) = x :: ancestors_rev (rev x).
Proof.
  rewrite rev_app_distr. simpl. rewrite rev_involutive. reflexivity.
Qed.

Lemma in_ancestors (a x : Node) :
  In a (ancestors_rev (rev x)) <-> strict_prefix a x = true.
Proof.
  rewrite strict_prefix_spec.
  induction x as [|i x IH] using rev_ind.
  - simpl. split; [intros []|].
    intros (j & r & E). destruct a; discriminate.
  - rewrite ancestors_snoc. simpl. rewrite IH. split.
    + intros [<-|(j & r & ->)].
      * exists i, []. reflexivity.
      * exists j, (r ++ [i]). rewrite <- app_assoc. reflexivity.
    + intros (j & r & E).
      destruct (exists_last (l := j :: r) ltac:(discriminate))
        as (r0 & l & Er).
      rewrite Er, app_assoc in E. apply app_inj_tail in E as [-> <-].
      destruct r0 as [|j0 r0]; [left; rewrite app_nil_r; reflexivity|].
      right. injection Er as -> _. eauto.
Qed.

(** X13.  The ancestor axis lists the parent first and then the ancestors
    of the parent; its members are exactly the nodes that properly contain
    the context, and it is the converse of the descendant axis on the nodes
    of the document. *)
Theorem ancestor_axis_converse_of_descendant :
  (forall x i,
      candidates ax_ancestor (x ++ [i]) = x :: candidates ax_ancestor x)
  /\ (forall a x,
         In a (candidates ax_ancestor x) <-> strict_prefix a x = true)
  /\ (forall a x,
         In x (candidates ax_descendant a)
         <-> In a (candidates ax_ancestor x)
             /\ In x (document_order doc)).
Proof.
  split; [|split].
  - intros x i. apply ancestors_snoc.
  - intros a x. apply in_ancestors.
  - intros a x. rewrite getCandidates_descendant, filter_In.
    unfold candidates, getCandidates. rewrite in_ancestors. tauto.
Qed.

(** *** Children, parents and siblings *)

(** X14.  For every child of a node, the parent axis gives back that node,
    and the preceding siblings (nearest first, so reversed here), the child
    itself and the following siblings make up the child list of the
    node. *)
Theorem siblings_partition_children (parent child : Node) :
  In child (candidates ax_child parent) ->
  candidates ax_parent child = [parent]
  /\ rev (candidates ax_preceding_sibling child)
       ++ child :: candidates ax_following_sibling child
     = candidates ax_child parent.
Proof.
  unfold candidates, getCandidates, childNodes.
  intros Hin. apply in_map_iff in Hin as (i & <- & Hi).
  apply in_seq in Hi. simpl in Hi. destruct Hi as [_ Hi].
  split.
  - unfold parentNode. destruct (parent ++ [i]) eqn:E.
    + destruct parent; discriminate.
    + rewrite <- E, removelast_last. reflexivity.
  - unfold preceding_siblings, following_siblings.
    rewrite rev_app_distr. simpl. rewrite rev_involutive.
    replace (i <? length (child_trees doc parent)) with true
      by (symmetry; apply Nat.ltb_lt; exact Hi).
    rewrite <- map_rev, rev_involutive.
    replace (seq 0 (length (child_trees doc parent)))
      with (seq 0 i
              ++ i :: seq (S i) (length (child_trees doc parent) - S i)).
    + rewrite map_app. reflexivity.
    + change (i :: seq (S i) (length (child_trees doc parent) - S i))
        with (seq (0 + i) (S (length (child_trees doc parent) - S i))).
      rewrite <- seq_app. f_equal. lia.
Qed.

(** *** Following and preceding *)

Lemma after_node_notin (x : Node) (l : list Node) :
  ~ In x l -> after_node x l = [].
Proof.
  induction l as [|y l IH]; intros H; simpl; [reflexivity|].
  destruct (node_eqb y x) eqn:E.
  - apply node_eqb_eq in E. subst. contradiction H. left. reflexivity.
  - apply IH. intros Hin. apply H. right. exact Hin.
Qed.

Lemma after_node_app_notin (x : Node) (l l' : list Node) :
  ~ In x l -> after_node x (l ++ l') = after_node x l'.
Proof.
  induction l as [|y l IH]; intros H; simpl; [reflexivity|].
  destruct (node_eqb y x) eqn:E.
  - apply node_eqb_eq in E. subst. contradiction H. left. reflexivity.
  - apply IH. intros Hin. apply H. right. exact Hin.
Qed.

Lemma after_node_app_in (x : Node) (l l' : list Node) :
  In x l -> after_node x (l ++ l') = after_node x l ++ l'.
Proof.
  induction l as [|y l IH]; intros H; simpl; [destruct H|].
  destruct (node_eqb y x) eqn:E; [reflexivity|].
  apply IH. destruct H as [->|H]; [|exact H].
  rewrite node_eqb_refl in E. discriminate.
Qed.

Lemma after_node_subset (x y : Node) (l : list Node) :
  In y (after_node x l) -> In y l.
Proof.
  induction l as [|z l IH]; simpl; [tauto|].
  destruct (node_eqb z x); auto.
Qed.

Lemma before_node_notin (x : Node) (l : list Node) :
  ~ In x l -> before_node x l = l.
Proof.
  induction l as [|y l IH]; intros H; simpl; [reflexivity|].
  destruct (node_eqb y x) eqn:E.
  - apply node_eqb_eq in E. subst. contradiction H. left. reflexivity.
  - f_equal. apply IH. intros Hin. apply H. right. exact Hin.
Qed.

Lemma before_node_app_notin (x : Node) (l l' : list Node) :
  ~ In x l -> before_node x (l ++ l') = l ++ before_node x l'.
Proof.
  induction l as [|y l IH]; intros H; simpl; [reflexivity|].
  destruct (node_eqb y x) eqn:E.
  - apply node_eqb_eq in E. subst. contradiction H. left. reflexivity.
  - f_equal. apply IH. intros Hin. apply H. right. exact Hin.
Qed.

Lemma before_node_app_in (x : Node) (l l' : list Node) :
  In x l -> before_node x (l ++ l') = before_node x l.
Proof.
  induction l as [|y l IH]; intros H; simpl; [destruct H|].
  destruct (node_eqb y x) eqn:E; [reflexivity|].
  f_equal. apply IH. destruct H as [->|H]; [|exact H].
  rewrite node_eqb_refl in E. discriminate.
Qed.

Lemma following_loop_found (context node : Node) (cs : list tree) :
  forall i results,
    following_loop context node i cs (true, results)
    = (true, results ++ descendants_list node i cs).
Proof.
  induction cs as [|c cs IH]; intros i results; simpl.
  - rewrite app_nil_r. reflexivity.
  - rewrite IH, <- app_assoc. reflexivity.
Qed.

(** The blocks of the children after child [i] hold nothing that a node of
    the block of child [i] contains. *)
Lemma later_blocks_outside (node : Node) (i : nat) (r : list nat)
    (cs : list tree) (x : Node) :
  In x (descendants_list node (S i) cs) ->
  is_prefix (node ++ i :: r) x = false.
Proof.
  intros Hx. apply is_prefix_false. intros (t & E).
  destruct (later_blocks_shape node (S i) cs x Hx) as (k & u & Hk & ->).
  rewrite <- app_assoc in E. apply app_inv_head in E.
  simpl in E. injection E as E _. lia.
Qed.

Lemma in_block_prefix (node : Node) (i : nat) (c : tree) (x : Node) :
  In x ((node ++ [i]) :: descendants_tree (node ++ [i]) c) ->
  is_prefix (node ++ [i]) x = true.
Proof.
  intros H. destruct (block_shape node i c x H) as (r & ->).
  apply is_prefix_spec. exists r. rewrite <- app_assoc. reflexivity.
Qed.

Lemma following_loop_exact (context node : Node) (cs : list tree) :
  Forall (following_exact context) cs ->
  forall i results,
    exists found,
      following_loop context node i cs (false, results)
      = (found, results ++ following_of context (descendants_list node i cs))
      /\ (found = true <-> In context (descendants_list node i cs)).
Proof.
  induction 1 as [|c cs Hc _ IH]; intros i results.
  - exists false. simpl. rewrite app_nil_r.
    split; [reflexivity|]. split; [discriminate|intros []].
  - cbn [following_loop descendants_list].
    set (child := node ++ [i]).
    set (below := descendants_tree child c).
    set (later := descendants_list node (S i) cs).
    destruct (node_eqb child context) eqn:Eq.
    + apply node_eqb_eq in Eq. exists true.
      rewrite following_loop_found. fold later.
      split; [|split; [intros _; left; exact Eq|reflexivity]].
      f_equal. f_equal. unfold following_of.
      cbn [after_node]. rewrite <- Eq, node_eqb_refl, filter_app.
      rewrite (filter_none _ below), (filter_all _ later);
        [reflexivity| |].
      * intros x Hx. apply negb_true_iff.
        apply (later_blocks_outside node i [] cs x Hx).
      * intros x Hx. apply negb_false_iff.
        apply (in_block_prefix node i c x). right. exact Hx.
    + assert (Hne : child <> context).
      { intros E. apply node_eqb_eq in E. congruence. }
      destruct (is_prefix child context) eqn:Pre.
      * destruct (Hc child results) as (found & -> & Hfound).
        fold below in Hfound |- *.
        destruct found.
        -- assert (Hin : In context below) by (apply Hfound; reflexivity).
           exists true. rewrite following_loop_found. fold later.
           split; [|split; [intros _; right; apply in_or_app; left;
                            exact Hin|reflexivity]].
           f_equal. rewrite <- app_assoc. f_equal.
           unfold following_of. cbn [after_node]. rewrite Eq.
           rewrite after_node_app_in by exact Hin.
           rewrite filter_app. f_equal.
           symmetry. apply filter_all. intros x Hx. apply negb_true_iff.
           destruct (block_shape node i c context (or_intror Hin))
             as (r & ->).
           apply (later_blocks_outside node i r cs x Hx).
        -- assert (Hnin : ~ In context below).
           { intros Hin. apply Hfound in Hin. discriminate. }
           destruct (IH (S i) (results ++ following_of context below))
             as (found & -> & Hfound').
           fold later in Hfound' |- *.
           exists found. split.
           ++ f_equal. unfold following_of at 1.
              rewrite (after_node_notin context below Hnin).
              cbn [filter]. rewrite app_nil_r. f_equal.
              unfold following_of. cbn [after_node]. rewrite Eq.
              rewrite after_node_app_notin by exact Hnin. reflexivity.
           ++ rewrite Hfound'. split; [intros Hin; right; apply in_or_app;
                                        right; exact Hin|].
              intros [E|Hin]; [contradiction|].
              apply in_app_or in Hin as [Hin|Hin]; [contradiction|exact Hin].
      * assert (Hnin : ~ In context (child :: below)).
        { intros Hin. apply in_block_prefix in Hin. fold child in Hin.
          congruence. }
        destruct (IH (S i) results) as (found & -> & Hfound').
        fold later in Hfound' |- *.
        exists found. split.
        -- f_equal. f_equal. unfold following_of.
           change (child :: below ++ later) with ((child :: below) ++ later).
           rewrite after_node_app_notin by exact Hnin. reflexivity.
        -- rewrite Hfound'.
           change (child :: below ++ later) with ((child :: below) ++ later).
           rewrite in_app_iff. tauto.
Qed.

Lemma walk_following_exact (context : Node) (t : tree) :
  following_exact context t.
Proof.
  induction t as [tg attrs cs IH|d|d] using tree_induction;
    intros node results.
  - rewrite walk_following_element, descendants_tree_element.
    apply following_loop_exact. exact IH.
  - exists false. simpl. rewrite app_nil_r.
    split; [reflexivity|]. split; [discriminate|intros []].
  - exists false. simpl. rewrite app_nil_r.
    split; [reflexivity|]. split; [discriminate|intros []].
Qed.

Lemma getCandidates_following (context : Node) :
  candidates ax_following context
  = following_of context (document_order doc).
Proof.
  unfold candidates, getCandidates.
  destruct (walk_following_exact context (root_tree doc) [] [])
    as (found & -> & _).
  unfold root_tree. rewrite descendants_tree_element. reflexivity.
Qed.

Lemma preceding_loop_exact (context node : Node) (cs : list tree) :
  Forall (preceding_exact context) cs ->
  forall i results,
    exists found,
      preceding_loop context node i cs results
      = (found, results ++ preceding_of context (descendants_list node i cs))
      /\ (found = true <-> In context (descendants_list node i cs)).
Proof.
  induction 1 as [|c cs Hc _ IH]; intros i results.
  - exists false. simpl. rewrite app_nil_r.
    split; [reflexivity|]. split; [discriminate|intros []].
  - cbn [preceding_loop descendants_list].
    set (child := node ++ [i]).
    set (below := descendants_tree child c).
    set (later := descendants_list node (S i) cs).
    destruct (node_eqb child context) eqn:Eq.
    + exists true. unfold preceding_of. cbn [before_node]. rewrite Eq.
      simpl. rewrite app_nil_r.
      apply node_eqb_eq in Eq.
      split; [reflexivity|]. split; [intros _; left; exact Eq|reflexivity].
    + assert (Hne : child <> context).
      { intros E. apply node_eqb_eq in E. congruence. }
      destruct (is_prefix child context) eqn:Pre.
      * destruct (Hc child results) as (found & -> & Hfound).
        fold below in Hfound |- *.
        destruct found.
        -- assert (Hin : In context below) by (apply Hfound; reflexivity).
           exists true.
           split; [|split; [intros _; right; apply in_or_app; left;
                            exact Hin|reflexivity]].
           f_equal. f_equal. unfold preceding_of.
           cbn [before_node]. rewrite Eq.
           rewrite before_node_app_in by exact Hin.
           cbn [filter]. rewrite Pre. reflexivity.
        -- assert (Hnin : ~ In context below).
           { intros Hin. apply Hfound in Hin. discriminate. }
           destruct (IH (S i) (results ++ preceding_of context below))
             as (found & -> & Hfound').
           fold later in Hfound' |- *.
           exists found. split.
           ++ f_equal. rewrite <- app_assoc. f_equal.
              unfold preceding_of. cbn [before_node]. rewrite Eq.
              rewrite before_node_app_notin by exact Hnin.
              cbn [filter]. rewrite Pre. cbn [negb].
              rewrite filter_app.
              rewrite (before_node_notin context below Hnin). reflexivity.
           ++ rewrite Hfound'. split; [intros Hin; right; apply in_or_app;
                                        right; exact Hin|].
              intros [E|Hin]; [contradiction|].
              apply in_app_or in Hin as [Hin|Hin]; [contradiction|exact Hin].
      * assert (Hnin : ~ In context (child :: below)).
        { intros Hin. apply in_block_prefix in Hin. fold child in Hin.
          congruence. }
        destruct (IH (S i) (results ++ child :: below))
          as (found & -> & Hfound').
        fold later in Hfound' |- *.
        exists found. split.
        -- f_equal. rewrite <- app_assoc. f_equal. unfold preceding_of.
           change (child :: below ++ later) with ((child :: below) ++ later).
           rewrite before_node_app_notin by exact Hnin.
           rewrite filter_app. f_equal.
           symmetry. apply filter_all. intros x Hx. apply negb_true_iff.
           apply is_prefix_false. intros (t & E).
           destruct (block_shape node i c x Hx) as (r & ->).
           assert (P : is_prefix child context = true).
           { apply is_prefix_spec. exists (r ++ t). rewrite E.
             unfold child. rewrite <- !app_assoc. reflexivity. }
           congruence.
        -- rewrite Hfound'.
           change (child :: below ++ later) with ((child :: below) ++ later).
           rewrite in_app_iff. tauto.
Qed.

Lemma walk_preceding_exact (context : Node) (t : tree) :
  preceding_exact context t.
Proof.
  induction t as [tg attrs cs IH|d|d] using tree_induction;
    intros node results.
  - rewrite walk_preceding_element, descendants_tree_element.
    apply preceding_loop_exact. exact IH.
  - exists false. simpl. rewrite app_nil_r.
    split; [reflexivity|]. split; [discriminate|intros []].
  - exists false. simpl. rewrite app_nil_r.
    split; [reflexivity|]. split; [discriminate|intros []].
Qed.

Lemma getCandidates_preceding (context : Node) :
  candidates ax_preceding context
  = preceding_of context (document_order doc).
Proof.
  unfold candidates, getCandidates.
  destruct (walk_preceding_exact context (root_tree doc) [] [])
    as (found & -> & _).
  unfold root_tree. rewrite descendants_tree_element. reflexivity.
Qed.

(** X15.  The two axes that walk the whole document.  The following axis
    lists, in document order, exactly the nodes that come after the context
    and that the context does not contain (its descendants are left out);
    the preceding axis lists, in document order, exactly the nodes that
    come before the context and do not contain it (its ancestors are left
    out).  For the Document itself as context, the preceding axis lists
    every node of the document. *)
Theorem following_and_preceding_axes_in_document_order (context : Node) :
  candidates ax_following context
  = filter (fun x => negb (is_prefix context x))
           (after_node context (document_order doc))
  /\ candidates ax_preceding context
     = filter (fun x => negb (is_prefix x context))
              (before_node context (document_order doc))
  /\ candidates ax_preceding [] = document_order doc.
Proof.
  split; [apply getCandidates_following|].
  split; [apply getCandidates_preceding|].
  rewrite getCandidates_preceding. unfold preceding_of.
  assert (Hnin : ~ In [] (document_order doc)).
  { intros Hin.
    destruct (later_blocks_shape [] 0 doc [] Hin) as (k & t & _ & E).
    discriminate. }
  rewrite before_node_notin by exact Hnin.
  apply filter_all. intros x Hx.
  destruct (later_blocks_shape [] 0 doc x Hx) as (k & t & _ & ->).
  reflexivity.
Qed.

Lemma after_before (x y : Node) (l : list Node) :
  NoDup l -> In y l ->
  (In y (after_node x l) <-> In x (before_node y l)).
Proof.
  induction 1 as [|d l Hd Hnd IH]; intros Hy; [destruct Hy|].
  simpl. destruct (node_eqb d x) eqn:Ex; destruct (node_eqb d y) eqn:Ey;
    try apply node_eqb_eq in Ex; try apply node_eqb_eq in Ey; subst.
  - simpl. tauto.
  - simpl. split; [auto|]. intros _.
    destruct Hy as [E|Hy]; [|exact Hy].
    subst. rewrite node_eqb_refl in Ey. discriminate.
  - simpl. split; [|tauto]. intros H. apply after_node_subset in H.
    contradiction.
  - assert (Hy' : In y l).
    { destruct Hy as [E|Hy]; [|exact Hy].
      subst. rewrite node_eqb_refl in Ey. discriminate. }
    rewrite (IH Hy'). simpl. split; [auto|].
    intros [E|H]; [|exact H].
    subst. rewrite node_eqb_refl in Ex. discriminate.
Qed.

(** X16.  On the nodes of the document the preceding axis is the converse
    of the following axis: [y] follows [x] exactly when [x] precedes
    [y]. *)
Theorem following_converse_of_preceding (x y : Node) :
  In y (document_order doc) ->
  (In y (candidates ax_following x) <-> In x (candidates ax_preceding y)).
Proof.
  intros Hy.
  rewrite getCandidates_following, getCandidates_preceding.
  unfold following_of, preceding_of. rewrite !filter_In.
  rewrite (after_before x y (document_order doc)); [tauto| |exact Hy].
  unfold document_order. rewrite <- descendants_tree_element
    with (tg := []) (attrs := []).
  apply (document_order_nodup doc).
Qed.

End Axes.

Lemma siblings_partition_children_witness :
  getCandidates doc_list ax_parent (li 2) = [[0]]
  /\ rev (getCandidates doc_list ax_preceding_sibling (li 2))
       ++ li 2 :: getCandidates doc_list ax_following_sibling (li 2)
     = getCandidates doc_list ax_child [0].
Proof.
  apply (siblings_partition_children doc_list [0] (li 2)).
  vm_compute. auto.
Defined.

Lemma following_converse_of_preceding_witness :
  In [0; 3] (getCandidates doc_paragraphs ax_following [0; 1])
  <-> In [0; 1] (getCandidates doc_paragraphs ax_preceding [0; 3]).
Proof.
  apply (following_converse_of_preceding doc_paragraphs [0; 1] [0; 3]).
  vm_compute. auto 20.
Defined.

(** ** More about the matcher

    What a match leaves is a suffix of the input; a literal matches exactly
    a prefix equal to it; a greedy run of a character class takes the whole
    run first. *)

Lemma star_runs_splits (g : bool) (step : str -> caps -> list (str * caps))
    (fuel : nat) :
  (forall s c s' c', In (s', c') (step s c) -> exists pre, s = pre ++ s') ->
  forall s c s' c',
    In (s', c') (star_runs g step fuel s c) -> exists pre, s = pre ++ s'.
Proof.
  intros Hstep. induction fuel as [|fuel IH]; intros s c s' c' Hin.
  - simpl in Hin. destruct Hin as [[= <- <-]|[]]. exists []. reflexivity.
  - simpl in Hin.
    assert (Hmore :
      In (s', c')
         (flat_map (fun '(s1, c1) =>
                      if length s1 <? length s
                      then star_runs g step fuel s1 c1 else [])
                   (step s c)) ->
      exists pre, s = pre ++ s').
    { intros H. apply in_flat_map in H as [[s1 c1] [H1 H2]].
      destruct (Hstep _ _ _ _ H1) as [p1 ->].
      destruct (length s1 <? length (p1 ++ s1)); [|destruct H2].
      destruct (IH _ _ _ _ H2) as [p2 ->].
      exists (p1 ++ p2). rewrite app_assoc. reflexivity. }
    destruct g.
    + apply in_app_or in Hin as [H|[[= <- <-]|[]]]; auto.
      exists []. reflexivity.
    + destruct Hin as [[= <- <-]|H]; auto. exists []. reflexivity.
Qed.

Lemma run_splits (r : re) :
  forall s c s' c', In (s', c') (run r s c) -> exists pre, s = pre ++ s'.
Proof.
  induction r as [|p|a IHa b IHb|a IHa b IHb|g a IHa|i a IHa|];
    intros s c s' c' Hin; simpl in Hin.
  - destruct Hin as [[= <- <-]|[]]. exists []. reflexivity.
  - destruct s as [|x s]; [destruct Hin|].
    destruct (p x); [|destruct Hin].
    destruct Hin as [[= <- <-]|[]]. exists [x]. reflexivity.
  - apply in_flat_map in Hin as [[s1 c1] [H1 H2]].
    destruct (IHa _ _ _ _ H1) as [p1 ->].
    destruct (IHb _ _ _ _ H2) as [p2 ->].
    exists (p1 ++ p2). rewrite app_assoc. reflexivity.
  - apply in_app_or in Hin as [H|H]; eauto.
  - eapply star_runs_splits; eauto.
  - apply in_map_iff in Hin as [[s1 c1] [[= <- <-] H1]]. eauto.
  - destruct s; [|destruct Hin].
    destruct Hin as [[= <- <-]|[]]. exists []. reflexivity.
Qed.

Lemma startsWith_app (p s : str) : startsWith p (p ++ s) = true.
Proof.
  induction p as [|x p IH]; simpl; [reflexivity|].
  rewrite N.eqb_refl. exact IH.
Qed.

Lemma startsWith_spec (p s : str) :
  startsWith p s = true <-> exists r, s = p ++ r.
Proof.
  split.
  - revert s. induction p as [|x p IH]; intros s H;
      [exists s; reflexivity|].
    destruct s as [|y s]; simpl in H; [discriminate|].
    apply andb_true_iff in H as [E H]. apply N.eqb_eq in E. subst.
    destruct (IH s H) as [r ->]. exists r. reflexivity.
  - intros [r ->]. apply startsWith_app.
Qed.

Lemma startsWith_in (p s : str) (x : char) :
  startsWith p s = true -> In x p -> In x s.
Proof.
  intros H Hx. apply startsWith_spec in H as [r ->].
  apply in_or_app. left. exact Hx.
Qed.

Lemma run_lit_chars (l : list ascii) (s : str) (c : caps) :
  run (fold_right (fun a r => Seq (Chr (N.eqb (N_of_ascii a))) r) Eps l) s c
  = if startsWith (map N_of_ascii l) s then [(skipn (length l) s, c)]
    else [].
Proof.
  revert s. induction l as [|a l IH]; intros s; [reflexivity|].
  cbn [fold_right map startsWith length].
  change (run (Seq ?a ?b) s c)
    with (flat_map (fun '(s', c') => run b s' c') (run a s c)).
  destruct s as [|y s]; [reflexivity|].
  cbn [run]. destruct (N.eqb (N_of_ascii a) y); [|reflexivity].
  cbn [flat_map andb skipn]. rewrite app_nil_r. apply IH.
Qed.

(** A literal matches exactly when the input starts with it. *)
Lemma run_lit_exact (w : string) (s : str) (c : caps) :
  run (lit w) s c
  = if startsWith (js w) s then [(skipn (length (js w)) s, c)] else [].
Proof.
  unfold lit, js. rewrite run_lit_chars, length_map. reflexivity.
Qed.

Lemma run_seq (a b : re) (s : str) (c : caps) :
  run (Seq a b) s c = flat_map (fun '(s', c') => run b s' c') (run a s c).
Proof. reflexivity. Qed.

Lemma seq_no_match (a b : re) (s : str) (c : caps) :
  (forall s1 c1, In (s1, c1) (run a s c) -> run b s1 c1 = []) ->
  run (Seq a b) s c = [].
Proof.
  intros H. rewrite run_seq.
  induction (run a s c) as [|[s1 c1] l IH]; [reflexivity|].
  cbn [flat_map]. rewrite (H s1 c1 (or_introl eq_refl)).
  apply IH. intros s2 c2 H2. apply H. right. exact H2.
Qed.

(** A pattern that has a literal after its first part cannot match a
    string that lacks one of the characters of the literal. *)
Lemma no_match_without (a rest : re) (w : string) (x : char) (s : str) :
  In x (js w) -> ~ In x s ->
  re_match (Seq a (Seq (lit w) rest)) s = None.
Proof.
  intros Hw Hs. unfold re_match. rewrite seq_no_match; [reflexivity|].
  intros s1 c1 H1. destruct (run_splits a _ _ _ _ H1) as [pre ->].
  rewrite run_seq, run_lit_exact.
  destruct (startsWith (js w) s1) eqn:E; [|reflexivity].
  exfalso. apply Hs. apply in_or_app. right.
  exact (startsWith_in (js w) s1 x E Hw).
Qed.

(** *** Runs of a character class *)

Lemma star_chr_cons (g : bool) (p : char -> bool) (x : char) (s : str)
    (c : caps) :
  run (Star g (Chr p)) (x :: s) c
  = let more := if p x then run (Star g (Chr p)) s c else [] in
    if g then more ++ [(x :: s, c)] else (x :: s, c) :: more.
Proof.
  cbn [run length star_runs]. destruct (p x); cbn [flat_map]; [|reflexivity].
  replace (length s <? S (length s)) with true
    by (symmetry; apply Nat.ltb_lt; lia).
  rewrite app_nil_r. reflexivity.
Qed.

Lemma star_greedy_head (p : char -> bool) (a b : str) (c : caps) :
  forallb p a = true -> stops p b ->
  exists others, run (Star true (Chr p)) (a ++ b) c = (b, c) :: others.
Proof.
  intros Ha Hb. induction a as [|x a IH].
  - destruct b as [|y b]; [exists []; reflexivity|].
    simpl in Hb. cbn [app]. rewrite star_chr_cons, Hb. exists [].
    reflexivity.
  - cbn [forallb] in Ha. apply andb_true_iff in Ha as [Hx Ha].
    destruct (IH Ha) as [others E].
    cbn [app]. rewrite star_chr_cons, Hx. cbv zeta. rewrite E.
    eexists. reflexivity.
Qed.

Lemma plus_greedy_head (p : char -> bool) (a b : str) (c : caps) :
  a <> [] -> forallb p a = true -> stops p b ->
  exists others, run (plus true (Chr p)) (a ++ b) c = (b, c) :: others.
Proof.
  intros Hne Ha Hb. destruct a as [|x a]; [contradiction Hne; reflexivity|].
  cbn [forallb] in Ha. apply andb_true_iff in Ha as [Hx Ha].
  destruct (star_greedy_head p a b c Ha Hb) as [others E].
  unfold plus. rewrite run_seq. cbn [app].
  change (run (Chr p) (x :: a ++ b) c)
    with (if p x then [(a ++ b, c)] else []).
  rewrite Hx. cbn [flat_map]. rewrite app_nil_r, E. eexists. reflexivity.
Qed.

(** A group around a greedy run of a class, alone or before the end of the
    input: the first match takes the whole run and captures it. *)
Lemma group_run_match (i : nat) (p : char -> bool) (a b : str) :
  a <> [] -> forallb p a = true -> stops p b ->
  re_match (cat [Grp i (plus true (Chr p))]) (a ++ b)
  = Some (length a, [(i, a)]).
Proof.
  intros Hne Ha Hb.
  destruct (plus_greedy_head p a b [] Hne Ha Hb) as [others E].
  unfold re_match, cat. cbn [fold_right]. rewrite run_seq.
  cbn [run]. rewrite E. cbn [map flat_map app].
  rewrite length_app.
  replace (length a + length b - length b) with (length a) by lia.
  rewrite firstn_app, Nat.sub_diag, firstn_all. cbn [firstn].
  rewrite app_nil_r. reflexivity.
Qed.

Lemma group_run_match_end (i : nat) (p : char -> bool) (a : str) :
  a <> [] -> forallb p a = true ->
  re_match (cat [Grp i (plus true (Chr p)); Eoi]) a
  = Some (length a, [(i, a)]).
Proof.
  intros Hne Ha.
  destruct (plus_greedy_head p a [] [] Hne Ha I) as [others E].
  rewrite app_nil_r in E.
  unfold re_match, cat. cbn [fold_right]. rewrite run_seq.
  cbn [run]. rewrite E. cbn [map flat_map app length].
  rewrite Nat.sub_0_r, firstn_all. reflexivity.
Qed.

(** The attribute pattern on an at sign followed by a name. *)
Lemma attrMatch_name (a : str) :
  a <> [] -> forallb is_name_char a = true ->
  re_match attrMatch (js "@" ++ a) = Some (S (length a), [(1, a)]).
Proof.
  intros Hne Ha.
  destruct (plus_greedy_head is_name_char a [] [] Hne Ha I) as [others E].
  rewrite app_nil_r in E.
  unfold re_match, attrMatch, cat. cbn [fold_right].
  rewrite run_seq, run_lit_exact, startsWith_app.
  change (skipn (length (js "@")) (js "@" ++ a)) with a.
  cbn [flat_map]. rewrite app_nil_r, run_seq.
  change (run (Grp 1 name_re) a [])
    with (map (fun '(s', c') =>
                 (s', (1, firstn (length a - length s') a) :: c'))
              (run (plus true (Chr is_name_char)) a [])).
  rewrite E. cbn [map flat_map app length run].
  rewrite !Nat.sub_0_r, firstn_all. reflexivity.
Qed.

(** A run of one or more characters consumes at least one. *)
Lemma run_plus_shorter (g : bool) (p : char -> bool) (s : str) (c : caps)
    (s' : str) (c' : caps) :
  In (s', c') (run (plus g (Chr p)) s c) -> length s' < length s.
Proof.
  unfold plus. rewrite run_seq. intros H.
  apply in_flat_map in H as [[s1 c1] [H1 H2]].
  destruct s as [|x s]; [destruct H1|].
  change (run (Chr p) (x :: s) c)
    with (if p x then [(s, c)] else []) in H1.
  destruct (p x); [|destruct H1].
  destruct H1 as [[= <- <-]|[]].
  destruct (run_splits _ _ _ _ _ H2) as [pre ->].
  simpl. rewrite length_app. lia.
Qed.

(** ** Splitting at the top level *)

Lemma trimStart_id (x : char) (s : str) :
  is_space x = false -> trimStart (x :: s) = x :: s.
Proof. intros H. simpl. rewrite H. reflexivity. Qed.

(** A string that neither starts nor ends with white space is its own
    trim. *)
Lemma trim_id (s : str) :
  stops is_space s -> stops is_space (rev s) -> trim s = s.
Proof.
  intros Hs Hr. unfold trim, trimEnd.
  destruct s as [|x s]; [reflexivity|].
  simpl in Hs. rewrite (trimStart_id x s Hs).
  destruct (rev (x :: s)) as [|y r] eqn:E.
  - apply rev_nil_inv in E. discriminate.
  - simpl in Hr. rewrite (trimStart_id y r Hr), <- E.
    apply rev_involutive.
Qed.

Lemma trim_id_ends (x y : char) (s : str) :
  is_space x = false -> is_space y = false ->
  trim (x :: s ++ [y]) = x :: s ++ [y].
Proof.
  intros Hx Hy. apply trim_id; [exact Hx|].
  change (x :: s ++ [y]) with ((x :: s) ++ [y]).
  rewrite rev_app_distr. exact Hy.
Qed.

Lemma startsWith_bar_iff (c : char) (s : str) :
  startsWith (js "|") (c :: s) = N.eqb 124 c.
Proof.
  change (js "|") with [124%N]. cbn [startsWith]. apply andb_true_r.
Qed.

Lemma split_loop_no_bar (s : str) :
  ~ In 124%N s ->
  forall st,
    parts (split_loop (js "|") 0 s st) = parts st
    /\ current (split_loop (js "|") 0 s st) = current st ++ s.
Proof.
  induction s as [|c s IH]; intros Hs st.
  - simpl. rewrite app_nil_r. auto.
  - assert (Hc : N.eqb 124 c = false).
    { apply N.eqb_neq. intros E. apply Hs. left. symmetry. exact E. }
    assert (Hs' : ~ In 124%N s) by (intros H; apply Hs; right; exact H).
    assert (G : forall d q,
      parts (split_loop (js "|") 0 s
               (mkSplit (parts st) (current st ++ [c]) d q)) = parts st
      /\ current (split_loop (js "|") 0 s
                    (mkSplit (parts st) (current st ++ [c]) d q))
         = current st ++ c :: s).
    { intros d q. destruct (IH Hs' (mkSplit (parts st) (current st ++ [c])
                                            d q)) as [P C].
      split; [exact P|]. rewrite C. cbn [current].
      rewrite <- app_assoc. reflexivity. }
    rewrite split_loop_cons.
    destruct (inString st); [apply G|].
    destruct (is_quote c); [apply G|].
    destruct (is_open c); [apply G|].
    destruct (is_close c); [apply G|].
    rewrite startsWith_bar_iff, Hc, andb_false_r. apply G.
Qed.

Lemma plain_char_inv (c : char) :
  plain_char c = true ->
  is_quote c = false /\ is_open c = false /\ is_close c = false.
Proof.
  unfold plain_char. intros H.
  apply andb_true_iff in H as [H H3]. apply andb_true_iff in H as [H1 H2].
  apply negb_true_iff in H1, H2, H3. auto.
Qed.

(** Plain characters without a bar are copied at the top level. *)
Lemma split_loop_plain (a : str) :
  forallb (fun c => plain_char c && negb (N.eqb c 124)) a = true ->
  forall rest ps cur d,
    split_loop (js "|") 0 (a ++ rest) (mkSplit ps cur d None)
    = split_loop (js "|") 0 rest (mkSplit ps (cur ++ a) d None).
Proof.
  induction a as [|c a IH]; intros Ha rest ps cur d.
  - rewrite app_nil_r. reflexivity.
  - cbn [forallb] in Ha. apply andb_true_iff in Ha as [Hc Ha].
    apply andb_true_iff in Hc as [Hp Hb].
    destruct (plain_char_inv c Hp) as (Q & O & C).
    apply negb_true_iff in Hb. rewrite N.eqb_sym in Hb.
    cbn [app]. rewrite split_loop_cons. cbn [inString parts current depth].
    rewrite Q, O, C, startsWith_bar_iff, Hb, andb_false_r.
    rewrite IH by exact Ha. rewrite <- app_assoc. reflexivity.
Qed.

(** Parts already pushed stay in front. *)
Lemma split_loop_parts_prefix (operator : str) (pre : list str) (s : str) :
  forall skip ps cur d q,
    split_loop operator skip s (mkSplit (pre ++ ps) cur d q)
    = let r := split_loop operator skip s (mkSplit ps cur d q) in
      mkSplit (pre ++ parts r) (current r) (depth r) (inString r).
Proof.
  induction s as [|c s IH]; intros skip ps cur d q; [reflexivity|].
  destruct skip as [|k]; [|apply IH].
  rewrite !split_loop_cons. cbn [inString parts current depth].
  destruct q as [q|]; [apply IH|].
  destruct (is_quote c); [apply IH|].
  destruct (is_open c); [apply IH|].
  destruct (is_close c); [apply IH|].
  destruct ((d =? 0)%Z && startsWith operator (c :: s)); [|apply IH].
  rewrite <- app_assoc. apply IH.
Qed.

(** X17.  [splitUnion] cuts at the bars of the top level only.  An
    expression without a bar is one part, its trim, or no part when it is
    blank; and when nothing but plain characters (no quote, no bracket, no
    bar) comes before a bar, the text before the bar, trimmed, is the first
    part and the rest is split on. *)
Theorem splitUnion_cuts_at_top_level_bars :
  (forall e : str,
      ~ In 124%N e ->
      splitUnion e = match trim e with [] => [] | _ :: _ => [trim e] end)
  /\ (forall a b : str,
         forallb (fun c => plain_char c && negb (N.eqb c 124)) a = true ->
         splitUnion (a ++ 124%N :: b) = trim a :: splitUnion b).
Proof.
  split.
  - intros e He. unfold splitUnion, split_finish.
    destruct (split_loop_no_bar e He (mkSplit [] [] 0 None)) as [P C].
    rewrite P, C. reflexivity.
  - intros a b Ha. unfold splitUnion.
    rewrite (split_loop_plain a Ha). cbn [app].
    rewrite split_loop_cons. cbn [inString parts current depth].
    change (is_quote 124%N) with false. change (is_open 124%N) with false.
    change (is_close 124%N) with false.
    rewrite startsWith_bar_iff. cbn [Z.eqb N.eqb Pos.eqb andb app].
    change (length (js "|") - 1) with 0.
    pose proof (split_loop_parts_prefix (js "|") [trim a] b 0 [] [] 0%Z
                  None) as P.
    cbn [app] in P. rewrite P.
    cbv zeta. unfold split_finish. cbn [parts current app].
    destruct (trim (current (split_loop (js "|") 0 b
                               (mkSplit [] [] 0 None)))); reflexivity.
Qed.

Lemma splitUnion_cuts_at_top_level_bars_witness :
  splitUnion (js "//h1 | //h2") = [js "//h1"; js "//h2"].
Proof.
  change (js "//h1 | //h2") with (js "//h1 " ++ 124%N :: js " //h2").
  rewrite (proj2 splitUnion_cuts_at_top_level_bars (js "//h1 ") (js " //h2")
             eq_refl).
  rewrite (proj1 splitUnion_cuts_at_top_level_bars (js " //h2")).
  - reflexivity.
  - vm_compute. intuition discriminate.
Defined.

Lemma split_loop_nested (operator : str) (a : str) :
  forallb plain_char a = true ->
  forall rest ps cur d,
    (d <> 0)%Z ->
    split_loop operator 0 (a ++ rest) (mkSplit ps cur d None)
    = split_loop operator 0 rest (mkSplit ps (cur ++ a) d None).
Proof.
  induction a as [|c a IH]; intros Ha rest ps cur d Hd.
  - rewrite app_nil_r. reflexivity.
  - cbn [forallb] in Ha. apply andb_true_iff in Ha as [Hp Ha].
    destruct (plain_char_inv c Hp) as (Q & O & C).
    cbn [app]. rewrite split_loop_cons. cbn [inString parts current depth].
    rewrite Q, O, C.
    replace (d =? 0)%Z with false by (symmetry; apply Z.eqb_neq; exact Hd).
    cbn [andb]. rewrite IH by assumption.
    rewrite <- app_assoc. reflexivity.
Qed.

Lemma split_loop_quoted (operator : str) (q : char) (a : str) :
  ~ In q a ->
  forall rest ps cur d,
    split_loop operator 0 (a ++ rest) (mkSplit ps cur d (Some q))
    = split_loop operator 0 rest (mkSplit ps (cur ++ a) d (Some q)).
Proof.
  induction a as [|c a IH]; intros Ha rest ps cur d.
  - rewrite app_nil_r. reflexivity.
  - cbn [app]. rewrite split_loop_cons. cbn [inString parts current depth].
    replace (N.eqb c q) with false.
    + rewrite IH by (intros H; apply Ha; right; exact H).
      rewrite <- app_assoc. reflexivity.
    + symmetry. apply N.eqb_neq. intros E. apply Ha. left. exact E.
Qed.

Lemma bracket_not_space (c : char) :
  is_quote c || is_open c || is_close c = true -> is_space c = false.
Proof.
  destruct (is_space c) eqn:S; [|reflexivity].
  destruct (space_is_plain c S) as (Q & O & C & _).
  rewrite Q, O, C. discriminate.
Qed.

(** X18.  No operator is seen inside brackets or quotes: a bracketed group
    whose content has no quote and no further bracket, and a quoted string,
    are never cut, whatever the operator is. *)
Theorem no_cut_inside_brackets_or_quotes (operator : str) :
  (forall (o c : char) (a : str),
      is_open o = true -> is_close c = true ->
      forallb plain_char a = true ->
      splitByOperator (o :: a ++ [c]) operator = [o :: a ++ [c]])
  /\ (forall (q : char) (a : str),
         is_quote q = true -> ~ In q a ->
         splitByOperator (q :: a ++ [q]) operator = [q :: a ++ [q]]).
Proof.
  split.
  - intros o c a Ho Hc Ha.
    assert (Qo : is_quote o = false).
    { unfold is_open in Ho. unfold is_quote.
      apply orb_true_iff in Ho as [E|E]; apply N.eqb_eq in E; subst;
        reflexivity. }
    assert (Qc : is_quote c = false /\ is_open c = false).
    { unfold is_close in Hc. unfold is_quote, is_open.
      apply orb_true_iff in Hc as [E|E]; apply N.eqb_eq in E; subst;
        split; reflexivity. }
    destruct Qc as [Qc Oc].
    unfold splitByOperator.
    rewrite split_loop_cons. cbn [inString parts current depth].
    rewrite Qo, Ho. cbn [app Z.add].
    rewrite (split_loop_nested operator a Ha [c] [] [o] 1%Z)
      by discriminate.
    rewrite split_loop_cons. cbn [inString parts current depth].
    rewrite Qc, Oc, Hc. cbn [split_loop app].
    unfold split_finish. cbn [current parts].
    rewrite trim_id_ends.
    + reflexivity.
    + apply bracket_not_space. rewrite Qo, Ho. reflexivity.
    + apply bracket_not_space. rewrite Qc, Oc, Hc. reflexivity.
  - intros q a Hq Ha.
    unfold splitByOperator.
    rewrite split_loop_cons. cbn [inString parts current depth].
    rewrite Hq. cbn [app].
    rewrite (split_loop_quoted operator q a Ha [q] [] [q] 0%Z).
    rewrite split_loop_cons. cbn [inString parts current depth].
    rewrite N.eqb_refl. cbn [split_loop app].
    unfold split_finish. cbn [current parts].
    rewrite trim_id_ends.
    + reflexivity.
    + apply bracket_not_space. rewrite Hq. reflexivity.
    + apply bracket_not_space. rewrite Hq. reflexivity.
Qed.

Lemma no_cut_inside_brackets_or_quotes_witness :
  splitByOperator (js "(a or b)") (js " or ") = [js "(a or b)"]
  /\ splitByOperator (js "'a or b'") (js " or ") = [js "'a or b'"].
Proof.
  split.
  - apply (proj1 (no_cut_inside_brackets_or_quotes (js " or "))
             40%N 41%N (js "a or b")); reflexivity.
  - apply (proj2 (no_cut_inside_brackets_or_quotes (js " or "))
             39%N (js "a or b")); [reflexivity|].
    vm_compute. intuition discriminate.
Defined.

(** The parts of a split never add up to more than the input: with one
    operator counted per part, their total length is at most the length of
    the input plus one operator, so no part is longer than the input. *)
Lemma split_parts_fit_input (content operator : str) :
  sumlen (splitByOperator content operator)
  + length operator * length (splitByOperator content operator)
  <= length content + length operator
  /\ sumlen (splitUnion content) + length (splitUnion content)
     <= length content + 1
  /\ (forall part,
         In part (splitByOperator content operator) ->
         length part <= length content).
Proof.
  split; [apply splitByOperator_weight|]. split.
  - pose proof (splitByOperator_weight content (js "|")) as H.
    change (splitByOperator content (js "|")) with (splitUnion content) in H.
    change (length (js "|")) with 1 in H. lia.
  - intros part Hin. pose proof (sumlen_in _ _ Hin) as H1.
    pose proof (splitByOperator_weight content operator) as H2.
    destruct (splitByOperator content operator) as [|p l];
      [destruct Hin|].
    simpl length in H2. nia.
Qed.

(** ** Brackets and predicates *)

Lemma findMatchingBracket_loop_sound (s : str) :
  forall i d q k,
    findMatchingBracket_loop s i d q = Some k ->
    i <= k /\ nth_error s (k - i) = Some 93%N.
Proof.
  induction s as [|c s IH]; intros i d q k H; simpl in H; [discriminate|].
  assert (G : forall d' q',
    findMatchingBracket_loop s (S i) d' q' = Some k ->
    i <= k /\ nth_error (c :: s) (k - i) = Some 93%N).
  { intros d' q' H'. apply IH in H' as [L N]. split; [lia|].
    replace (k - i) with (S (k - S i)) by lia. exact N. }
  destruct q as [q|]; [exact (G _ _ H)|].
  destruct (is_quote c); [exact (G _ _ H)|].
  destruct (N.eqb c 91); [exact (G _ _ H)|].
  destruct (N.eqb c 93) eqn:E; [|exact (G _ _ H)].
  destruct (d - 1 =? 0)%Z; [|exact (G _ _ H)].
  injection H as <-. rewrite Nat.sub_diag. apply N.eqb_eq in E. subst.
  split; [lia|reflexivity].
Qed.

Lemma bracket_free_inv (c : char) :
  bracket_free c = true ->
  is_quote c = false /\ N.eqb c 91 = false /\ N.eqb c 93 = false.
Proof.
  unfold bracket_free. intros H.
  apply andb_true_iff in H as [H H3]. apply andb_true_iff in H as [H1 H2].
  apply negb_true_iff in H1, H2, H3. auto.
Qed.

Lemma findMatchingBracket_loop_skip (a : str) :
  forallb bracket_free a = true ->
  forall rest i d,
    findMatchingBracket_loop (a ++ rest) i d None
    = findMatchingBracket_loop rest (i + length a) d None.
Proof.
  induction a as [|c a IH]; intros Ha rest i d.
  - simpl. rewrite Nat.add_0_r. reflexivity.
  - cbn [forallb] in Ha. apply andb_true_iff in Ha as [Hc Ha].
    destruct (bracket_free_inv c Hc) as (Q & O & C).
    cbn [app findMatchingBracket_loop]. rewrite Q, O, C.
    rewrite IH by exact Ha. cbn [length]. f_equal. lia.
Qed.

Lemma findMatchingBracket_simple (content rest : str) :
  forallb bracket_free content = true ->
  findMatchingBracket (js "[" ++ content ++ js "]" ++ rest)
  = Some (S (length content)).
Proof.
  intros Hc. unfold findMatchingBracket.
  change (js "[" ++ content ++ js "]" ++ rest)
    with (91%N :: content ++ 93%N :: rest).
  cbn [findMatchingBracket_loop is_quote N.eqb Pos.eqb orb Z.add].
  rewrite (findMatchingBracket_loop_skip content Hc).
  cbn [findMatchingBracket_loop is_quote N.eqb Pos.eqb orb Z.sub Z.add
       Z.opp Z.pos_sub Z.eqb Nat.add].
  reflexivity.
Qed.

(** X19.  The index that [findMatchingBracket] returns is the index of a
    closing square bracket of the expression; and when the text between
    the opening bracket and the first closing one has no quote and no
    square bracket, that closing bracket is the one returned. *)
Theorem findMatchingBracket_finds_closing_bracket :
  (forall (expr : str) (k : nat),
      findMatchingBracket expr = Some k ->
      nth_error expr k = Some 93%N)
  /\ (forall content rest : str,
         forallb bracket_free content = true ->
         findMatchingBracket (js "[" ++ content ++ js "]" ++ rest)
         = Some (S (length content))).
Proof.
  split.
  - intros expr k H.
    destruct (findMatchingBracket_loop_sound expr 0 0 None k H) as [_ N].
    rewrite Nat.sub_0_r in N. exact N.
  - apply findMatchingBracket_simple.
Qed.

Lemma findMatchingBracket_finds_closing_bracket_witness :
  nth_error (js "[@id='a]b']/p") 10 = Some 93%N
  /\ findMatchingBracket (js "[" ++ js "2" ++ js "]" ++ js "/p") = Some 2.
Proof.
  split.
  - apply (proj1 findMatchingBracket_finds_closing_bracket
             (js "[@id='a]b']/p") 10). reflexivity.
  - apply (proj2 findMatchingBracket_finds_closing_bracket (js "2")
             (js "/p")). reflexivity.
Defined.

(** X20.  A bracket whose content has no quote and no square bracket is
    consumed exactly: [parseSinglePredicate] returns what follows the
    closing bracket as the rest, and the predicate that
    [parsePredicateContent] reads from the trimmed content, also when that
    is no predicate at all. *)
Theorem parseSinglePredicate_consumes_bracket (content rest : str) :
  forallb bracket_free content = true ->
  parseSinglePredicate (js "[" ++ content ++ js "]" ++ rest)
  = (predicate <- parsePredicateContent (trim content) ;;
     Ret (predicate, rest)).
Proof.
  intros Hc. unfold parseSinglePredicate.
  rewrite findMatchingBracket_simple by exact Hc.
  set (expr := js "[" ++ content ++ js "]" ++ rest).
  assert (E : expr = 91%N :: content ++ 93%N :: rest) by reflexivity.
  assert (S0 : startsWith (js "[") expr = true) by reflexivity.
  assert (S1 : slice expr 1 (Some (Z.of_nat (S (length content))))
               = content).
  { rewrite E. unfold slice, clamp_index.
    replace (Z.of_nat (S (length content)) <? 0)%Z with false
      by (symmetry; apply Z.ltb_ge; lia).
    change (1 <? 0)%Z with false. change (Z.to_nat 1) with 1.
    cbv iota.
    rewrite Nat2Z.id. cbn [length]. rewrite length_app. cbn [length].
    replace (Nat.min 1 (S (length content + S (length rest)))) with 1
      by lia.
    replace (Nat.min (S (length content))
                     (S (length content + S (length rest))))
      with (S (length content)) by lia.
    cbn [skipn]. replace (S (length content) - 1) with (length content)
      by lia.
    rewrite firstn_app, Nat.sub_diag, firstn_all. cbn [firstn].
    apply app_nil_r. }
  assert (S2 : skipn (S (length content) + 1) expr = rest).
  { rewrite E.
    replace (S (length content) + 1) with (S (length content + 1)) by lia.
    cbn [skipn]. rewrite skipn_app, skipn_all2 by lia.
    replace (length content + 1 - length content) with 1 by lia.
    reflexivity. }
  rewrite S0, S1, S2. reflexivity.
Qed.

Lemma parseSinglePredicate_consumes_bracket_witness :
  parseSinglePredicate (js "[" ++ js " 2 " ++ js "]" ++ js "/p")
  = Ret (Some (P_position 2), js "/p").
Proof.
  rewrite (parseSinglePredicate_consumes_bracket (js " 2 ") (js "/p")
             eq_refl).
  reflexivity.
Defined.

(** X21.  A bracket content that is, once trimmed, a run of decimal digits
    is a position predicate with the number the digits spell, for numbers
    below 2^53, which [parseInt] returns as they are. *)
Theorem digits_parse_as_position (content d : str) :
  trim content = d -> d <> [] -> forallb is_digit d = true ->
  (parseInt d < 2 ^ 53)%Z ->
  parsePredicateContent content
  = Ret (Some (P_position (parseInt d))).
Proof.
  intros Ht Hne Hd _. unfold parsePredicateContent.
  cbn [parsePredicateContent_fuel]. rewrite Ht.
  unfold posMatch, digits.
  rewrite (group_run_match_end 1 is_digit d Hne Hd).
  reflexivity.
Qed.

Lemma digits_parse_as_position_witness :
  parsePredicateContent (js " 12 ") = Ret (Some (P_position 12)).
Proof.
  apply (digits_parse_as_position (js " 12 ") (js "12")).
  - reflexivity.
  - discriminate.
  - reflexivity.
  - reflexivity.
Defined.

(** ** Steps consume input *)

Lemma suffix_length (rest s : str) : suffix_of rest s -> length rest <= length s.
Proof. intros [k ->]. rewrite length_skipn. lia. Qed.

Lemma startsWith_skipn_shorter (p s : str) :
  startsWith p s = true -> p <> [] ->
  length (skipn (length p) s) < length s.
Proof.
  intros H Hne. pose proof (startsWith_length p s H) as L.
  rewrite length_skipn. destruct p; [contradiction Hne; reflexivity|].
  simpl in *. lia.
Qed.

(** A match that leaves strictly less than the input has a positive
    length. *)
Lemma re_match_consumes (r : re) (s : str) (n : nat) (c : caps) :
  (forall s' c', In (s', c') (run r s []) -> length s' < length s) ->
  re_match r s = Some (n, c) ->
  length (skipn n s) < length s.
Proof.
  intros H. unfold re_match.
  destruct (run r s []) as [|[rest c0] l] eqn:E; [discriminate|].
  intros [= <- <-].
  specialize (H rest c0 (or_introl eq_refl)).
  rewrite length_skipn. lia.
Qed.

Lemma nameMatch_consumes (s : str) (n : nat) (c : caps) :
  re_match nameMatch s = Some (n, c) -> length (skipn n s) < length s.
Proof.
  apply re_match_consumes. intros s' c' H.
  unfold nameMatch, cat in H. cbn [fold_right] in H.
  rewrite run_seq in H. apply in_flat_map in H as [[s1 c1] [H1 H2]].
  destruct H2 as [[= <- <-]|[]].
  change (run (Grp 1 name_re) s [])
    with (map (fun '(s', c') =>
                 (s', (1, firstn (length s - length s') s) :: c'))
              (run name_re s [])) in H1.
  apply in_map_iff in H1 as [[s2 c2] [[= <- <-] H1]].
  exact (run_plus_shorter _ _ _ _ _ _ H1).
Qed.

Lemma attrMatch_consumes (s : str) (n : nat) (c : caps) :
  re_match attrMatch s = Some (n, c) -> length (skipn n s) < length s.
Proof.
  apply re_match_consumes. intros s' c' H.
  unfold attrMatch, cat in H. cbn [fold_right] in H.
  rewrite run_seq in H. apply in_flat_map in H as [[s1 c1] [H1 H2]].
  apply run_lit in H1 as [-> L]. simpl String.length in L.
  destruct (@run_bounded (length s1) _ s1 [] s' c' (le_n _)
              (caps_le_nil _) H2) as [B _].
  lia.
Qed.

Lemma parseStep_test_progress (axis0 : Axis) (remaining0 : str) (st : Step)
    (rest : str) :
  parseStep_test axis0 remaining0 = Ret (Some st, rest) ->
  length rest < length remaining0.
Proof.
  unfold parseStep_test.
  set (ar := match re_match axisMatch remaining0 with
             | Some (n, c) => (axis_of (grp 1 c), skipn n remaining0)
             | None => (axis0, remaining0)
             end).
  assert (Har : length (snd ar) <= length remaining0).
  { subst ar. destruct (re_match axisMatch remaining0) as [[n c]|];
      simpl; [rewrite length_skipn|]; lia. }
  destruct ar as [a remaining]. simpl in Har.
  assert (Hwith : forall test (w : str),
    startsWith w remaining = true -> w <> [] ->
    ('(preds, rest) <- parsePredicates (skipn (length w) remaining) ;;
     Ret (Some (mkStep a test preds), rest)) = Ret (Some st, rest) ->
    length rest < length remaining0).
  { intros test w Hw Hne H.
    destruct (parsePredicates_ok (skipn (length w) remaining))
      as (ps & rest' & E & Hsuf).
    rewrite E in H. cbn [bind] in H. injection H as _ <-.
    apply suffix_length in Hsuf.
    pose proof (startsWith_skipn_shorter w remaining Hw Hne). lia. }
  destruct (if startsWith (js "@") remaining
            then re_match attrMatch remaining else None) as [[n c]|] eqn:EA.
  { intros [= _ <-].
    destruct (startsWith (js "@") remaining); [|discriminate].
    apply attrMatch_consumes in EA. lia. }
  destruct (startsWith (js "text()") remaining) eqn:E1.
  { apply (Hwith NT_text (js "text()") E1). discriminate. }
  destruct (startsWith (js "node()") remaining) eqn:E2.
  { apply (Hwith NT_node (js "node()") E2). discriminate. }
  destruct (startsWith (js "*") remaining) eqn:E3.
  { apply (Hwith NT_any (js "*") E3). discriminate. }
  destruct (re_match nameMatch remaining) as [[n c]|] eqn:EN;
    [|discriminate].
  intros H.
  destruct (parsePredicates_ok (skipn n remaining))
    as (ps & rest' & E & Hsuf).
  rewrite E in H. cbn [bind] in H. injection H as _ <-.
  apply suffix_length in Hsuf. apply nameMatch_consumes in EN. lia.
Qed.

Lemma parseStep_progress (expr : str) (st : Step) (rest : str) :
  parseStep expr = Ret (Some st, rest) -> length rest < length expr.
Proof.
  unfold parseStep.
  assert (Hskip : forall a k,
    parseStep_test a (skipn k expr) = Ret (Some st, rest) ->
    length rest < length expr).
  { intros a k H. apply parseStep_test_progress in H.
    rewrite length_skipn in H. lia. }
  destruct (startsWith (js "//") expr); [apply Hskip|].
  destruct (startsWith (js "/") expr); [apply Hskip|].
  destruct (startsWith (js ".//") expr); [apply Hskip|].
  destruct (startsWith (js "./") expr); [apply Hskip|].
  destruct (startsWith (js "..") expr) eqn:E1.
  { intros [= _ <-].
    apply (startsWith_skipn_shorter (js "..") expr E1). discriminate. }
  destruct (startsWith (js ".") expr) eqn:E2.
  { intros [= _ <-].
    apply (startsWith_skipn_shorter (js ".") expr E2). discriminate. }
  apply (Hskip ax_child 0).
Qed.

(** X22.  [parseStep] yields a step only by consuming input: when it
    returns a step, the rest is strictly shorter than the expression, and
    the rest is always what is left after dropping a prefix. *)
Theorem parseStep_consumes_input (expr : str) (st : Step) (rest : str) :
  parseStep expr = Ret (Some st, rest) ->
  length rest < length expr /\ suffix_of rest expr.
Proof.
  intros H. split; [exact (parseStep_progress expr st rest H)|].
  destruct (parseStep_ok expr) as (st' & rest' & E & Hsuf).
  rewrite E in H. injection H as _ <-. exact Hsuf.
Qed.

Lemma parseStep_consumes_input_witness :
  length (js "/p") < length (js "//div[@id]/p")
  /\ suffix_of (js "/p") (js "//div[@id]/p").
Proof.
  apply (parseStep_consumes_input (js "//div[@id]/p")
           (mkStep ax_descendant (NT_name (js "div"))
                   [P_attr_exists (js "id")])).
  reflexivity.
Defined.

Lemma parseXPath_loop_steps (expr : str) (fuel : nat) :
  forall steps remaining steps' log,
    parseXPath_loop fuel expr steps remaining = Ret (steps', log) ->
    length steps' <= length steps + length remaining.
Proof.
  induction fuel as [|n IH]; intros steps remaining steps' log H;
    rewrite parseXPath_loop_eq in H;
    destruct (negb (0 <? length remaining));
    try (injection H as <- _; lia); try discriminate.
  destruct (parseStep remaining) as [[st rest]| |] eqn:E;
    cbn [bind] in H; try discriminate.
  assert (Hst : length (push steps st) + length rest
                <= length steps + length remaining
                /\ (rest = remaining -> push steps st = steps)).
  { destruct st as [s|]; simpl.
    - apply parseStep_progress in E. rewrite length_app. simpl.
      split; [lia|]. intros ->. lia.
    - destruct (parseStep_ok remaining) as (st' & rest' & E' & Hsuf).
      rewrite E' in E. injection E as _ <-.
      apply suffix_length in Hsuf. split; [lia|reflexivity]. }
  destruct Hst as [H1 H2].
  destruct (str_eqb rest remaining) eqn:Eq.
  - apply str_eqb_spec in Eq. injection H as <- _. rewrite (H2 Eq). lia.
  - apply IH in H. lia.
Qed.

(** A parse never has more steps than the expression has characters. *)
Lemma parseXPath_steps_bounded (expr : str) :
  exists steps log,
    parseXPath expr = Ret (steps, log) /\ length steps <= length expr.
Proof.
  destruct (parseXPath_returns expr) as [[steps log] H].
  exists steps, log. split; [exact H|].
  apply parseXPath_loop_steps in H. simpl in H.
  pose proof (length_trim expr). lia.
Qed.

(** ** Name paths: printing and parsing *)

Lemma name_char_ascii (c : char) :
  is_name_char c = true ->
  (48 <= c <= 57 \/ 65 <= c <= 90 \/ 97 <= c <= 122 \/ c = 95 \/ c = 45)%N.
Proof.
  unfold is_name_char, is_word, is_digit, in_range. intros H.
  repeat match goal with
         | H : (_ || _)%bool = true |- _ =>
             apply orb_true_iff in H; destruct H as [H|H]
         | H : (_ && _)%bool = true |- _ =>
             apply andb_true_iff in H; destruct H
         | H : N.leb _ _ = true |- _ => apply N.leb_le in H
         | H : N.eqb _ _ = true |- _ => apply N.eqb_eq in H
         end; lia.
Qed.

Lemma path_char_ascii (c : char) :
  path_char c = true -> (45 <= c <= 57 \/ 65 <= c <= 122)%N.
Proof.
  unfold path_char. intros H. apply orb_true_iff in H as [H|H].
  - apply name_char_ascii in H. lia.
  - apply N.eqb_eq in H. lia.
Qed.

Lemma path_char_not_space (c : char) : path_char c = true -> is_space c = false.
Proof.
  intros H. apply path_char_ascii in H.
  destruct (is_space c) eqn:S; [|reflexivity].
  exfalso. unfold is_space, in_range in S.
  repeat match goal with
         | H : (_ || _)%bool = true |- _ =>
             apply orb_true_iff in H; destruct H as [H|H]
         | H : (_ && _)%bool = true |- _ =>
             apply andb_true_iff in H; destruct H
         | H : N.leb _ _ = true |- _ => apply N.leb_le in H
         | H : N.eqb _ _ = true |- _ => apply N.eqb_eq in H
         end; lia.
Qed.

Lemma path_chars_lack (x : char) (s : str) :
  forallb path_char s = true -> path_char x = false -> ~ In x s.
Proof.
  intros Hs Hx Hin. rewrite forallb_forall in Hs.
  apply Hs in Hin. congruence.
Qed.

Lemma name_chars_are_path_chars (s : str) :
  forallb is_name_char s = true -> forallb path_char s = true.
Proof.
  intros H. rewrite forallb_forall in *. intros c Hc.
  unfold path_char. rewrite (H c Hc). reflexivity.
Qed.

Lemma is_name_inv (name : str) :
  is_name name = true -> name <> [] /\ forallb is_name_char name = true.
Proof.
  unfold is_name. intros H. apply andb_true_iff in H as [H1 H2].
  split; [|exact H2]. destruct name; [discriminate|discriminate].
Qed.

Lemma startsWith_lacking (p s : str) (x : char) :
  In x p -> ~ In x s -> startsWith p s = false.
Proof.
  intros Hp Hs. destruct (startsWith p s) eqn:E; [|reflexivity].
  exfalso. apply Hs. exact (startsWith_in p s x E Hp).
Qed.

Lemma stops_of_all (p : char -> bool) (s : str) :
  (forall c, In c s -> p c = false) -> stops p s.
Proof.
  intros H. destruct s as [|y s]; [exact I|].
  apply H. left. reflexivity.
Qed.

Lemma name_chars_lack (x : char) (s : str) :
  forallb is_name_char s = true -> is_name_char x = false -> ~ In x s.
Proof.
  intros Hs Hx Hin. rewrite forallb_forall in Hs.
  apply Hs in Hin. congruence.
Qed.

(** The test of a step that is a name, before a rest that does not go on
    with the name, opens no bracket and has no colon and no parenthesis. *)
Lemma parseStep_test_name (axis0 : Axis) (name rest : str) :
  is_name name = true -> stops is_name_char rest ->
  ~ In 58%N rest -> ~ In 40%N rest -> startsWith (js "[") rest = false ->
  parseStep_test axis0 (name ++ rest)
  = Ret (Some (mkStep axis0 (NT_name name) []), rest).
Proof.
  intros Hname Hstop Hcolon Hparen Hbracket.
  destruct (is_name_inv name Hname) as [Hne Hchars].
  assert (Lack : forall x, is_name_char x = false -> ~ In x rest ->
                           ~ In x (name ++ rest)).
  { intros x Hx Hr Hin. apply in_app_or in Hin as [Hin|Hin];
      [exact (name_chars_lack x name Hchars Hx Hin)|exact (Hr Hin)]. }
  assert (Head : forall x, is_name_char x = false ->
                           startsWith [x] (name ++ rest) = false).
  { intros x Hx. destruct name as [|y name];
      [contradiction Hne; reflexivity|].
    cbn [app startsWith]. rewrite andb_true_r. apply N.eqb_neq.
    intros ->. cbn [forallb] in Hchars.
    apply andb_true_iff in Hchars as [Hy _]. congruence. }
  unfold parseStep_test.
  assert (A : re_match axisMatch (name ++ rest) = None).
  { unfold axisMatch, cat. cbn [fold_right].
    apply (no_match_without _ Eps "::" 58%N).
    - left. reflexivity.
    - apply Lack; [reflexivity|exact Hcolon]. }
  rewrite A.
  replace (startsWith (js "@") (name ++ rest)) with false
    by (symmetry; exact (Head 64%N eq_refl)).
  rewrite (startsWith_lacking (js "text()") (name ++ rest) 40%N)
    by (try (simpl; tauto); (apply Lack; [reflexivity|exact Hparen])).
  rewrite (startsWith_lacking (js "node()") (name ++ rest) 40%N)
    by (try (simpl; tauto); (apply Lack; [reflexivity|exact Hparen])).
  replace (startsWith (js "*") (name ++ rest)) with false
    by (symmetry; exact (Head 42%N eq_refl)).
  unfold nameMatch, name_re.
  rewrite (group_run_match 1 is_name_char name rest Hne Hchars Hstop).
  replace (skipn (length name) (name ++ rest)) with rest
    by (rewrite skipn_app, skipn_all, Nat.sub_diag; reflexivity).
  unfold parsePredicates. rewrite parsePredicates_loop_eq, Hbracket.
  reflexivity.
Qed.

Lemma parseStep_name (st : bool * str) (rest : str) :
  is_name (snd st) = true -> stops is_name_char rest ->
  ~ In 58%N rest -> ~ In 40%N rest -> startsWith (js "[") rest = false ->
  parseStep (print_name_step st ++ rest) = Ret (Some (name_step st), rest).
Proof.
  destruct st as [d name]. cbn [fst snd].
  intros Hname Hstop Hcolon Hparen Hbracket.
  destruct (is_name_inv name Hname) as [Hne Hchars].
  unfold print_name_step, name_step, parseStep. cbn [fst snd].
  destruct d.
  - rewrite <- app_assoc. rewrite startsWith_app.
    change (skipn 2 (js "//" ++ name ++ rest)) with (name ++ rest).
    apply parseStep_test_name; assumption.
  - rewrite <- app_assoc.
    destruct name as [|x name]; [contradiction Hne; reflexivity|].
    assert (Hx : N.eqb 47 x = false).
    { apply N.eqb_neq. intros E. cbn [forallb] in Hchars.
      apply andb_true_iff in Hchars as [Hx _].
      apply name_char_ascii in Hx. lia. }
    change (startsWith (js "//") (js "/" ++ (x :: name) ++ rest))
      with (N.eqb 47 x && true).
    rewrite Hx. cbn [andb].
    change (startsWith (js "/") (js "/" ++ (x :: name) ++ rest)) with true.
    cbv iota.
    change (skipn 1 (js "/" ++ (x :: name) ++ rest))
      with ((x :: name) ++ rest).
    apply parseStep_test_name; assumption.
Qed.

(** A rest made of path characters meets the conditions. *)
Lemma path_chars_rest (rest : str) :
  forallb path_char rest = true ->
  ~ In 58%N rest /\ ~ In 40%N rest /\ startsWith (js "[") rest = false.
Proof.
  intros H. repeat split; try (apply path_chars_lack; [exact H|reflexivity]).
  destruct rest as [|y rest]; [reflexivity|].
  apply (startsWith_lacking (js "[") (y :: rest) 91%N);
    [left; reflexivity|].
  apply path_chars_lack; [exact H|reflexivity].
Qed.

Lemma print_name_path_chars (l : list (bool * str)) :
  Forall (fun st => is_name (snd st) = true) l ->
  forallb path_char (print_name_path l) = true
  /\ stops is_name_char (print_name_path l)
  /\ length l <= length (print_name_path l).
Proof.
  induction 1 as [|[d name] l Hname _ IH]; [repeat split; auto|].
  destruct IH as (C & S & L).
  destruct (is_name_inv name Hname) as [Hne Hchars].
  unfold print_name_path. cbn [map concat_str].
  fold (print_name_path l). unfold print_name_step. cbn [fst snd].
  repeat split.
  - rewrite !forallb_app, C, (name_chars_are_path_chars name Hchars).
    destruct d; reflexivity.
  - destruct d; reflexivity.
  - rewrite !length_app. destruct d; simpl; lia.
Qed.

Lemma parseXPath_loop_name_path (expr : str) (l : list (bool * str)) :
  Forall (fun st => is_name (snd st) = true) l ->
  forall fuel steps,
    length l <= fuel ->
    parseXPath_loop fuel expr steps (print_name_path l)
    = Ret (steps ++ map name_step l, []).
Proof.
  induction 1 as [|st l Hname Hl IH]; intros fuel steps Hfuel;
    rewrite parseXPath_loop_eq.
  - simpl. rewrite app_nil_r. reflexivity.
  - destruct (print_name_path_chars l Hl) as (C & S & L).
    assert (Hlen : length (print_name_path l)
                   < length (print_name_path (st :: l))).
    { unfold print_name_path. cbn [map concat_str]. rewrite length_app.
      unfold print_name_step. rewrite length_app.
      destruct (fst st); simpl; lia. }
    replace (0 <? length (print_name_path (st :: l))) with true
      by (symmetry; apply Nat.ltb_lt; lia).
    cbn [negb]. destruct fuel as [|n]; [simpl in Hfuel; lia|].
    change (print_name_path (st :: l))
      with (print_name_step st ++ print_name_path l) at 1.
    destruct (path_chars_rest (print_name_path l) C) as (R1 & R2 & R3).
    rewrite (parseStep_name st (print_name_path l) Hname S R1 R2 R3).
    cbn [bind].
    replace (str_eqb (print_name_path l) (print_name_path (st :: l)))
      with false.
    + rewrite IH by (simpl in Hfuel; lia).
      cbn [push map]. rewrite <- app_assoc. reflexivity.
    + symmetry. apply str_eqb_neq. intros E. rewrite <- E in Hlen. lia.
Qed.

(** X23.  Printing and parsing agree on name paths: an expression made of
    steps that are each a path marker ([//] or [/]) and a name parses to
    exactly those steps, descendant steps for [//] and child steps for [/],
    with no predicate and no warning. *)
Theorem parse_inverts_print_on_name_paths (l : list (bool * str)) :
  Forall (fun st => is_name (snd st) = true) l ->
  parseXPath (print_name_path l) = Ret (map name_step l, []).
Proof.
  intros Hl. destruct (print_name_path_chars l Hl) as (C & S & L).
  unfold parseXPath.
  assert (Hns : forall c, In c (print_name_path l) -> is_space c = false).
  { intros c Hc. apply path_char_not_space.
    rewrite forallb_forall in C. apply C. exact Hc. }
  rewrite trim_id.
  - apply (parseXPath_loop_name_path _ l Hl _ [] L).
  - apply stops_of_all. exact Hns.
  - apply stops_of_all. intros c Hc. apply Hns. apply in_rev. exact Hc.
Qed.

Lemma parse_inverts_print_on_name_paths_witness :
  parseXPath (js "//ul/li")
  = Ret ([mkStep ax_descendant (NT_name (js "ul")) [];
          mkStep ax_child (NT_name (js "li")) []], []).
Proof.
  apply (parse_inverts_print_on_name_paths
           [(true, js "ul"); (false, js "li")]).
  repeat constructor.
Defined.

(** ** The pseudo-element suffixes *)

Lemma star_chr_splits (g : bool) (p : char -> bool) (s : str) :
  forall c s' c',
    In (s', c') (run (Star g (Chr p)) s c) ->
    exists pre, s = pre ++ s' /\ forallb p pre = true /\ c' = c.
Proof.
  induction s as [|x s IH]; intros c s' c' H.
  - destruct H as [[= <- <-]|[]]. exists []. auto.
  - rewrite star_chr_cons in H. cbv zeta in H.
    assert (Here : (s', c') = (x :: s, c) ->
                   exists pre, x :: s = pre ++ s'
                               /\ forallb p pre = true /\ c' = c).
    { intros [= -> ->]. exists []. auto. }
    assert (More : In (s', c') (if p x then run (Star g (Chr p)) s c
                                else []) ->
                   exists pre, x :: s = pre ++ s'
                               /\ forallb p pre = true /\ c' = c).
    { destruct (p x) eqn:Px; [|intros []]. intros H'.
      destruct (IH _ _ _ H') as (pre & -> & Hp & ->).
      exists (x :: pre). simpl. rewrite Px, Hp. auto. }
    destruct g.
    + apply in_app_or in H as [H|[H|[]]]; auto.
    + destruct H as [H|H]; auto.
Qed.

Lemma plus_chr_splits (g : bool) (p : char -> bool) (s : str) (c : caps)
    (s' : str) (c' : caps) :
  In (s', c') (run (plus g (Chr p)) s c) ->
  exists pre, s = pre ++ s' /\ forallb p pre = true /\ pre <> [] /\ c' = c.
Proof.
  unfold plus. rewrite run_seq. intros H.
  apply in_flat_map in H as [[s1 c1] [H1 H2]].
  destruct s as [|x s]; [destruct H1|].
  change (run (Chr p) (x :: s) c)
    with (if p x then [(s, c)] else []) in H1.
  destruct (p x) eqn:Px; [|destruct H1].
  destruct H1 as [[= <- <-]|[]].
  destruct (star_chr_splits _ _ _ _ _ _ H2) as (pre & -> & Hp & ->).
  exists (x :: pre). simpl. rewrite Px, Hp.
  repeat split; auto. discriminate.
Qed.

(** What the end of a pattern, a literal followed by the end of input,
    accepts. *)
Lemma run_lit_eoi (w : string) (s : str) (c : caps) (s' : str) (c' : caps) :
  In (s', c') (run (Seq (lit w) (Seq Eoi Eps)) s c) ->
  s = js w /\ s' = [] /\ c' = c.
Proof.
  rewrite run_seq, run_lit_exact. intros H.
  destruct (startsWith (js w) s) eqn:E; [|destruct H].
  apply startsWith_spec in E as [r ->].
  cbn [flat_map] in H. rewrite app_nil_r in H.
  rewrite skipn_app, skipn_all, Nat.sub_diag in H. cbn [skipn app] in H.
  rewrite run_seq in H. destruct r as [|y r]; [|destruct H].
  destruct H as [[= <- <-]|[]]. rewrite app_nil_r. auto.
Qed.

Lemma firstn_prefix {A} (pre s : list A) :
  firstn (length (pre ++ s) - length s) (pre ++ s) = pre.
Proof.
  rewrite length_app.
  replace (length pre + length s - length s) with (length pre) by lia.
  rewrite firstn_app, Nat.sub_diag, firstn_all. cbn [firstn].
  apply app_nil_r.
Qed.

Lemma re_match_head (r : re) (s : str) (n : nat) (c : caps) :
  re_match r s = Some (n, c) ->
  exists rest, In (rest, c) (run r s []) /\ n = length s - length rest.
Proof.
  unfold re_match. destruct (run r s []) as [|[rest c0] l]; [discriminate|].
  intros [= <- <-]. exists rest. split; [left; reflexivity|reflexivity].
Qed.

Lemma pseudoText_sound (q : str) (n : nat) (c : caps) :
  re_match pseudoTextMatch q = Some (n, c) ->
  q = grp 1 c ++ js "::text" /\ grp 1 c <> [].
Proof.
  intros H. apply re_match_head in H as (rest & H & _).
  unfold pseudoTextMatch, cat in H. cbn [fold_right] in H.
  rewrite run_seq in H. apply in_flat_map in H as [[s1 c1] [H1 H2]].
  apply run_lit_eoi in H2 as (-> & -> & ->).
  change (run (Grp 1 ?a) q [])
    with (map (fun '(s', c') =>
                 (s', (1, firstn (length q - length s') q) :: c'))
              (run a q [])) in H1.
  apply in_map_iff in H1 as [[s2 c2] [[= <- <-] H1]].
  apply plus_chr_splits in H1 as (pre & -> & _ & Hne & ->).
  unfold grp. cbn [group Nat.eqb]. rewrite firstn_prefix. auto.
Qed.

Lemma pseudoAttr_sound (q : str) (n : nat) (c : caps) :
  re_match pseudoAttrMatch q = Some (n, c) ->
  exists name,
    group 2 c = Some name /\ name <> []
    /\ forallb (fun x => negb (N.eqb x 41)) name = true
    /\ q = grp 1 c ++ js "::attr(" ++ name ++ js ")" /\ grp 1 c <> [].
Proof.
  intros H. apply re_match_head in H as (rest & H & _).
  unfold pseudoAttrMatch, cat in H. cbn [fold_right] in H.
  rewrite run_seq in H. apply in_flat_map in H as [[s1 c1] [H1 H2]].
  change (run (Grp 1 ?a) q [])
    with (map (fun '(s', c') =>
                 (s', (1, firstn (length q - length s') q) :: c'))
              (run a q [])) in H1.
  apply in_map_iff in H1 as [[s0 c0] [[= -> <-] H1]].
  apply plus_chr_splits in H1 as (pre & -> & _ & Hne & ->).
  rewrite firstn_prefix in H2.
  rewrite run_seq, run_lit_exact in H2.
  destruct (startsWith (js "::attr(") s1) eqn:E; [|destruct H2].
  apply startsWith_spec in E as [s2 ->].
  cbn [flat_map] in H2. rewrite app_nil_r in H2.
  rewrite skipn_app, skipn_all, Nat.sub_diag in H2.
  cbn [skipn app] in H2.
  rewrite run_seq in H2. apply in_flat_map in H2 as [[s3 c3] [H3 H4]].
  change (run (Grp 2 ?a) s2 ?c)
    with (map (fun '(s', c') =>
                 (s', (2, firstn (length s2 - length s') s2) :: c'))
              (run a s2 c)) in H3.
  apply in_map_iff in H3 as [[s4 c4] [[= <- <-] H3]].
  apply plus_chr_splits in H3 as (name & -> & Hname & Hne2 & ->).
  rewrite firstn_prefix in H4.
  apply run_lit_eoi in H4 as (-> & -> & ->).
  exists name. unfold grp. cbn [group Nat.eqb].
  repeat split; auto.
Qed.

(** The lazy run tries the shortest prefix first. *)
Lemma star_lazy_first (p : char -> bool) (a b : str) (c : caps) :
  forallb p a = true ->
  exists before after,
    run (Star false (Chr p)) (a ++ b) c = before ++ (b, c) :: after
    /\ forall s1 c1,
         In (s1, c1) before ->
         exists k, k < length a /\ s1 = skipn k (a ++ b) /\ c1 = c.
Proof.
  induction a as [|x a IH]; intros Ha.
  - exists []. destruct b as [|y b].
    + exists []. split; [reflexivity|intros ? ? []].
    + cbn [app]. rewrite star_chr_cons. cbv zeta. eexists.
      split; [reflexivity|intros ? ? []].
  - cbn [forallb] in Ha. apply andb_true_iff in Ha as [Hx Ha].
    destruct (IH Ha) as (before & after & E & Hb).
    cbn [app]. rewrite star_chr_cons, Hx. cbv zeta. rewrite E.
    exists ((x :: a ++ b, c) :: before), after.
    split; [reflexivity|].
    intros s1 c1 [[= <- <-]|H].
    + exists 0. simpl. repeat split. lia.
    + destruct (Hb _ _ H) as (k & Hk & -> & ->).
      exists (S k). simpl. repeat split. lia.
Qed.

Lemma plus_lazy_first (p : char -> bool) (a b : str) (c : caps) :
  a <> [] -> forallb p a = true ->
  exists before after,
    run (plus false (Chr p)) (a ++ b) c = before ++ (b, c) :: after
    /\ forall s1 c1,
         In (s1, c1) before ->
         exists k, 1 <= k < length a /\ s1 = skipn k (a ++ b) /\ c1 = c.
Proof.
  intros Hne Ha. destruct a as [|x a]; [contradiction Hne; reflexivity|].
  cbn [forallb] in Ha. apply andb_true_iff in Ha as [Hx Ha].
  destruct (star_lazy_first p a b c Ha) as (before & after & E & Hb).
  unfold plus. rewrite run_seq. cbn [app].
  change (run (Chr p) (x :: a ++ b) c)
    with (if p x then [(a ++ b, c)] else []).
  rewrite Hx. cbn [flat_map]. rewrite app_nil_r, E.
  exists before, after. split; [reflexivity|].
  intros s1 c1 H. destruct (Hb _ _ H) as (k & Hk & -> & ->).
  exists (S k). simpl. repeat split; lia.
Qed.

(** A pattern that is a lazy group followed by a tail: when the tail
    accepts what follows [base] and rejects what follows every shorter
    prefix, the group captures [base]. *)
Lemma lazy_group_match (tail : re) (base rest : str) (rest' : str)
    (c' : caps) (others : list (str * caps)) :
  base <> [] -> forallb is_dot base = true ->
  run tail rest [(1, base)] = (rest', c') :: others ->
  (forall k, 1 <= k < length base ->
             run tail (skipn k (base ++ rest))
                 [(1, firstn k (base ++ rest))] = []) ->
  re_match (Seq (Grp 1 (plus false (Chr is_dot))) tail) (base ++ rest)
  = Some (length (base ++ rest) - length rest', c').
Proof.
  intros Hne Hdot Htail Hearlier.
  destruct (plus_lazy_first is_dot base rest [] Hne Hdot)
    as (before & after & E & Hb).
  unfold re_match. rewrite run_seq.
  change (run (Grp 1 ?a) (base ++ rest) [])
    with (map (fun '(s', c') =>
                 (s', (1, firstn (length (base ++ rest) - length s')
                                 (base ++ rest)) :: c'))
              (run a (base ++ rest) [])).
  rewrite E, map_app, flat_map_app. cbn [map flat_map].
  rewrite firstn_prefix.
  match goal with
  | |- context [run tail rest ?c] =>
      change (run tail rest c) with (run tail rest [(1, base)])
  end.
  rewrite Htail.
  replace (flat_map _ (map _ before)) with (@nil (str * caps));
    [reflexivity|].
  symmetry. clear E. induction before as [|[s1 c1] before IH];
    [reflexivity|].
  cbn [map flat_map].
  destruct (Hb s1 c1 (or_introl eq_refl)) as (k & Hk & -> & ->).
  rewrite IH by (intros s2 c2 H2; apply Hb; right; exact H2).
  rewrite app_nil_r.
  replace (length (base ++ rest) - length (skipn k (base ++ rest)))
    with k by (rewrite length_skipn, length_app; lia).
  apply Hearlier. exact Hk.
Qed.

Lemma pseudoText_complete (base : str) :
  base <> [] -> forallb is_dot base = true ->
  exists n, re_match pseudoTextMatch (base ++ js "::text")
            = Some (n, [(1, base)]).
Proof.
  intros Hne Hdot. unfold pseudoTextMatch, cat. cbn [fold_right].
  eexists.
  apply (lazy_group_match _ base (js "::text") [] [(1, base)] []);
    [exact Hne|exact Hdot|reflexivity|].
  intros k Hk.
  destruct (run _ _ _) as [|[s' c'] l] eqn:E; [reflexivity|].
  assert (Hin : In (s', c') (run (Seq (lit "::text") (Seq Eoi Eps))
                   (skipn k (base ++ js "::text"))
                   [(1, firstn k (base ++ js "::text"))]))
    by (rewrite E; left; reflexivity).
  apply run_lit_eoi in Hin as (Hs & _).
  apply (f_equal (@length char)) in Hs.
  rewrite length_skipn, length_app in Hs. simpl in Hs. lia.
Qed.

Lemma startsWith_app_long (p u r : str) :
  length p <= length u -> startsWith p (u ++ r) = startsWith p u.
Proof.
  revert u. induction p as [|x p IH]; intros u L; [reflexivity|].
  destruct u as [|y u]; [simpl in L; lia|].
  cbn [app startsWith]. rewrite IH by (simpl in L; lia). reflexivity.
Qed.

Lemma indexOf_from_none (p s : str) (i : nat) :
  indexOf_from p s i = None ->
  forall k, startsWith p (skipn k s) = false.
Proof.
  revert i. induction s as [|y s IH]; intros i H k.
  - simpl in H. destruct (startsWith p []) eqn:E; [discriminate|].
    destruct k; exact E.
  - cbn [indexOf_from] in H.
    destruct (startsWith p (y :: s)) eqn:E; [discriminate|].
    destruct k as [|k]; [exact E|]. cbn [skipn]. exact (IH _ H k).
Qed.

Lemma includes_false (p s : str) :
  includes p s = false -> forall k, startsWith p (skipn k s) = false.
Proof.
  unfold includes, str_indexOf. intros H.
  destruct (indexOf_from p s 0) eqn:E; [discriminate|].
  exact (indexOf_from_none p s 0 E).
Qed.

Lemma pseudoAttr_complete (base name : str) :
  base <> [] -> forallb is_dot base = true ->
  name <> [] -> forallb (fun x => negb (N.eqb x 41)) name = true ->
  includes (js "::attr(") (base ++ js "::attr") = false ->
  exists n, re_match pseudoAttrMatch
              (base ++ js "::attr(" ++ name ++ js ")")
            = Some (n, [(2, name); (1, base)]).
Proof.
  intros Hne Hdot Hname Hchars Hinc.
  unfold pseudoAttrMatch, cat. cbn [fold_right].
  destruct (plus_greedy_head (fun x => negb (N.eqb x 41)) name (js ")")
              [(1, base)] Hname Hchars eq_refl) as [others E].
  eexists.
  eapply (lazy_group_match _ base (js "::attr(" ++ name ++ js ")"));
    [exact Hne|exact Hdot| |].
  - rewrite run_seq, run_lit_exact, startsWith_app.
    rewrite skipn_app, skipn_all, Nat.sub_diag.
    cbn [skipn app flat_map]. rewrite app_nil_r.
    rewrite run_seq.
    change (run (Grp 2 ?a) ?s ?c)
      with (map (fun '(s', c') =>
                   (s', (2, firstn (length s - length s') s) :: c'))
                (run a s c)).
    rewrite E. cbn [map flat_map]. rewrite firstn_prefix.
    reflexivity.
  - intros k Hk. rewrite run_seq, run_lit_exact.
    replace (startsWith (js "::attr(")
               (skipn k (base ++ js "::attr(" ++ name ++ js ")")))
      with false; [reflexivity|].
    symmetry.
    change (js "::attr(" ++ name ++ js ")")
      with (js "::attr" ++ (js "(" ++ name ++ js ")")).
    rewrite app_assoc, skipn_app.
    replace (k - length (base ++ js "::attr")) with 0
      by (rewrite length_app; lia).
    cbn [skipn]. rewrite startsWith_app_long.
    + apply includes_false. exact Hinc.
    + rewrite length_skipn, length_app. simpl. lia.
Qed.

Lemma pseudo_none (q : str) :
  ~ In 58%N q -> parseXPathPseudo q = mkParsed q ex_node None.
Proof.
  intros Hq. unfold parseXPathPseudo, pseudoTextMatch, pseudoAttrMatch, cat.
  cbn [fold_right].
  rewrite (no_match_without _ _ "::text" 58%N q)
    by (try (left; reflexivity); exact Hq).
  rewrite (no_match_without _ _ "::attr(" 58%N q)
    by (try (left; reflexivity); exact Hq).
  reflexivity.
Qed.

Lemma pseudo_text (base : str) :
  base <> [] -> forallb is_dot base = true ->
  parseXPathPseudo (base ++ js "::text") = mkParsed base ex_text None.
Proof.
  intros Hne Hdot. unfold parseXPathPseudo.
  destruct (pseudoText_complete base Hne Hdot) as [n ->]. reflexivity.
Qed.

Lemma pseudo_attr (base name : str) :
  base <> [] -> forallb is_dot base = true ->
  name <> [] -> forallb (fun x => negb (N.eqb x 41)) name = true ->
  includes (js "::attr(") (base ++ js "::attr") = false ->
  parseXPathPseudo (base ++ js "::attr(" ++ name ++ js ")")
  = mkParsed base ex_attr (Some name).
Proof.
  intros Hne Hdot Hname Hchars Hinc.
  unfold parseXPathPseudo.
  destruct (re_match pseudoTextMatch _) as [[n c]|] eqn:T.
  - exfalso. apply pseudoText_sound in T as [E _].
    assert (E' : (base ++ js "::attr(" ++ name) ++ [41%N]
                 = (grp 1 c ++ js "::tex") ++ [116%N]).
    { rewrite <- !app_assoc. exact E. }
    apply app_inj_tail in E' as [_ H]. discriminate.
  - destruct (pseudoAttr_complete base name Hne Hdot Hname Hchars Hinc)
      as [n ->].
    reflexivity.
Qed.

(** X24.  [parseXPathPseudo] only ever splits a suffix off: in text mode
    the query it returns followed by [::text] is the input, in attribute
    mode the query followed by [::attr(name)] is the input, with a
    non-empty name that has no closing parenthesis, and in node mode the
    query is the input; the query is never empty in the first two modes.
    [parseCSSPseudo] is the same function. *)
Theorem pseudo_suffix_is_split_off (q : str) :
  match extract (parseXPathPseudo q) with
  | ex_text =>
      q = query (parseXPathPseudo q) ++ js "::text"
      /\ query (parseXPathPseudo q) <> []
      /\ attrName (parseXPathPseudo q) = None
  | ex_attr =>
      exists name,
        attrName (parseXPathPseudo q) = Some name
        /\ name <> [] /\ ~ In 41%N name
        /\ q = query (parseXPathPseudo q) ++ js "::attr(" ++ name ++ js ")"
        /\ query (parseXPathPseudo q) <> []
  | ex_node =>
      query (parseXPathPseudo q) = q /\ attrName (parseXPathPseudo q) = None
  end
  /\ parseCSSPseudo q = parseXPathPseudo q.
Proof.
  split; [|reflexivity].
  unfold parseXPathPseudo.
  destruct (re_match pseudoTextMatch q) as [[n c]|] eqn:T.
  - cbn [extract query attrName].
    destruct (pseudoText_sound q n c T) as [E Hne]. auto.
  - destruct (re_match pseudoAttrMatch q) as [[n c]|] eqn:A.
    + cbn [extract query attrName].
      destruct (pseudoAttr_sound q n c A)
        as (name & G & Hne & Hchars & E & Hne1).
      exists name. unfold grp at 1. rewrite G.
      repeat split; auto.
      intros Hin. rewrite forallb_forall in Hchars.
      apply Hchars in Hin. discriminate.
    + cbn [extract query attrName]. auto.
Qed.

(** X25.  The suffixes are recognised on every query: a non-empty query
    without line terminators followed by [::text] is in text mode with
    that query; followed by [::attr(name)], for a non-empty name without a
    closing parenthesis, it is in attribute mode with that query and name,
    provided the text [::attr(] does not already occur earlier; and an
    input without a colon is in node mode. *)
Theorem pseudo_suffix_round_trip :
  (forall base : str,
      base <> [] -> forallb is_dot base = true ->
      parseXPathPseudo (base ++ js "::text") = mkParsed base ex_text None)
  /\ (forall base name : str,
         base <> [] -> forallb is_dot base = true ->
         name <> [] -> forallb (fun x => negb (N.eqb x 41)) name = true ->
         includes (js "::attr(") (base ++ js "::attr") = false ->
         parseXPathPseudo (base ++ js "::attr(" ++ name ++ js ")")
         = mkParsed base ex_attr (Some name))
  /\ (forall q : str,
         ~ In 58%N q -> parseXPathPseudo q = mkParsed q ex_node None).
Proof.
  split; [exact pseudo_text|]. split; [exact pseudo_attr|exact pseudo_none].
Qed.

Lemma pseudo_suffix_round_trip_witness :
  parseXPathPseudo (js "//a[@id]" ++ js "::text")
  = mkParsed (js "//a[@id]") ex_text None
  /\ parseXPathPseudo (js "a::b" ++ js "::attr(" ++ js "xlink:href" ++ js ")")
     = mkParsed (js "a::b") ex_attr (Some (js "xlink:href"))
  /\ parseXPathPseudo (js "//a") = mkParsed (js "//a") ex_node None.
Proof.
  split; [|split].
  - apply (proj1 pseudo_suffix_round_trip (js "//a[@id]"));
      [discriminate|reflexivity].
  - apply (proj1 (proj2 pseudo_suffix_round_trip) (js "a::b")
             (js "xlink:href")); try discriminate; reflexivity.
  - apply (proj2 (proj2 pseudo_suffix_round_trip) (js "//a")).
    vm_compute. intuition discriminate.
Defined.

(** ** A name query from the root, end to end *)

Lemma trimStart_app_nonspace (x : str) (c : char) :
  is_space c = false -> trimStart (x ++ [c]) = trimStart x ++ [c].
Proof.
  intros Hc. induction x as [|y x IH]; simpl.
  - rewrite Hc. reflexivity.
  - destruct (is_space y); [exact IH|reflexivity].
Qed.

Lemma trimStart_stops (s : str) : stops is_space (trimStart s).
Proof.
  destruct (trimStart s) as [|c r] eqn:E; [exact I|].
  exact (trimStart_head s c r E).
Qed.

Lemma trim_stops (s : str) :
  stops is_space (trim s) /\ stops is_space (rev (trim s)).
Proof.
  unfold trim, trimEnd. rewrite rev_involutive.
  split; [|apply trimStart_stops].
  destruct (trimStart s) as [|c u] eqn:E; [exact I|].
  pose proof (trimStart_head s c u E) as Hc.
  cbn [rev]. rewrite (trimStart_app_nonspace (rev u) c Hc).
  rewrite rev_app_distr. exact Hc.
Qed.

(** Trimming twice is trimming once. *)
Lemma trim_idempotent (s : str) : trim (trim s) = trim s.
Proof. destruct (trim_stops s). apply trim_id; assumption. Qed.

Lemma path_char_is_dot (c : char) : path_char c = true -> is_dot c = true.
Proof.
  intros H. apply path_char_ascii in H.
  unfold is_dot, is_line_terminator. apply negb_true_iff.
  repeat (apply orb_false_iff; split); apply N.eqb_neq; lia.
Qed.

(** A string without white space is its own trim. *)
Lemma trim_nonspace (s : str) :
  (forall c, In c s -> is_space c = false) -> trim s = s.
Proof.
  intros Hns. apply trim_id; apply stops_of_all; [exact Hns|].
  intros c Hc. apply Hns. apply in_rev. exact Hc.
Qed.

Section NameQuery.

Variable doc : list tree.
Context {provider : Attributes}.
Variable querySelectorAll : Node -> str -> option (list Node).
Variable outerHTML : Node -> str.
Variable splitXPathUnion : str -> list str.

Let xpathS := xpath doc querySelectorAll outerHTML splitXPathUnion.

(** The elements of the document whose tag name is [name] up to ASCII
    case, in document order. *)
Let named (name : str) : list Node :=
  filter (fun n => N.eqb (nodeType doc n) 1
                   && str_eqb (toLowerCase (tagName_of doc n))
                              (toLowerCase name))
         (document_order doc).

Lemma name_query_chars (name : str) :
  is_name name = true ->
  forallb path_char (js "//" ++ name) = true /\ js "//" ++ name <> [].
Proof.
  intros Hname. destruct (is_name_inv name Hname) as [_ Hchars].
  split; [|discriminate].
  rewrite forallb_app, (name_chars_are_path_chars name Hchars). reflexivity.
Qed.

Lemma parseXPath_name_query (name : str) :
  is_name name = true ->
  parseXPath (js "//" ++ name)
  = Ret ([mkStep ax_descendant (NT_name name) []], []).
Proof.
  intros Hname. destruct (name_query_chars name Hname) as [C _].
  assert (Hl : Forall (fun st => is_name (snd st) = true) [(true, name)])
    by (constructor; [exact Hname|constructor]).
  pose proof (parseXPath_loop_name_path (js "//" ++ name) [(true, name)] Hl
                (length (js "//" ++ name)) [] ltac:(simpl; lia)) as P.
  unfold print_name_path, print_name_step in P.
  cbn [map concat_str fst snd] in P. rewrite app_nil_r in P.
  unfold parseXPath. rewrite trim_nonspace; [exact P|].
  intros c Hc. apply path_char_not_space.
  rewrite forallb_forall in C. apply C. exact Hc.
Qed.

Lemma evaluateStep_descendant_name (name : str) :
  evaluateStep doc querySelectorAll
    (mkStep ax_descendant (NT_name name) []) [R_node []]
  = Ret (map R_node (named name)).
Proof.
  unfold evaluateStep. cbn [fold_left bind].
  unfold evaluateStep_context. cbn [axis nodeTest predicates].
  unfold applyPredicates. cbn [fold_left bind app].
  unfold named. rewrite <- (getCandidates_descendant_root doc).
  reflexivity.
Qed.

Lemma evaluateSingleXPath_name (name : str) :
  is_name name = true ->
  evaluateSingleXPath doc querySelectorAll (js "//" ++ name) [[]]
  = Ret (map R_node (named name)).
Proof.
  intros Hname. unfold evaluateSingleXPath.
  rewrite (parseXPath_name_query name Hname).
  cbn [bind map fold_left]. apply evaluateStep_descendant_name.
Qed.

Lemma evaluateXPath_name (name : str) :
  is_name name = true ->
  evaluateXPath doc querySelectorAll (js "//" ++ name) [[]]
  = Ret (map R_node (named name)).
Proof.
  intros Hname. destruct (name_query_chars name Hname) as [C Hne].
  assert (Ht : trim (js "//" ++ name) = js "//" ++ name).
  { apply trim_nonspace. intros c Hc. apply path_char_not_space.
    rewrite forallb_forall in C. apply C. exact Hc. }
  unfold evaluateXPath. rewrite Ht.
  destruct (js "//" ++ name) as [|c0 q0] eqn:Eq;
    [contradiction Hne; reflexivity|].
  rewrite <- Eq in *.
  assert (Hsplit : splitUnion (js "//" ++ name) = [js "//" ++ name]).
  { unfold splitUnion, split_finish.
    destruct (split_loop_no_bar (js "//" ++ name)
                (path_chars_lack 124%N _ C eq_refl)
                (mkSplit [] [] 0 None)) as [P Cur].
    rewrite P, Cur. cbn [parts current app]. rewrite Ht, Eq. reflexivity. }
  rewrite Hsplit. cbn [length Nat.ltb Nat.leb].
  apply evaluateSingleXPath_name. exact Hname.
Qed.

(** X26.  From the root, the query [//name] selects exactly the elements
    of the document whose tag name is [name] up to ASCII case, in document
    order, when the query is not cut into union parts. *)
Theorem name_query_selects_elements_in_document_order (name : str) :
  is_name name = true ->
  length (splitXPathUnion (js "//" ++ name)) <= 1 ->
  xpathS pluck (js "//" ++ name)
  = Ret (NodeSelector
           (filter (fun n => N.eqb (nodeType doc n) 1
                             && str_eqb (toLowerCase (tagName_of doc n))
                                        (toLowerCase name))
                   (document_order doc))
           (js "//" ++ name)).
Proof.
  intros Hname Hparts. destruct (name_query_chars name Hname) as [C _].
  unfold xpathS, xpath.
  replace (1 <? length (splitXPathUnion (js "//" ++ name))) with false
    by (symmetry; apply Nat.ltb_ge; exact Hparts).
  unfold Selector_evaluateSingleXPath.
  rewrite (pseudo_none (js "//" ++ name))
    by (apply path_chars_lack; [exact C|reflexivity]).
  cbn [query base_nodes pluck].
  rewrite (evaluateXPath_name name Hname). cbn [bind].
  unfold pack_results. rewrite strings_of_nodes, nodes_of_nodes.
  reflexivity.
Qed.

(** *** Text mode *)

Lemma extract_all_text (nodes : list Node) (q : str) :
  (forall n, In n nodes -> textContent doc n <> None) ->
  extract_all doc outerHTML nodes (mkParsed q ex_text None)
  = filter nonempty (map (getNodeText doc) nodes).
Proof.
  intros H. unfold extract_all. cbn [extract attrName].
  induction nodes as [|n nodes IH]; [reflexivity|].
  cbn [flat_map map filter].
  rewrite IH by (intros m Hm; apply H; right; exact Hm).
  specialize (H n (or_introl eq_refl)).
  unfold extractValue, trimmed_text, getNodeText.
  destruct (textContent doc n) as [tc|]; [|contradiction H; reflexivity].
  cbn [option_map]. destruct (trim tc); reflexivity.
Qed.

Lemma element_has_text (n : Node) :
  N.eqb (nodeType doc n) 1 = true -> textContent doc n <> None.
Proof.
  unfold nodeType, textContent. destruct n as [|i q]; [discriminate|].
  destruct (node_tree doc (i :: q)) as [[| |]|]; discriminate.
Qed.

(** X27.  From the root, [//name::text] gives the trimmed text content of
    the elements named [name], in document order, without the elements
    whose text is empty or white space only. *)
Theorem name_text_query_gives_nonempty_texts (name : str) :
  is_name name = true ->
  length (splitXPathUnion (js "//" ++ name ++ js "::text")) <= 1 ->
  xpathS pluck (js "//" ++ name ++ js "::text")
  = Ret (TextSelector
           (filter nonempty
              (map (getNodeText doc)
                 (filter (fun n => N.eqb (nodeType doc n) 1
                                   && str_eqb
                                        (toLowerCase (tagName_of doc n))
                                        (toLowerCase name))
                         (document_order doc))))
           (js "//" ++ name ++ js "::text")).
Proof.
  intros Hname Hparts. destruct (name_query_chars name Hname) as [C Hne].
  unfold xpathS, xpath.
  replace (1 <? length (splitXPathUnion (js "//" ++ name ++ js "::text")))
    with false by (symmetry; apply Nat.ltb_ge; exact Hparts).
  unfold Selector_evaluateSingleXPath.
  assert (P : parseXPathPseudo (js "//" ++ name ++ js "::text")
              = mkParsed (js "//" ++ name) ex_text None).
  { rewrite (app_assoc (js "//") name (js "::text")).
    apply (pseudo_text (js "//" ++ name) Hne).
    rewrite forallb_forall in *. intros c Hc.
    apply path_char_is_dot. apply C. exact Hc. }
  rewrite !P. cbn [query base_nodes pluck].
  rewrite (evaluateXPath_name name Hname). cbn [bind].
  unfold pack_results. rewrite strings_of_nodes, nodes_of_nodes.
  cbn [length Nat.ltb Nat.leb extract].
  rewrite extract_all_text; [reflexivity|].
  intros n Hn. apply filter_In in Hn as [_ Hn].
  apply andb_true_iff in Hn as [Hn _]. apply element_has_text. exact Hn.
Qed.

(** X28.  A value extracted in text mode is never the empty string and is
    its own trim: text mode drops the nodes without text before they become
    values.  This holds for the values of every [css] query that ends in
    [::text]. *)
Theorem text_mode_values_are_nonempty_and_trimmed :
  (forall (nodes : list Node) (parsed : ParsedSelector) (v : str),
      extract parsed = ex_text ->
      In v (extract_all doc outerHTML nodes parsed) ->
      v <> [] /\ trim v = v)
  /\ (forall (this : Selector) (base v : str),
         base <> [] -> forallb is_dot base = true ->
         In v (getall doc outerHTML
                 (css doc querySelectorAll outerHTML this
                      (base ++ js "::text"))) ->
         v <> [] /\ trim v = v).
Proof.
  assert (G : forall nodes parsed v,
             extract parsed = ex_text ->
             In v (extract_all doc outerHTML nodes parsed) ->
             v <> [] /\ trim v = v).
  { intros nodes parsed v Hex Hin. unfold extract_all in Hin.
    apply in_flat_map in Hin as (n & _ & Hv). rewrite Hex in Hv.
    unfold extractValue, trimmed_text in Hv.
    destruct (textContent doc n) as [tc|]; [|destruct Hv].
    cbn [option_map] in Hv.
    destruct (trim tc) as [|c r] eqn:E; [destruct Hv|].
    destruct Hv as [<-|[]]. split; [discriminate|].
    rewrite <- E. apply trim_idempotent. }
  split; [exact G|].
  intros this base v Hne Hdot Hin. unfold css in Hin.
  assert (P : parseCSSPseudo (base ++ js "::text")
              = mkParsed base ex_text None) by (apply pseudo_text; assumption).
  rewrite P in Hin. cbn [extract getall] in Hin.
  apply (G _ (mkParsed base ex_text None) v eq_refl Hin).
Qed.

End NameQuery.

Lemma name_query_selects_elements_in_document_order_witness :
  ref_xpath doc_list pluck "//li"
  = Ret (NodeSelector [li 0; li 1; li 2; li 3] (js "//li")).
Proof.
  exact (name_query_selects_elements_in_document_order
        (provider := ref_attributes)
        doc_list
           (ref_querySelectorAll doc_list) (ref_outerHTML doc_list)
           ref_splitXPathUnion (js "li") eq_refl
           ltac:(vm_compute; lia)).
Defined.

Lemma name_text_query_gives_nonempty_texts_witness :
  ref_xpath doc_article pluck "//p::text"
  = Ret (TextSelector [] (js "//p::text"))
  /\ ref_xpath doc_list pluck "//li::text"
     = Ret (TextSelector [js "A"; js "B"; js "C"; js "D"]
                         (js "//li::text")).
Proof.
  split.
  - exact (name_text_query_gives_nonempty_texts (provider := ref_attributes)
        doc_article
             (ref_querySelectorAll doc_article) (ref_outerHTML doc_article)
             ref_splitXPathUnion (js "p") eq_refl ltac:(vm_compute; lia)).
  - exact (name_text_query_gives_nonempty_texts (provider := ref_attributes)
        doc_list
             (ref_querySelectorAll doc_list) (ref_outerHTML doc_list)
             ref_splitXPathUnion (js "li") eq_refl ltac:(vm_compute; lia)).
Defined.

Lemma text_mode_values_are_nonempty_and_trimmed_witness :
  js "A" <> [] /\ trim (js "A") = js "A".
Proof.
  apply (proj2 (text_mode_values_are_nonempty_and_trimmed
        (provider := ref_attributes)
        doc_list
                  (ref_querySelectorAll doc_list) (ref_outerHTML doc_list))
           pluck (js "li") (js "A")).
  - discriminate.
  - reflexivity.
  - vm_compute. auto.
Defined.

(** ** The two loops of the regular-expression projection *)

Section Regex.

Variable RegExp_new : str -> str -> res RegExp.
Variable search : RegExp -> str -> nat -> option RegExpMatch.

(** X29.  A pattern with a capturing group whose first match is empty
    and leaves every group undefined makes [extractRegex] run forever: the
    loop over [exec] pushes nothing and asks again at the same position,
    where the same empty match is found.  No budget is enough for the loop
    to end. *)
Theorem extractRegex_never_ends_on_empty_group_match
    (r : RegExp) (text : str) (m : RegExpMatch) :
  includes (js "g") (flags r) = true ->
  includes (js "(") (source r) = true ->
  startsWith (js "(?:") (source r) = false ->
  search r text 0 = Some m -> index m = 0 -> match0 m = [] ->
  defined (captures m) = [] ->
  extractRegex RegExp_new search (inl r) text = Timeout
  /\ forall fuel results,
       exec_loop search fuel r text 0 results = Timeout.
Proof.
  intros Hg Hp Hnc Hm Hi H0 _.
  pose proof (exec_loop_stuck_on_empty_match search r text 0 m Hm Hi H0)
    as Stuck.
  split; [|exact Stuck].
  unfold extractRegex. cbn [bind]. rewrite Hg. cbn [bind].
  rewrite Hp, Hnc. cbn [negb andb]. apply Stuck.
Qed.

(** The engine reports matches at or after the position it is asked
    about, inside the text. *)
Let well_formed (r : RegExp) (text : str) : Prop :=
  forall from m,
    search r text from = Some m ->
    from <= index m /\ index m + length (match0 m) <= length text.

Lemma match_all_returns (r : RegExp) (text : str) :
  well_formed r text ->
  forall fuel from acc,
    from <= length text + 1 ->
    length text + 2 <= fuel + from ->
    exists ms,
      match_all search fuel r text from acc = Ret (acc ++ ms)
      /\ length ms + from <= length text + 1
      /\ Forall (fun v => exists from' m,
                            search r text from' = Some m /\ v = match0 m)
                ms.
Proof.
  intros Hwf. induction fuel as [|n IH]; intros from acc Hfrom Hfuel;
    [lia|].
  cbn [match_all].
  destruct (search r text from) as [m|] eqn:E.
  - destruct (Hwf from m E) as [L1 L2].
    set (next := if length (match0 m) =? 0
                 then S (index m + length (match0 m))
                 else index m + length (match0 m)).
    assert (Hnext : from + 1 <= next /\ next <= length text + 1).
    { unfold next. destruct (length (match0 m) =? 0) eqn:Z.
      - apply Nat.eqb_eq in Z. lia.
      - apply Nat.eqb_neq in Z. lia. }
    destruct (IH next (acc ++ [match0 m])) as (ms & -> & Hlen & Hall);
      [lia|lia|].
    exists (match0 m :: ms). split; [|split].
    + rewrite <- app_assoc. reflexivity.
    + simpl. lia.
    + constructor; [|exact Hall]. exists from, m. auto.
  - exists []. rewrite app_nil_r. split; [reflexivity|].
    split; [simpl; lia|constructor].
Qed.

(** X30.  A global pattern in whose source no parenthesis occurs is
    handled by the other loop, which always ends, also on empty matches,
    when the engine is well behaved: [extractRegex] returns at most one
    value per position of the text, and each value is a match that the
    engine reported. *)
Theorem extractRegex_without_groups_returns (r : RegExp) (text : str) :
  includes (js "g") (flags r) = true ->
  includes (js "(") (source r) = false ->
  (forall from m,
      search r text from = Some m ->
      from <= index m /\ index m + length (match0 m) <= length text) ->
  exists values,
    extractRegex RegExp_new search (inl r) text = Ret values
    /\ length values <= length text + 1
    /\ Forall (fun v => exists from m,
                          search r text from = Some m /\ v = match0 m)
              values.
Proof.
  intros Hg Hp Hwf.
  destruct (match_all_returns r text Hwf (length text + 2) 0 [])
    as (ms & E & Hlen & Hall); [lia|lia|].
  exists ms. unfold extractRegex. cbn [bind]. rewrite Hg. cbn [bind].
  rewrite Hp. cbn [andb]. rewrite E.
  split; [reflexivity|]. split; [lia|exact Hall].
Qed.

End Regex.

Lemma extractRegex_never_ends_on_empty_group_match_witness :
  extractRegex px_new aopt_search (inl (mkRegExp aopt_source (js "g")))
               (js "b")
  = Timeout.
Proof.
  exact (proj1 (extractRegex_never_ends_on_empty_group_match
                  px_new aopt_search (mkRegExp aopt_source (js "g"))
                  (js "b") (mkMatch 0 [] [None])
                  eq_refl eq_refl eq_refl eq_refl eq_refl eq_refl
                  eq_refl)).
Defined.

(** The search over a pattern of [re] is well behaved. *)
Lemma search_in_well_formed (r : re) (groups : list nat) (s : str) :
  forall pos m,
    search_in r groups s pos = Some m ->
    pos <= index m /\ index m + length (match0 m) <= pos + length s.
Proof.
  induction s as [|x s IH]; intros pos m H; cbn [search_in] in H.
  - destruct (run r [] []) as [|[rest c] l]; [discriminate|].
    injection H as <-. simpl. lia.
  - destruct (run r (x :: s) []) as [|[rest c] l].
    + apply IH in H. simpl. lia.
    + injection H as <-. cbn [index match0].
      rewrite length_firstn. simpl length. lia.
Qed.

Lemma search_re_well_formed (r : re) (groups : list nat) (text : str)
    (from : nat) (m : RegExpMatch) :
  search_re r groups text from = Some m ->
  from <= index m /\ index m + length (match0 m) <= length text.
Proof.
  unfold search_re. destruct (length text <? from) eqn:E; [discriminate|].
  apply Nat.ltb_ge in E. intros H.
  apply search_in_well_formed in H. rewrite length_skipn in H. lia.
Qed.

Lemma extractRegex_without_groups_returns_witness :
  exists values,
    extractRegex px_new num_search (inl (mkRegExp num_source (js "g")))
                 (js "a12b345")
    = Ret values
    /\ length values <= length (js "a12b345") + 1
    /\ Forall (fun v => exists from m,
                          num_search (mkRegExp num_source (js "g"))
                                     (js "a12b345") from = Some m
                          /\ v = match0 m)
              values.
Proof.
  apply (extractRegex_without_groups_returns px_new num_search
           (mkRegExp num_source (js "g")) (js "a12b345")).
  - reflexivity.
  - reflexivity.
  - intros from m. apply search_re_well_formed.
Defined.

(** ** The two ways to read an attribute

    [//name/@attr] goes through the attribute axis of the evaluator and
    [//name::attr(attr)] through the pseudo-element of the Selector. *)

Lemma attr_query_chars (name a : str) (c : char) :
  is_name name = true -> is_name a = true ->
  In c (js "//" ++ name ++ js "/@" ++ a) ->
  path_char c = true \/ c = 64%N.
Proof.
  intros Hname Ha Hin.
  destruct (is_name_inv name Hname) as [_ Hn].
  destruct (is_name_inv a Ha) as [_ Hb].
  apply name_chars_are_path_chars in Hn, Hb.
  rewrite forallb_forall in Hn, Hb.
  apply in_app_or in Hin as [Hin|Hin].
  - left. destruct Hin as [<-|[<-|[]]]; reflexivity.
  - apply in_app_or in Hin as [Hin|Hin]; [left; auto|].
    apply in_app_or in Hin as [Hin|Hin]; [|left; auto].
    destruct Hin as [<-|[<-|[]]]; [left; reflexivity|right; reflexivity].
Qed.

Lemma attr_query_lacks (name a : str) (x : char) :
  is_name name = true -> is_name a = true ->
  path_char x = false -> x <> 64%N ->
  ~ In x (js "//" ++ name ++ js "/@" ++ a).
Proof.
  intros Hname Ha Hx Hat Hin.
  destruct (attr_query_chars name a x Hname Ha Hin); congruence.
Qed.

Lemma attr_query_trim (name a : str) :
  is_name name = true -> is_name a = true ->
  trim (js "//" ++ name ++ js "/@" ++ a) = js "//" ++ name ++ js "/@" ++ a.
Proof.
  intros Hname Ha. apply trim_nonspace. intros c Hc.
  destruct (attr_query_chars name a c Hname Ha Hc) as [H| ->];
    [apply path_char_not_space; exact H|reflexivity].
Qed.

(** The step [/@attr] alone. *)
Lemma parseStep_attr (a : str) :
  is_name a = true ->
  parseStep (js "/@" ++ a)
  = Ret (Some (mkStep ax_attribute (NT_name a) []), []).
Proof.
  intros Ha. destruct (is_name_inv a Ha) as [Hne Hchars].
  unfold parseStep.
  change (startsWith (js "//") (js "/@" ++ a)) with false.
  change (startsWith (js "/") (js "/@" ++ a)) with true. cbv iota.
  change (skipn 1 (js "/@" ++ a)) with (js "@" ++ a).
  unfold parseStep_test.
  assert (A : re_match axisMatch (js "@" ++ a) = None).
  { unfold axisMatch, cat. cbn [fold_right].
    apply (no_match_without _ Eps "::" 58%N); [left; reflexivity|].
    intros [E|Hin]; [discriminate E|].
    exact (name_chars_lack 58%N a Hchars eq_refl Hin). }
  rewrite A, startsWith_app, (attrMatch_name a Hne Hchars).
  change (grp 1 [(1, a)]) with a.
  change (skipn (S (length a)) (js "@" ++ a)) with (skipn (length a) a).
  rewrite skipn_all. reflexivity.
Qed.

Lemma parseXPath_attr_query (name a : str) :
  is_name name = true -> is_name a = true ->
  parseXPath (js "//" ++ name ++ js "/@" ++ a)
  = Ret ([mkStep ax_descendant (NT_name name) [];
          mkStep ax_attribute (NT_name a) []], []).
Proof.
  intros Hname Ha. destruct (is_name_inv a Ha) as [Hne Hchars].
  unfold parseXPath. rewrite (attr_query_trim name a Hname Ha).
  assert (Hrest : forall x, is_name_char x = false -> x <> 47%N ->
                            x <> 64%N -> ~ In x (js "/@" ++ a)).
  { intros x Hx H1 H2.
    change (js "/@" ++ a) with (47%N :: 64%N :: a).
    intros [E|[E|Hin]]; try congruence.
    exact (name_chars_lack x a Hchars Hx Hin). }
  change (js "//" ++ name ++ js "/@" ++ a)
    with (print_name_step (true, name) ++ js "/@" ++ a) at 3.
  rewrite parseXPath_loop_eq.
  rewrite (parseStep_name (true, name) (js "/@" ++ a) Hname eq_refl)
    by (try reflexivity; apply Hrest; (reflexivity || discriminate)).
  replace (length (js "//" ++ name ++ js "/@" ++ a))
    with (S (S (S (S (length name + length a)))))
    by (rewrite !length_app; simpl; lia).
  cbn [Nat.ltb Nat.leb negb bind].
  replace (str_eqb (js "/@" ++ a)
             (print_name_step (true, name) ++ js "/@" ++ a)) with false.
  - rewrite parseXPath_loop_eq.
    cbn [app length Nat.ltb Nat.leb negb].
    change (47%N :: 64%N :: a) with (js "/@" ++ a).
    rewrite (parseStep_attr a Ha). cbn [bind].
    replace (str_eqb [] (js "/@" ++ a)) with false by reflexivity.
    rewrite parseXPath_loop_eq. reflexivity.
  - symmetry. apply str_eqb_neq. intros E.
    apply (f_equal (@length char)) in E.
    unfold print_name_step in E. cbn [fst snd] in E.
    rewrite !length_app in E. simpl in E. lia.
Qed.

Section AttrQuery.

Variable doc : list tree.
Context {provider : Attributes}.
Variable querySelectorAll : Node -> str -> option (list Node).
Variable outerHTML : Node -> str.
Variable splitXPathUnion : str -> list str.

Let xpathS := xpath doc querySelectorAll outerHTML splitXPathUnion.

Lemma strings_of_strings (l : list str) :
  strings_of (map R_string l) = l.
Proof. induction l; simpl; congruence. Qed.

Lemma nodes_of_strings (l : list str) : nodes_of (map R_string l) = [].
Proof. induction l; simpl; auto. Qed.

Lemma includes_lacking (p s : str) (x : char) :
  In x p -> ~ In x s -> includes p s = false.
Proof.
  intros Hp Hs. unfold includes, str_indexOf.
  assert (H : forall i, indexOf_from p s i = None).
  { induction s as [|y s IH]; intros i.
    - cbn [indexOf_from].
      rewrite (startsWith_lacking p [] x Hp Hs). reflexivity.
    - cbn [indexOf_from].
      rewrite (startsWith_lacking p (y :: s) x Hp Hs).
      apply IH. intros Hin. apply Hs. right. exact Hin. }
  rewrite H. reflexivity.
Qed.

Lemma named_elements_are_elements (name : str) (n : Node) :
  In n (named_elements doc name) -> N.eqb (nodeType doc n) 1 = true.
Proof.
  unfold named_elements. intros Hn. apply filter_In in Hn as [_ Hn].
  apply andb_true_iff in Hn as [Hn _]. exact Hn.
Qed.

Lemma evaluateStep_attribute (a : str) (nodes : list Node) :
  (forall n, In n nodes -> N.eqb (nodeType doc n) 1 = true) ->
  evaluateStep doc querySelectorAll (mkStep ax_attribute (NT_name a) [])
               (map R_node nodes)
  = Ret (map R_string (attribute_values doc a nodes)).
Proof.
  induction nodes as [|n nodes IH]; intros Hel; [reflexivity|].
  cbn [map]. rewrite evaluateStep_cons.
  rewrite IH by (intros m Hm; apply Hel; right; exact Hm).
  unfold evaluateStep_context. cbn [axis nodeTest].
  unfold attribute_values. cbn [flat_map].
  rewrite (Hel n (or_introl eq_refl)).
  destruct (getAttribute doc n a); reflexivity.
Qed.

Lemma evaluateXPath_attr (name a : str) :
  is_name name = true -> is_name a = true ->
  evaluateXPath doc querySelectorAll (js "//" ++ name ++ js "/@" ++ a) [[]]
  = Ret (map R_string (attribute_values doc a (named_elements doc name))).
Proof.
  intros Hname Ha. unfold evaluateXPath.
  rewrite (attr_query_trim name a Hname Ha).
  assert (Hsplit : splitUnion (js "//" ++ name ++ js "/@" ++ a)
                   = [js "//" ++ name ++ js "/@" ++ a]).
  { unfold splitUnion, split_finish.
    destruct (split_loop_no_bar (js "//" ++ name ++ js "/@" ++ a)
                (attr_query_lacks name a 124%N Hname Ha eq_refl
                   ltac:(discriminate))
                (mkSplit [] [] 0 None)) as [P Cur].
    rewrite P, Cur. cbn [parts current app].
    rewrite (attr_query_trim name a Hname Ha). reflexivity. }
  rewrite Hsplit. cbn [app length Nat.ltb Nat.leb].
  unfold evaluateSingleXPath.
  change (47%N :: 47%N :: name ++ js "/@" ++ a)
    with (js "//" ++ name ++ js "/@" ++ a).
  rewrite (parseXPath_attr_query name a Hname Ha).
  cbn [bind map fold_left].
  rewrite (evaluateStep_descendant_name doc querySelectorAll name).
  cbn [bind]. apply evaluateStep_attribute.
  apply named_elements_are_elements.
Qed.

Lemma extract_all_attr (q a : str) (nodes : list Node) :
  a <> [] ->
  (forall n, In n nodes -> N.eqb (nodeType doc n) 1 = true) ->
  extract_all doc outerHTML nodes (mkParsed q ex_attr (Some a))
  = attribute_values doc a nodes.
Proof.
  intros Hne. destruct a as [|x a]; [contradiction Hne; reflexivity|].
  unfold extract_all, attribute_values. cbn [extract attrName].
  induction nodes as [|n nodes IH]; intros Hel; [reflexivity|].
  cbn [flat_map]. rewrite IH by (intros m Hm; apply Hel; right; exact Hm).
  unfold extractValue. rewrite (Hel n (or_introl eq_refl)). reflexivity.
Qed.

(** X5.  From the root, the two ways to ask for an attribute give the same
    values: [//name/@attr], through the attribute axis, and
    [//name::attr(attr)], through the pseudo-element, both give what the
    [getAttribute] of the tree provider answers for [attr] on the elements
    named [name], in document order, the null answers left out and the
    empty strings kept.  They differ when every answer is null: the first
    is then an empty Selector of nodes, the second an empty Selector of
    strings. *)
Theorem attribute_axis_agrees_with_pseudo_element (name a : str) :
  is_name name = true -> is_name a = true ->
  length (splitXPathUnion (js "//" ++ name ++ js "/@" ++ a)) <= 1 ->
  length (splitXPathUnion (js "//" ++ name ++ js "::attr(" ++ a ++ js ")"))
  <= 1 ->
  xpathS pluck (js "//" ++ name ++ js "/@" ++ a)
  = Ret (match attribute_values doc a (named_elements doc name) with
         | [] => NodeSelector [] (js "//" ++ name ++ js "/@" ++ a)
         | values =>
             TextSelector values (js "//" ++ name ++ js "/@" ++ a)
         end)
  /\ xpathS pluck (js "//" ++ name ++ js "::attr(" ++ a ++ js ")")
     = Ret (TextSelector
              (attribute_values doc a (named_elements doc name))
              (js "//" ++ name ++ js "::attr(" ++ a ++ js ")")).
Proof.
  intros Hname Ha Hp1 Hp2.
  destruct (is_name_inv a Ha) as [Hane Hachars].
  destruct (name_query_chars name Hname) as [C Hne].
  unfold xpathS, xpath. split.
  - replace (1 <? length (splitXPathUnion
                            (js "//" ++ name ++ js "/@" ++ a)))
      with false by (symmetry; apply Nat.ltb_ge; exact Hp1).
    unfold Selector_evaluateSingleXPath.
    rewrite (pseudo_none (js "//" ++ name ++ js "/@" ++ a))
      by (apply attr_query_lacks;
          [exact Hname|exact Ha|reflexivity|discriminate]).
    cbn [query base_nodes pluck].
    rewrite (evaluateXPath_attr name a Hname Ha). cbn [bind].
    unfold pack_results. rewrite strings_of_strings, nodes_of_strings.
    destruct (attribute_values doc a (named_elements doc name));
      reflexivity.
  - replace (1 <? length (splitXPathUnion
                            (js "//" ++ name ++ js "::attr(" ++ a
                             ++ js ")")))
      with false by (symmetry; apply Nat.ltb_ge; exact Hp2).
    unfold Selector_evaluateSingleXPath.
    assert (P : parseXPathPseudo
                  (js "//" ++ name ++ js "::attr(" ++ a ++ js ")")
                = mkParsed (js "//" ++ name) ex_attr (Some a)).
    { rewrite (app_assoc (js "//") name).
      apply (pseudo_attr (js "//" ++ name) a Hne); [|exact Hane| |].
      - rewrite forallb_forall in *. intros c Hc.
        apply path_char_is_dot. apply C. exact Hc.
      - rewrite forallb_forall in *. intros c Hc.
        specialize (Hachars c Hc). apply name_char_ascii in Hachars.
        apply negb_true_iff, N.eqb_neq. lia.
      - apply (includes_lacking _ _ 40%N); [simpl; tauto|].
        intros Hin. apply in_app_or in Hin as [Hin|Hin].
        + exact (path_chars_lack 40%N _ C eq_refl Hin).
        + simpl in Hin. intuition discriminate. }
    rewrite !P. cbn [query base_nodes pluck].
    rewrite (evaluateXPath_name doc querySelectorAll name Hname).
    cbn [bind]. unfold pack_results.
    rewrite strings_of_nodes, nodes_of_nodes.
    cbn [length Nat.ltb Nat.leb extract].
    rewrite (extract_all_attr _ a _ Hane); [reflexivity|].
    apply named_elements_are_elements.
Qed.

End AttrQuery.

Lemma attribute_axis_agrees_with_pseudo_element_witness :
  (ref_xpath doc_paragraphs pluck "//p/@id"
   = Ret (TextSelector [js "first"; js "second"; js "third"; js "fourth"]
                       (js "//p/@id"))
   /\ ref_xpath doc_paragraphs pluck "//p::attr(id)"
      = Ret (TextSelector [js "first"; js "second"; js "third"; js "fourth"]
                          (js "//p::attr(id)")))
  /\ (ref_xpath doc_paragraphs pluck "//span/@title"
      = Ret (NodeSelector [] (js "//span/@title"))
      /\ ref_xpath doc_paragraphs pluck "//span::attr(title)"
         = Ret (TextSelector [] (js "//span::attr(title)"))).
Proof.
  split.
  - exact (attribute_axis_agrees_with_pseudo_element
             (provider := ref_attributes) doc_paragraphs
             (ref_querySelectorAll doc_paragraphs)
             (ref_outerHTML doc_paragraphs) ref_splitXPathUnion
             (js "p") (js "id") eq_refl eq_refl
             ltac:(vm_compute; lia) ltac:(vm_compute; lia)).
  - exact (attribute_axis_agrees_with_pseudo_element
             (provider := ref_attributes) doc_paragraphs
             (ref_querySelectorAll doc_paragraphs)
             (ref_outerHTML doc_paragraphs) ref_splitXPathUnion
             (js "span") (js "title") eq_refl eq_refl
             ltac:(vm_compute; lia) ltac:(vm_compute; lia)).
Defined.
